(** * The episode orchestrator of [experiment_manager.py]

    A shallow embedding of [main], [run_episode], [log_timing_info],
    [check_compatibility_between_agent_and_sim] and [get_episodes], and the
    properties of their message order, termination, retry policy, log
    lifecycle, cleanup and score aggregation.

    Conventions.
    - Python [float] is IEEE binary64: Rocq's primitive [float].
    - Python [int] is [Z]; counters that only grow from zero are [nat].
    - A [dict] is an association list in insertion order ([Dict]).
    - Everything outside the module (the peer channels of [zuper_nodes],
      the file system, [read_and_draw], [make_video1], the scoring interface)
      is the outside world: every call to it is a [Request], answered by an
      oracle that sees the whole history of earlier calls and answers, and
      that may raise.  Every call, with its answer, is an [Event].
    - The three [while] loops ([run_episode], [iterate_scenarios], [main])
      take a fuel: a loop that is cut off ends in [OutOfFuel], which is
      neither a result nor an exception.
    - [main] takes the parsed configuration; its first lines, which read
      the configuration through [env_as_yaml], and [wrap] and the [__main__]
      block are embedded apart, as the script around the driver.
    - Calls to [logger] are not modelled, nor the wall-clock durations that
      [TimeTracker] measures, nor the thread of [notice_thread] (its body is
      run in place). *)

From Stdlib Require Import List String Ascii ZArith Bool Arith Lia PrimFloat.
From Stdlib Require Import Decimal DecimalString DecimalNat.
From Stdlib Require DecimalFacts.
Import ListNotations.
Local Open Scope string_scope.
Local Open Scope list_scope.

Set Implicit Arguments.
Set Warnings "-inexact-float".

(* ------------------------------------------------------------------ *)
(** ** Python values *)

(** [a >= b] on two Python floats (false when either is NaN). *)
Definition float_ge (a b : float) : bool := PrimFloat.leb b a.

(** [str(n)] for a non-negative integer. *)
Definition str_of_nat (n : nat) : string := NilZero.string_of_uint (Nat.to_uint n).

(** [sep.join(parts)]. *)
Definition str_join (sep : string) (parts : list string) : string := String.concat sep parts.

Definition starts_with_slash (s : string) : bool :=
  match s with String "/" _ => true | _ => false end.

Fixpoint ends_with_slash (s : string) : bool :=
  match s with
  | EmptyString => false
  | String c EmptyString => Ascii.eqb c "/"
  | String _ rest => ends_with_slash rest
  end.

(** [os.path.join(a, b)] on POSIX. *)
Definition os_path_join (a b : string) : string :=
  if starts_with_slash b then b
  else if orb (String.eqb a "") (ends_with_slash a) then a ++ b
  else a ++ "/" ++ b.

(** A Python [dict] with string keys: insertion order, one entry per key. *)
Definition Dict (V : Type) := list (string * V).

Fixpoint dict_get {V} (d : Dict V) (k : string) : option V :=
  match d with
  | [] => None
  | (k', v) :: rest => if String.eqb k' k then Some v else dict_get rest k
  end.

(** [d[k] = v]: an existing key keeps its place. *)
Fixpoint dict_set {V} (d : Dict V) (k : string) (v : V) : Dict V :=
  match d with
  | [] => [(k, v)]
  | (k', v') :: rest =>
      if String.eqb k' k then (k', v) :: rest else (k', v') :: dict_set rest k v
  end.

Definition dict_keys {V} (d : Dict V) : list string := map fst d.
Definition dict_values {V} (d : Dict V) : list V := map snd d.

(* ------------------------------------------------------------------ *)
(** ** Data of [aido_schemas] and of the module *)

(** Payloads the driver forwards without looking inside. *)
Definition opaque := string.

Record ScenarioRobotSpec := {
  configuration : opaque;
  playable : bool
}.

Record Scenario := {
  scenario_name : string;
  environment : opaque;
  robots : Dict ScenarioRobotSpec
}.

Record EpisodeSpec := {
  episode_name : string;
  scenario : Scenario
}.

Record MyConfig := {
  episode_length_s : float;
  min_episode_length_s : float;
  seed : Z;
  physics_dt : float;
  episodes_per_scenario : Z;
  max_failures : Z;
  agent_in : string;
  agent_out : string;
  sim_in : string;
  sim_out : string;
  sm_in : string;
  sm_out : string;
  timeout_initialization : Z;
  timeout_regular : Z
}.

(** A [ComponentInterface]: the two fifos and the nickname it was built with. *)
Record ComponentInterface := {
  fifo_in : string;
  fifo_out : string;
  nickname : string
}.

(** The data of a received message. *)
Inductive MsgData :=
| DNone
| DValue (v : opaque)
| DRobotObservations (observations : opaque)
| DSimulationState (done : bool) (done_why done_code : option string)
| DScenario (s : Scenario).

Record MsgReceived := {
  topic : string;
  data : MsgData
}.

(** What the driver writes on a topic. *)
Inductive Payload :=
| PNone
| PSeed (seed : Z)
| PSetMap (map_data : opaque)
| PSpawnRobot (robot_name : string) (configuration : opaque) (playable : bool)
| PEpisodeStart (episode_name : string)
| PGetRobotState (robot_name : string) (t_effective : float)
| PRobotName (robot_name : string)
| PGetRobotObservations (robot_name : string) (t_effective : float)
| PObservations (observations : opaque)
| PSetRobotCommands (robot_name : string) (commands : MsgData) (t_effective : float)
| PStep (current_sim_time : float).

(** A type as the protocols declare it: a class with its name and its
    [__annotations__], or a type that has no [__annotations__] (a built-in
    type such as [int]). *)
Unset Elimination Schemes.
Inductive pytype :=
| PyType (name : string) (annotations : list (string * pytype))
| PyPlain (name : string).
Set Elimination Schemes.

(** [t.__annotations__], when [t] has the attribute. *)
Definition annotations_of (t : pytype) : option (Dict pytype) :=
  match t with
  | PyType _ a => Some a
  | PyPlain _ => None
  end.

Record NodeProtocol := {
  inputs : Dict pytype;
  outputs : Dict pytype
}.

(** The object [can_be_used_as2] returns: its [result] field, and its truth
    value as Python's [not r] sees it. *)
Record CanBeUsed := {
  result : bool;
  truth : bool
}.

(** [TimeTracker(steps)] of [aido_schemas.utils], with its [phases]: a dict
    keyed by the name of the phase.  The durations that it holds are not
    modelled: the dict is the list of its keys, in insertion order. *)
Record TimeTracker := {
  tt_steps : nat;
  phases : list string
}.

(** The keys of a dict after [d[k] = v]: a key that is there keeps its
    place, a new one comes last. *)
Definition key_set (keys : list string) (k : string) : list string :=
  if existsb (String.eqb k) keys then keys else keys ++ [k].

(** [with tt.measure(phase): ...] around a body that returns:
    [self.phases[phase] = delta]. *)
Definition measure (tt : TimeTracker) (phase : string) : TimeTracker :=
  {| tt_steps := tt_steps tt; phases := key_set (phases tt) phase |}.

Record EvaluatedMetric := { total : float }.
Record RuleEvaluationResult := { metrics : list (list string * EvaluatedMetric) }.

Inductive ScoreValue :=
| SPerEpisode (per_episode : Dict (Dict float))
| SFloat (v : float).

(* ------------------------------------------------------------------ *)
(** ** Exceptions *)

Inductive message :=
| TooManyFailures (nfailures : Z)
| RobotsMismatch (num_playable n_agents : nat)
| ObservationsMismatch (r : CanBeUsed)
| CommandsMismatch (r : CanBeUsed).

Inductive exn :=
| External (what : string)            (* raised inside a collaborator *)
| KeyError (key : string)
| AttributeError (attr : string)
| PyException (msg : message)         (* [raise Exception(msg)] *)
| InvalidSubmission (cause : exn)     (* [dc.InvalidSubmission(msg) from e] *)
| InvalidEvaluator (cause : exn).     (* [dc.InvalidEvaluator(msg) from e] *)

Definition is_InvalidSubmission (e : exn) : bool :=
  match e with InvalidSubmission _ => true | _ => false end.

(* ------------------------------------------------------------------ *)
(** ** Calls to the outside world *)

Inductive Request : Type -> Type :=
(* zuper_nodes_wrapper.ComponentInterface *)
| new_ComponentInterface (ci : ComponentInterface) (timeout : Z) : Request unit
| get_node_protocol (ci : ComponentInterface) (timeout : Z) : Request (option NodeProtocol)
| set_expect_protocol (ci : ComponentInterface) (is_output : bool) (key : string) (t : pytype)
    : Request unit
| write_topic_and_expect_zero (ci : ComponentInterface) (topic : string) (data : Payload)
    : Request unit
| write_topic_and_expect (ci : ComponentInterface) (topic : string) (data : Payload)
    (expect : option string) : Request MsgReceived
| ci_close (ci : ComponentInterface) : Request unit
| ci_cc (ci : ComponentInterface) (fw : string) : Request unit
| ci_serialize (ci : ComponentInterface) (tt : TimeTracker) : Request string
| cc_write (ci : ComponentInterface) (j : string) : Request unit
| cc_flush (ci : ComponentInterface) : Request unit
(* os, shutil, files *)
| os_path_exists (path : string) : Request bool
| shutil_rmtree (path : string) : Request unit
| os_makedirs (path : string) : Request unit
| open_wb (path : string) : Request unit
| file_close (path : string) : Request unit
| os_rename (src dst : string) : Request unit
(* aido_schemas.utils_drawing, utils_video *)
| read_and_draw (fn dn : string) : Request (Dict RuleEvaluationResult)
| make_video1 (fn out_video : string) : Request unit
(* duckietown_challenges.ChallengeInterfaceEvaluator *)
| set_score (name : string) (value : ScoreValue) : Request unit.

Inductive answer (T : Type) :=
| Returned (v : T)
| Raised (e : exn).
Arguments Raised {T} e.

Inductive Event :=
| Ev {T : Type} (r : Request T) (a : answer T).

(** The outside world: the answer to a request, given all that happened before. *)
Definition World := forall T : Type, list Event -> Request T -> answer T.

(** What the program runs in: the outside world, [can_be_used_as2] of
    [zuper_typing.subcheck], and [numpy]'s [mean], [median], [min] and [max]
    of a list of floats. *)
Class Environment := {
  world : World;
  can_be_used_as2 : pytype -> pytype -> CanBeUsed;
  np_mean : list float -> float;
  np_median : list float -> float;
  np_min : list float -> float;
  np_max : list float -> float
}.
Arguments world {_} {T} h r.

(* ------------------------------------------------------------------ *)
(** ** The monad of the driver: history in, outcome and new events out *)

(** How a computation ends: it returns, it raises, or one of its [while]
    loops was cut off after the iterations its fuel allows.  [OutOfFuel] is
    not an exception: no [except] or [finally] clause sees it. *)
Inductive outcome (A : Type) :=
| Ok (a : A)
| Raise (e : exn)
| OutOfFuel.
Arguments Raise {A} e.
Arguments OutOfFuel {A}.

Definition M (A : Type) := list Event -> outcome A * list Event.

Definition ret {A} (a : A) : M A := fun _ => (Ok a, []).
Definition raise {A} (e : exn) : M A := fun _ => (Raise e, []).
Definition out_of_fuel {A} : M A := fun _ => (OutOfFuel, []).

Definition bind {A B} (m : M A) (f : A -> M B) : M B :=
  fun h =>
    let (o, es) := m h in
    match o with
    | Ok a => let (o', es') := f a (h ++ es) in (o', es ++ es')
    | Raise e => (Raise e, es)
    | OutOfFuel => (OutOfFuel, es)
    end.

(** [try: m  except BaseException as e: handler e]. *)
Definition try_except {A} (m : M A) (handler : exn -> M A) : M A :=
  fun h =>
    let (o, es) := m h in
    match o with
    | Raise e => let (o', es') := handler e (h ++ es) in (o', es ++ es')
    | _ => (o, es)
    end.

(** [try: m  finally: fin].  An exception of [fin] replaces the outcome of [m]. *)
Definition try_finally {A} (m : M A) (fin : M unit) : M A :=
  fun h =>
    let (o, es) := m h in
    match o with
    | OutOfFuel => (OutOfFuel, es)
    | _ =>
        let (o', es') := fin (h ++ es) in
        match o' with
        | Ok _ => (o, es ++ es')
        | Raise e => (Raise e, es ++ es')
        | OutOfFuel => (OutOfFuel, es ++ es')
        end
    end.

Declare Scope py_scope.
Delimit Scope py_scope with py.
Notation "x <- m ;; k" := (bind m (fun x => k))
  (at level 61, m at next level, right associativity) : py_scope.
Notation "m ;; k" := (bind m (fun _ => k))
  (at level 61, right associativity) : py_scope.
Local Open Scope py_scope.

(** [d[k]], raising [KeyError]. *)
Definition dict_item {V} (d : Dict V) (k : string) : M V :=
  match dict_get d k with
  | Some v => ret v
  | None => raise (KeyError k)
  end.

(** [for x in xs: body x], threading a loop state. *)
Fixpoint for_each {X S} (xs : list X) (body : X -> S -> M S) (s : S) : M S :=
  match xs with
  | [] => ret s
  | x :: rest => s' <- body x s ;; for_each rest body s'
  end.

(** [range(n)]. *)
Definition py_range (n : Z) : list nat := seq 0 (Z.to_nat n).

(** [{k: v for k, v in pairs}]. *)
Definition dict_of_pairs {V} (pairs : list (string * V)) : Dict V :=
  fold_left (fun d kv => dict_set d (fst kv) (snd kv)) pairs [].

(* ------------------------------------------------------------------ *)
(** ** The program *)

Section Driver.

Context {env : Environment}.

(** One call to the outside world; the call is recorded whatever its answer. *)
Definition call {T} (r : Request T) : M T :=
  fun h =>
    match world h r with
    | Returned v => (Ok v, [Ev r (Returned v)])
    | Raised e => (Raise e, [Ev r (Raised e)])
    end.

(** *** [log_timing_info] *)

Definition log_timing_info (tt : TimeTracker) (sim_ci : ComponentInterface) : M unit :=
  j <- call (ci_serialize sim_ci tt) ;;
  call (cc_write sim_ci j) ;;
  call (cc_flush sim_ci).

(** *** [run_episode] *)

(** [recv.data.observations]. *)
Definition attr_observations (d : MsgData) : M opaque :=
  match d with
  | DRobotObservations o => ret o
  | _ => raise (AttributeError "observations")
  end.

(** [sim_state.done]. *)
Definition attr_done (d : MsgData) : M bool :=
  match d with
  | DSimulationState b _ _ => ret b
  | _ => raise (AttributeError "done")
  end.

(** [[_ for _ in scenario.robots if scenario.robots[_].playable]]. *)
Definition playable_robots (sc : Scenario) : list string :=
  filter (fun n => match dict_get (robots sc) n with
                   | Some c => playable c
                   | None => false
                   end)
         (dict_keys (robots sc)).

(** [[_ for _ in scenario.robots if not scenario.robots[_].playable]]. *)
Definition not_playable_robots (sc : Scenario) : list string :=
  filter (fun n => match dict_get (robots sc) n with
                   | Some c => negb (playable c)
                   | None => false
                   end)
         (dict_keys (robots sc)).

(** The body of [for robot_name in playable_robots]. *)
Definition playable_step (sim_ci : ComponentInterface)
    (playable_robots2agent : Dict ComponentInterface) (t_effective : float)
    (robot_name : string) (tt : TimeTracker) : M TimeTracker :=
  agent <- dict_item playable_robots2agent robot_name ;;
  let tt := measure tt ("sim_compute_robot_state-" ++ robot_name) in
  _ <- call (write_topic_and_expect sim_ci "get_robot_state"
               (PGetRobotState robot_name t_effective) (Some "robot_state")) ;;
  let tt := measure tt ("sim_compute_performance-" ++ robot_name) in
  _ <- call (write_topic_and_expect sim_ci "get_robot_performance"
               (PRobotName robot_name) (Some "robot_performance")) ;;
  let tt := measure tt ("sim_render-" ++ robot_name) in
  recv <- call (write_topic_and_expect sim_ci "get_robot_observations"
                  (PGetRobotObservations robot_name t_effective)
                  (Some "robot_observations")) ;;
  let tt := measure tt ("agent_compute-" ++ robot_name) in
  r <- try_except
         (obs <- attr_observations (data recv) ;;
          call (write_topic_and_expect_zero agent "observations" (PObservations obs)) ;;
          call (write_topic_and_expect agent "get_commands" PNone (Some "commands")))
         (fun e => raise (InvalidSubmission e)) ;;
  let tt := measure tt "set_robot_commands" in
  call (write_topic_and_expect_zero sim_ci "set_robot_commands"
          (PSetRobotCommands robot_name (data r) t_effective)) ;;
  ret tt.

(** The body of [for robot_name in not_playable_robots]. *)
Definition not_playable_step (sim_ci : ComponentInterface) (t_effective : float)
    (robot_name : string) (tt : TimeTracker) : M TimeTracker :=
  let tt := measure tt ("sim_compute_robot_state-" ++ robot_name) in
  _ <- call (write_topic_and_expect sim_ci "get_robot_state"
               (PGetRobotState robot_name t_effective) (Some "robot_state")) ;;
  ret tt.

(** The two [for] loops over the robots of one iteration. *)
Definition robots_phase (sim_ci : ComponentInterface)
    (playable_robots2agent : Dict ComponentInterface)
    (playable not_playable : list string) (t_effective : float)
    (tt : TimeTracker) : M TimeTracker :=
  tt <- for_each playable (playable_step sim_ci playable_robots2agent t_effective) tt ;;
  for_each not_playable (not_playable_step sim_ci t_effective) tt.

(** One iteration of [while True], after the test of the time limit:
    [None] is [break], [Some t] goes round again with [current_sim_time = t]. *)
Definition step_iteration (sim_ci : ComponentInterface)
    (playable_robots2agent : Dict ComponentInterface)
    (playable not_playable : list string) (physics_dt : float) (steps : nat)
    (current_sim_time : float) : M (option float) :=
  let tt := {| tt_steps := steps; phases := [] |} in
  let t_effective := current_sim_time in
  tt <- robots_phase sim_ci playable_robots2agent playable not_playable t_effective tt ;;
  let tt := measure tt "sim_compute_sim_state" in
  recv <- call (write_topic_and_expect sim_ci "get_sim_state" PNone (Some "sim_state")) ;;
  done <- attr_done (data recv) ;;
  if done then ret None
  else
    let tt := measure tt "sim_physics" in
    let current_sim_time := PrimFloat.add current_sim_time physics_dt in
    call (write_topic_and_expect_zero sim_ci "step" (PStep current_sim_time)) ;;
    log_timing_info tt sim_ci ;;
    ret (Some current_sim_time).

(** [while True: ...] of [run_episode]; [steps] is never incremented. *)
Fixpoint step_loop (fuel : nat) (sim_ci : ComponentInterface)
    (playable_robots2agent : Dict ComponentInterface)
    (playable not_playable : list string) (physics_dt episode_length_s : float)
    (steps : nat) (current_sim_time : float) : M float :=
  match fuel with
  | O => out_of_fuel
  | S fuel' =>
      if float_ge current_sim_time episode_length_s then ret current_sim_time
      else
        r <- step_iteration sim_ci playable_robots2agent playable not_playable
               physics_dt steps current_sim_time ;;
        match r with
        | None => ret current_sim_time
        | Some t =>
            step_loop fuel' sim_ci playable_robots2agent playable not_playable
              physics_dt episode_length_s steps t
        end
  end.

(** Everything of [run_episode] before the loop. *)
Definition episode_init (sim_ci : ComponentInterface) (agents : list ComponentInterface)
    (episode_name : string) (scenario : Scenario) : M unit :=
  call (write_topic_and_expect_zero sim_ci "clear" PNone) ;;
  call (write_topic_and_expect_zero sim_ci "set_map" (PSetMap (environment scenario))) ;;
  for_each (robots scenario)
    (fun kv _ =>
       call (write_topic_and_expect_zero sim_ci "spawn_robot"
               (PSpawnRobot (fst kv) (configuration (snd kv)) (playable (snd kv)))))
    tt ;;
  call (write_topic_and_expect_zero sim_ci "episode_start" (PEpisodeStart episode_name)) ;;
  for_each agents
    (fun agent _ =>
       call (write_topic_and_expect_zero agent "episode_start" (PEpisodeStart episode_name)))
    tt.

Definition run_episode (fuel : nat) (sim_ci : ComponentInterface)
    (agents : list ComponentInterface) (physics_dt : float) (episode_name : string)
    (scenario : Scenario) (episode_length_s : float) : M float :=
  episode_init sim_ci agents episode_name scenario ;;
  let current_sim_time := 0%float in
  let steps := O in
  let playable := playable_robots scenario in
  let not_playable := not_playable_robots scenario in
  let playable_robots2agent := dict_of_pairs (combine playable agents) in
  step_loop fuel sim_ci playable_robots2agent playable not_playable physics_dt
    episode_length_s steps current_sim_time.

(** *** [check_compatibility_between_agent_and_sim] *)

(** [ci.node_protocol.<attr>] when [node_protocol] may be [None]. *)
Definition attr_of_protocol (np : option NodeProtocol) (attr : string) : M NodeProtocol :=
  match np with
  | Some p => ret p
  | None => raise (AttributeError attr)
  end.

(** [t.__annotations__], raising [AttributeError]. *)
Definition attr_annotations (t : pytype) : M (Dict pytype) :=
  match annotations_of t with
  | Some a => ret a
  | None => raise (AttributeError "__annotations__")
  end.

Definition check_compatibility_between_agent_and_sim
    (agent_ci : ComponentInterface) (agent_protocol : option NodeProtocol)
    (sim_protocol : option NodeProtocol) : M unit :=
  p <- attr_of_protocol sim_protocol "outputs" ;;
  robot_observations <- dict_item (outputs p) "robot_observations" ;;
  annotations <- attr_annotations robot_observations ;;
  type_observations_sim <- dict_item annotations "observations" ;;
  set_robot_commands <- dict_item (inputs p) "set_robot_commands" ;;
  annotations <- attr_annotations set_robot_commands ;;
  type_commands_sim <- dict_item annotations "commands" ;;
  match agent_protocol with
  | None =>
      call (set_expect_protocol agent_ci true "commands" type_commands_sim) ;;
      call (set_expect_protocol agent_ci false "observations" type_observations_sim)
  | Some q =>
      type_observations_agent <- dict_item (inputs q) "observations" ;;
      type_commands_agent <- dict_item (outputs q) "commands" ;;
      let r := can_be_used_as2 type_observations_sim type_observations_agent in
      if negb (result r) then raise (PyException (ObservationsMismatch r))
      else
        let r := can_be_used_as2 type_commands_agent type_commands_sim in
        if negb (truth r) then raise (PyException (CommandsMismatch r))
        else ret tt
  end.

(** *** [get_episodes] *)

(** [scenario.scenario_name] on what the scenario maker sent. *)
Definition as_scenario (d : MsgData) : M Scenario :=
  match d with
  | DScenario s => ret s
  | _ => raise (AttributeError "scenario_name")
  end.

Definition episodes_of_scenario (episodes_per_scenario : Z) (sc : Scenario)
  : list EpisodeSpec :=
  map (fun i => {| episode_name := scenario_name sc ++ "-" ++ str_of_nat i;
                   scenario := sc |})
      (py_range episodes_per_scenario).

(** The generator [iterate_scenarios] run together with the loop that
    consumes it. *)
Fixpoint collect_episodes (fuel : nat) (sm_ci : ComponentInterface)
    (episodes_per_scenario : Z) (episodes : list EpisodeSpec) : M (list EpisodeSpec) :=
  match fuel with
  | O => out_of_fuel
  | S fuel' =>
      recv <- call (write_topic_and_expect sm_ci "next_scenario" PNone None) ;;
      if String.eqb (topic recv) "finished" then
        call (ci_close sm_ci) ;;
        ret episodes
      else
        sc <- as_scenario (data recv) ;;
        collect_episodes fuel' sm_ci episodes_per_scenario
          (episodes ++ episodes_of_scenario episodes_per_scenario sc)
  end.

Definition get_episodes (fuel : nat) (sm_ci : ComponentInterface)
    (episodes_per_scenario : Z) (seed : Z) : M (list EpisodeSpec) :=
  call (write_topic_and_expect_zero sm_ci "seed" (PSeed seed)) ;;
  collect_episodes fuel sm_ci episodes_per_scenario [].

(** *** [main] *)

(** The variables of [main] that the episode loop updates. *)
Record LoopState := {
  st_episodes : list EpisodeSpec;
  st_nfailures : Z;
  st_attempt_i : nat;
  st_per_episode : Dict (Dict float);
  st_stats : Dict float
}.

(** [M = "/".join(m) if m else k]. *)
Definition metric_path (k : string) (m : list string) : string :=
  match m with
  | [] => k
  | _ => str_join "/" m
  end.

(** The two nested loops that fill [stats] from [evaluated]. *)
Definition collect_stats (evaluated : Dict RuleEvaluationResult) : Dict float :=
  fold_left
    (fun stats kevr =>
       fold_left
         (fun stats mem =>
            dict_set stats (metric_path (fst kevr) (fst mem)) (total (snd mem)))
         (metrics (snd kevr)) stats)
    evaluated [].

(** [try: run_episode(...)  except: raise  finally: fw.close(); os.rename(fn_tmp, fn)]. *)
Definition run_episode_logged (sfuel : nat) (cfg : MyConfig) (sim_ci : ComponentInterface)
    (agents : list ComponentInterface) (episode_spec : EpisodeSpec)
    (fn_tmp fn : string) : M float :=
  try_finally
    (try_except
       (run_episode sfuel sim_ci agents (physics_dt cfg) (episode_name episode_spec)
          (scenario episode_spec) (episode_length_s cfg))
       (fun e => raise e))
    (call (file_close fn_tmp) ;;
     call (os_rename fn_tmp fn)).

(** [dn], [fn] and [fn_tmp] of an attempt, and [dn_final]. *)
Definition attempt_dir (attempts episode_name : string) (attempt_i : nat) : string :=
  os_path_join attempts (episode_name ++ ".attempt" ++ str_of_nat attempt_i).

Definition log_file (dn : string) : string := os_path_join dn "log.gs2.cbor".

Definition tmp_log_file (dn : string) : string := (log_file dn ++ ".tmp")%string.

Definition final_dir (log_dir episode_name : string) : string :=
  os_path_join log_dir episode_name.

(** The body of [while episodes] after the test of [nfailures], for the
    episode at the head of the list, up to the statistics of the attempt:
    returns [length_s] and [stats]. *)
Definition attempt_episode (sfuel : nat) (cfg : MyConfig)
    (agent_ci sim_ci : ComponentInterface) (agents : list ComponentInterface)
    (log_dir attempts : string) (attempt_i : nat) (episode_spec : EpisodeSpec)
  : M (float * Dict float) :=
  let episode_name := episode_name episode_spec in
  let dn_final := final_dir log_dir episode_name in
  e <- call (os_path_exists dn_final) ;;
  (if e then call (shutil_rmtree dn_final) else ret tt) ;;
  let dn := attempt_dir attempts episode_name attempt_i in
  e <- call (os_path_exists dn) ;;
  (if e then call (shutil_rmtree dn) else ret tt) ;;
  e <- call (os_path_exists dn) ;;
  (if negb e then call (os_makedirs dn) else ret tt) ;;
  let fn := log_file dn in
  let fn_tmp := tmp_log_file dn in
  call (open_wb fn_tmp) ;;
  call (ci_cc agent_ci fn_tmp) ;;
  call (ci_cc sim_ci fn_tmp) ;;
  let num_playable :=
    List.length (filter playable (dict_values (robots (scenario episode_spec)))) in
  (if negb (Nat.eqb num_playable (List.length agents))
   then raise (PyException (RobotsMismatch num_playable (List.length agents)))
   else ret tt) ;;
  length_s <- run_episode_logged sfuel cfg sim_ci agents episode_spec fn_tmp fn ;;
  evaluated <- call (read_and_draw fn dn) ;;
  ret (length_s, collect_stats evaluated).

(** The rest of the body: the attempt is accepted or rejected. *)
Definition settle_attempt (cfg : MyConfig) (log_dir attempts : string) (s : LoopState)
    (episode_spec : EpisodeSpec) (length_s : float) (stats : Dict float) : M LoopState :=
  let episode_name := episode_name episode_spec in
  let dn_final := final_dir log_dir episode_name in
  let dn := attempt_dir attempts episode_name (st_attempt_i s) in
  let fn := log_file dn in
  let per_episode := dict_set (st_per_episode s) episode_name stats in
  if float_ge length_s (min_episode_length_s cfg) then
    let out_video := os_path_join dn "camera.mp4" in
    call (make_video1 fn out_video) ;;
    call (os_rename dn dn_final) ;;
    ret {| st_episodes := tl (st_episodes s);
           st_nfailures := st_nfailures s;
           st_attempt_i := S (st_attempt_i s);
           st_per_episode := per_episode;
           st_stats := stats |}
  else
    ret {| st_episodes := st_episodes s;
           st_nfailures := (st_nfailures s + 1)%Z;
           st_attempt_i := S (st_attempt_i s);
           st_per_episode := per_episode;
           st_stats := stats |}.

Definition episode_attempt (sfuel : nat) (cfg : MyConfig)
    (agent_ci sim_ci : ComponentInterface) (agents : list ComponentInterface)
    (log_dir attempts : string) (s : LoopState) (episode_spec : EpisodeSpec)
  : M LoopState :=
  r <- attempt_episode sfuel cfg agent_ci sim_ci agents log_dir attempts
         (st_attempt_i s) episode_spec ;;
  settle_attempt cfg log_dir attempts s episode_spec (fst r) (snd r).

(** [while episodes: ...]. *)
Fixpoint episodes_loop (fuel sfuel : nat) (cfg : MyConfig)
    (agent_ci sim_ci : ComponentInterface) (agents : list ComponentInterface)
    (log_dir attempts : string) (s : LoopState) : M LoopState :=
  match st_episodes s with
  | [] => ret s
  | episode_spec :: _ =>
      match fuel with
      | O => out_of_fuel
      | S fuel' =>
          if (max_failures cfg <=? st_nfailures s)%Z
          then raise (PyException (TooManyFailures (st_nfailures s)))
          else
            s' <- episode_attempt sfuel cfg agent_ci sim_ci agents log_dir attempts
                    s episode_spec ;;
            episodes_loop fuel' sfuel cfg agent_ci sim_ci agents log_dir attempts s'
      end
  end.

(** The outer [try] of [main] up to the list of episodes. *)
Definition main_prelude (sfuel : nat) (cfg : MyConfig)
    (agent_ci sim_ci sm_ci : ComponentInterface) : M (list EpisodeSpec) :=
  call (write_topic_and_expect_zero sim_ci "seed" (PSeed (seed cfg))) ;;
  call (write_topic_and_expect_zero agent_ci "seed" (PSeed (seed cfg))) ;;
  get_episodes sfuel sm_ci (episodes_per_scenario cfg) (seed cfg).

(** The body of the outer [try] of [main]. *)
Definition main_try (fuel sfuel : nat) (cfg : MyConfig)
    (agent_ci sim_ci sm_ci : ComponentInterface) (agents : list ComponentInterface)
    (log_dir attempts : string) : M LoopState :=
  let nfailures := 0%Z in
  episodes <- main_prelude sfuel cfg agent_ci sim_ci sm_ci ;;
  episodes_loop fuel sfuel cfg agent_ci sim_ci agents log_dir attempts
    {| st_episodes := episodes;
       st_nfailures := nfailures;
       st_attempt_i := O;
       st_per_episode := [];
       st_stats := [] |}.

(** [[_[k] for _ in per_episode.values()]]. *)
Fixpoint values_of (ds : list (Dict float)) (k : string) : M (list float) :=
  match ds with
  | [] => ret []
  | d :: rest =>
      v <- dict_item d k ;;
      vs <- values_of rest k ;;
      ret (v :: vs)
  end.

(** The body of [for k in list(stats)]. *)
Definition report_metric (per_episode : Dict (Dict float)) (k : string) : M unit :=
  values <- values_of (dict_values per_episode) k ;;
  call (set_score (k ++ "_mean") (SFloat (np_mean values))) ;;
  call (set_score (k ++ "_median") (SFloat (np_median values))) ;;
  call (set_score (k ++ "_min") (SFloat (np_min values))) ;;
  call (set_score (k ++ "_max") (SFloat (np_max values))).

(** Everything of [main] after the outer [try]. *)
Definition report_scores (per_episode : Dict (Dict float)) (stats : Dict float) : M unit :=
  call (set_score "per-episodes" (SPerEpisode per_episode)) ;;
  for_each (dict_keys stats) (fun k _ => report_metric per_episode k) tt.

Definition the_agent_ci (cfg : MyConfig) : ComponentInterface :=
  {| fifo_in := agent_in cfg; fifo_out := agent_out cfg; nickname := "agent" |}.
Definition the_sim_ci (cfg : MyConfig) : ComponentInterface :=
  {| fifo_in := sim_in cfg; fifo_out := sim_out cfg; nickname := "simulator" |}.
Definition the_sm_ci (cfg : MyConfig) : ComponentInterface :=
  {| fifo_in := sm_in cfg; fifo_out := sm_out cfg; nickname := "scenario_maker" |}.

(** The start of [main]: the three channels and their protocols; returns the
    [node_protocol] of the simulator and of the agent.  [cfg] is the parsed
    [experiment_manager_parameters]. *)
Definition open_channels (cfg : MyConfig)
  : M (option NodeProtocol * option NodeProtocol) :=
  let agent_ci := the_agent_ci cfg in
  let sim_ci := the_sim_ci cfg in
  let sm_ci := the_sm_ci cfg in
  call (new_ComponentInterface agent_ci (timeout_regular cfg)) ;;
  call (new_ComponentInterface sim_ci (timeout_regular cfg)) ;;
  call (new_ComponentInterface sm_ci (timeout_regular cfg)) ;;
  _ <- call (get_node_protocol sm_ci (timeout_initialization cfg)) ;;
  sim_protocol <- call (get_node_protocol sim_ci (timeout_initialization cfg)) ;;
  agent_protocol <- call (get_node_protocol agent_ci (timeout_initialization cfg)) ;;
  ret (sim_protocol, agent_protocol).

(** Everything of [main] before the outer [try]. *)
Definition main_setup (cfg : MyConfig) : M unit :=
  protocols <- open_channels cfg ;;
  check_compatibility_between_agent_and_sim (the_agent_ci cfg)
    (snd protocols) (fst protocols).

(** The outer [try ... except ... finally] of [main]. *)
Definition main_guarded (fuel sfuel : nat) (cfg : MyConfig) (log_dir attempts : string)
  : M LoopState :=
  let agent_ci := the_agent_ci cfg in
  let sim_ci := the_sim_ci cfg in
  let sm_ci := the_sm_ci cfg in
  try_finally
    (try_except
       (main_try fuel sfuel cfg agent_ci sim_ci sm_ci [agent_ci] log_dir attempts)
       (fun e => if is_InvalidSubmission e then raise e
                 else raise (InvalidEvaluator e)))
    (call (ci_close agent_ci) ;;
     call (ci_close sim_ci)).

Definition main (fuel sfuel : nat) (cfg : MyConfig) (log_dir attempts : string) : M unit :=
  main_setup cfg ;;
  s <- main_guarded fuel sfuel cfg log_dir attempts ;;
  report_scores (st_per_episode s) (st_stats s).

End Driver.

(* ------------------------------------------------------------------ *)
(** ** Reading a history *)

(** The channel, topic and robot a written message is about. *)
Definition robot_of (p : Payload) : option string :=
  match p with
  | PSpawnRobot n _ _ | PGetRobotState n _ | PRobotName n
  | PGetRobotObservations n _ | PSetRobotCommands n _ _ => Some n
  | _ => None
  end.

Inductive Wire :=
| wire (ci : ComponentInterface) (topic : string) (robot : option string)
| not_a_message.

Definition wire_of_request {T} (r : Request T) : Wire :=
  match r with
  | write_topic_and_expect_zero ci topic d => wire ci topic (robot_of d)
  | write_topic_and_expect ci topic d _ => wire ci topic (robot_of d)
  | _ => not_a_message
  end.

Definition wire_of (e : Event) : Wire :=
  match e with Ev r _ => wire_of_request r end.

Definition topic_is (t : string) (e : Event) : bool :=
  match wire_of e with
  | wire _ t' _ => String.eqb t' t
  | not_a_message => false
  end.

(** The physics advance: a [step] message. *)
Definition is_step (e : Event) : bool := topic_is "step" e.

(** The time a [step] message carries. *)
Definition step_time (e : Event) : option float :=
  match e with
  | Ev (write_topic_and_expect_zero _ topic (PStep t)) _ =>
      if String.eqb topic "step" then Some t else None
  | _ => None
  end.

(** The times of the [step] messages of a history, in order. *)
Definition steps_sent (es : list Event) : list float :=
  flat_map (fun e => match step_time e with Some t => [t] | None => [] end) es.

(** A reply to [get_sim_state] that reports [done]. *)
Definition reports_done (e : Event) : bool :=
  match e with
  | Ev (write_topic_and_expect _ topic _ _) a =>
      String.eqb topic "get_sim_state"
      && match a with
         | Returned m =>
             match data m with
             | DSimulationState d _ _ => d
             | _ => false
             end
         | Raised _ => false
         end
  | _ => false
  end.

(** The three calls of [log_timing_info]. *)
Definition is_timing (e : Event) : bool :=
  match e with
  | Ev (ci_serialize _ _) _ | Ev (cc_write _ _) _ | Ev (cc_flush _) _ => true
  | _ => false
  end.

Definition is_any_close (e : Event) : bool :=
  match e with Ev (ci_close _) _ => true | _ => false end.

Definition is_new_channel (e : Event) : bool :=
  match e with Ev (new_ComponentInterface _ _) _ => true | _ => false end.

Definition is_open_wb (e : Event) : bool :=
  match e with Ev (open_wb _) _ => true | _ => false end.



(** The start of an episode attempt: the [clear] sent by [run_episode]. *)
Definition is_clear (e : Event) : bool := topic_is "clear" e.

Definition is_set_score (e : Event) : bool :=
  match e with Ev (set_score _ _) _ => true | _ => false end.

(** The scores that were set, in order. *)
Definition score_of (e : Event) : option (string * ScoreValue) :=
  match e with
  | Ev (set_score name v) (Returned _) => Some (name, v)
  | _ => None
  end.

Fixpoint scores_of (es : list Event) : list (string * ScoreValue) :=
  match es with
  | [] => []
  | e :: rest =>
      match score_of e with
      | Some s => s :: scores_of rest
      | None => scores_of rest
      end
  end.

Definition count (p : Event -> bool) (es : list Event) : nat :=
  List.length (filter p es).

(* ------------------------------------------------------------------ *)
(** ** Scripted worlds, to run the driver on *)

(** What the peers and collaborators of a scripted world do. *)
Record Script := {
  sc_scenarios : list Scenario;            (* sent before [finished] *)
  sc_done_after : nat -> option nat;       (* per attempt: steps before [done] *)
  sc_agent_fails : bool;                   (* [get_commands] times out *)
  sc_sim_protocol : option NodeProtocol;
  sc_agent_protocol : option NodeProtocol;
  sc_evaluated : nat -> Dict RuleEvaluationResult  (* per attempt *)
}.

(** Steps sent since the last [clear]. *)
Definition steps_since_clear (h : list Event) : nat :=
  fold_left (fun n e => if is_clear e then O else if is_step e then S n else n) h O.

Definition scripted_reply (sc : Script) (h : list Event) (ci : ComponentInterface)
    (topic : string) (expect : option string) : answer MsgReceived :=
  if String.eqb topic "next_scenario" then
    match nth_error (sc_scenarios sc) (count (topic_is "next_scenario") h) with
    | Some s => Returned {| topic := "scenario"; data := DScenario s |}
    | None => Returned {| topic := "finished"; data := DNone |}
    end
  else if String.eqb topic "get_sim_state" then
    let done :=
      match sc_done_after sc (count is_clear h - 1) with
      | Some n => Nat.leb n (steps_since_clear h)
      | None => false
      end in
    Returned {| topic := "sim_state"; data := DSimulationState done None None |}
  else if String.eqb topic "get_robot_observations" then
    Returned {| topic := "robot_observations"; data := DRobotObservations "camera" |}
  else if String.eqb topic "get_commands" then
    if sc_agent_fails sc then Raised (External "timeout")
    else Returned {| topic := "commands"; data := DValue "pwm" |}
  else
    Returned {| topic := match expect with Some t => t | None => "" end;
                data := DValue "" |}.

Definition scripted (sc : Script) : World :=
  fun T h r =>
    match r in Request T return answer T with
    | new_ComponentInterface _ _ => Returned tt
    | get_node_protocol ci _ =>
        if String.eqb (nickname ci) "simulator" then Returned (sc_sim_protocol sc)
        else if String.eqb (nickname ci) "agent" then Returned (sc_agent_protocol sc)
        else Returned None
    | set_expect_protocol _ _ _ _ => Returned tt
    | write_topic_and_expect_zero _ _ _ => Returned tt
    | write_topic_and_expect ci topic _ expect => scripted_reply sc h ci topic expect
    | ci_close _ => Returned tt
    | ci_cc _ _ => Returned tt
    | ci_serialize _ _ => Returned "timing"
    | cc_write _ _ => Returned tt
    | cc_flush _ => Returned tt
    | os_path_exists _ => Returned false
    | shutil_rmtree _ => Returned tt
    | os_makedirs _ => Returned tt
    | open_wb _ => Returned tt
    | file_close _ => Returned tt
    | os_rename _ _ => Returned tt
    | read_and_draw _ _ =>
        Returned (sc_evaluated sc (count is_clear h - 1))
    | make_video1 _ _ => Returned tt
    | set_score _ _ => Returned tt
    end.

(** Protocols: the simulator emits observations of type [obs] and takes
    commands of type [cmd]; the agent takes [obs'] and emits [cmd']. *)
Definition sim_protocol_of (obs cmd : pytype) : NodeProtocol :=
  {| inputs := [("set_robot_commands", PyType "SetRobotCommands" [("commands", cmd)])];
     outputs := [("robot_observations", PyType "RobotObservations" [("observations", obs)])] |}.

Definition agent_protocol_of (obs cmd : pytype) : NodeProtocol :=
  {| inputs := [("observations", obs)];
     outputs := [("commands", cmd)] |}.

Definition ty_name (t : pytype) : string :=
  match t with PyType n _ | PyPlain n => n end.

(** A stand-in for [can_be_used_as2]: usable when the names agree. *)
Definition same_name (a b : pytype) : CanBeUsed :=
  let ok := String.eqb (ty_name a) (ty_name b) in
  {| result := ok; truth := ok |}.

Definition JPGImage := PyType "JPGImage" [].
Definition PWMCommands := PyType "PWMCommands" [].
Definition LidarScan := PyType "LidarScan" [].

Definition duckie (p : bool) : ScenarioRobotSpec :=
  {| configuration := "pose"; playable := p |}.

(** A scenario with one playable robot and one scripted one. *)
Definition loop_scenario : Scenario :=
  {| scenario_name := "loop";
     environment := "map";
     robots := [("ego", duckie true); ("npc", duckie false)] |}.

Definition a_config (max_fail : Z) (eps : Z) : MyConfig :=
  {| episode_length_s := 1%float;
     min_episode_length_s := 0.5%float;
     seed := 42;
     physics_dt := 0.5%float;
     episodes_per_scenario := eps;
     max_failures := max_fail;
     agent_in := "/fifos/agent-in";
     agent_out := "/fifos/agent-out";
     sim_in := "/fifos/simulator-in";
     sim_out := "/fifos/simulator-out";
     sm_in := "/fifos/scenario_maker-in";
     sm_out := "/fifos/scenario_maker-out";
     timeout_initialization := 15;
     timeout_regular := 120 |}.

Definition metric (path : list string) (v : float) : list string * EvaluatedMetric :=
  (path, {| total := v |}).

Definition deviation (v : float) : Dict RuleEvaluationResult :=
  [("deviation", {| metrics := [metric ["lane_following"; "deviation"] v] |})].

(** All goes well: one scenario, a simulator that never reports [done]. *)
Definition happy_script : Script :=
  {| sc_scenarios := [loop_scenario];
     sc_done_after := fun _ => None;
     sc_agent_fails := false;
     sc_sim_protocol := Some (sim_protocol_of JPGImage PWMCommands);
     sc_agent_protocol := Some (agent_protocol_of JPGImage PWMCommands);
     sc_evaluated := fun i => match i with
                              | O => deviation 0.2%float
                              | _ => deviation 0.4%float
                              end |}.

(** The simulator reports [done] at once, in every attempt. *)
Definition done_script : Script :=
  {| sc_scenarios := [loop_scenario];
     sc_done_after := fun _ => Some 0;
     sc_agent_fails := false;
     sc_sim_protocol := Some (sim_protocol_of JPGImage PWMCommands);
     sc_agent_protocol := Some (agent_protocol_of JPGImage PWMCommands);
     sc_evaluated := fun _ => deviation 0.2%float |}.

(** The agent does not answer [get_commands]. *)
Definition silent_agent_script : Script :=
  {| sc_scenarios := [loop_scenario];
     sc_done_after := fun _ => None;
     sc_agent_fails := true;
     sc_sim_protocol := Some (sim_protocol_of JPGImage PWMCommands);
     sc_agent_protocol := Some (agent_protocol_of JPGImage PWMCommands);
     sc_evaluated := fun _ => deviation 0.2%float |}.

(** The agent wants lidar scans, the simulator sends images. *)
Definition mismatch_script : Script :=
  {| sc_scenarios := [loop_scenario];
     sc_done_after := fun _ => None;
     sc_agent_fails := false;
     sc_sim_protocol := Some (sim_protocol_of JPGImage PWMCommands);
     sc_agent_protocol := Some (agent_protocol_of LidarScan PWMCommands);
     sc_evaluated := fun _ => deviation 0.2%float |}.


(** Stand-ins for [numpy]'s aggregates, to run [main] on; the theorems are
    about any aggregates, these serve the scripted runs only.  [mean_of] is
    the sum from left to right divided by the count, which is the order in
    which [numpy] adds up fewer than eight values (it adds longer arrays up
    in blocks, which these runs do not have); [median_of] is the middle of
    the sorted values; [min_of] and [max_of] are the least and the greatest
    value, and NaN as soon as one value is NaN, as in [numpy].  On an empty
    list, where [numpy] raises or warns, they are NaN: [main] never
    aggregates an empty list in these runs. *)
Fixpoint float_of_nat (n : nat) : float :=
  match n with
  | O => 0%float
  | S n' => PrimFloat.add (float_of_nat n') 1%float
  end.

Definition mean_of (l : list float) : float :=
  PrimFloat.div (fold_left PrimFloat.add l 0%float) (float_of_nat (List.length l)).

Fixpoint insert_sorted (x : float) (l : list float) : list float :=
  match l with
  | [] => [x]
  | y :: rest => if PrimFloat.leb x y then x :: l else y :: insert_sorted x rest
  end.

Definition median_of (l : list float) : float :=
  let sorted := fold_right insert_sorted [] l in
  let n := List.length l in
  if Nat.even n
  then mean_of [nth (n / 2 - 1) sorted nan; nth (n / 2) sorted nan]
  else nth (n / 2) sorted nan.

Definition min_of (l : list float) : float :=
  match l with
  | [] => nan
  | x :: rest =>
      fold_left (fun a b => if PrimFloat.is_nan a then a
                            else if PrimFloat.is_nan b then b
                            else if PrimFloat.ltb b a then b else a) rest x
  end.

Definition max_of (l : list float) : float :=
  match l with
  | [] => nan
  | x :: rest =>
      fold_left (fun a b => if PrimFloat.is_nan a then a
                            else if PrimFloat.is_nan b then b
                            else if PrimFloat.ltb a b then b else a) rest x
  end.

(** The configuration, channels and names of the runs below. *)
Definition cfg0 : MyConfig := a_config 2 2.
Definition agent0 : ComponentInterface := the_agent_ci cfg0.
Definition sim0 : ComponentInterface := the_sim_ci cfg0.
Definition loop_0 : EpisodeSpec := {| episode_name := "loop-0"; scenario := loop_scenario |}.
Definition loop_1 : EpisodeSpec := {| episode_name := "loop-1"; scenario := loop_scenario |}.

Definition state0 : LoopState :=
  {| st_episodes := [loop_0; loop_1];
     st_nfailures := 0;
     st_attempt_i := O;
     st_per_episode := [];
     st_stats := [] |}.

(** A scripted world with the stand-ins. *)
Definition scripted_env (sc : Script) : Environment :=
  {| world := scripted sc;
     can_be_used_as2 := same_name;
     np_mean := mean_of;
     np_median := median_of;
     np_min := min_of;
     np_max := max_of |}.

(** [main] in a scripted world. *)
Definition main_in (sc : Script) (cfg : MyConfig) : outcome unit * list Event :=
  @main (scripted_env sc) 10 10 cfg "/tmp/episodes" "/tmp/attempts" [].

(** [run_episode] for the episode [loop-0] in a scripted world. *)
Definition run_episode_in (sc : Script) : outcome float * list Event :=
  @run_episode (scripted_env sc) 10 sim0 [agent0] (physics_dt cfg0) "loop-0"
    loop_scenario (episode_length_s cfg0) [].


Definition state_after (r : outcome LoopState * list Event) : LoopState :=
  match fst r with
  | Ok s => s
  | _ => state0
  end.

(** One iteration of the step loop of [loop-0], at time zero. *)
Definition iteration_in (sc : Script) : outcome (option float) * list Event :=
  @step_iteration (scripted_env sc) sim0 [("ego", agent0)] ["ego"] ["npc"]
    (physics_dt cfg0) 0 0%float [].



(* ------------------------------------------------------------------ *)
(** ** What the claims speak of *)

Definition is_prefix {X} (l full : list X) : Prop := exists rest, full = l ++ rest.

Definition is_Ok {A} (o : outcome A) : bool :=
  match o with Ok _ => true | _ => false end.

(** The type that [t] declares for its field [k]. *)
Definition annotation (t : pytype) (k : string) : option pytype :=
  match annotations_of t with
  | Some a => dict_get a k
  | None => None
  end.

(** The types the two peers declare: what the simulator emits as observations
    and takes as commands, what the agent takes as observations and emits as
    commands. *)
Definition declared_types (sim_protocol agent_protocol : NodeProtocol)
  : option (pytype * pytype * pytype * pytype) :=
  match dict_get (outputs sim_protocol) "robot_observations",
        dict_get (inputs sim_protocol) "set_robot_commands",
        dict_get (inputs agent_protocol) "observations",
        dict_get (outputs agent_protocol) "commands" with
  | Some robot_observations, Some set_robot_commands, Some obs_agent, Some cmd_agent =>
      match annotation robot_observations "observations",
            annotation set_robot_commands "commands" with
      | Some obs_sim, Some cmd_sim => Some (obs_sim, cmd_sim, obs_agent, cmd_agent)
      | _, _ => None
      end
  | _, _, _, _ => None
  end.

Definition is_mismatch (e : exn) : bool :=
  match e with
  | PyException (ObservationsMismatch _) | PyException (CommandsMismatch _) => true
  | _ => false
  end.

(** The values recorded for the metric path [k], one per episode of
    [per_episode] that has it. *)
Definition metric_values (per_episode : Dict (Dict float)) (k : string) : list float :=
  flat_map (fun d => match dict_get d k with Some v => [v] | None => [] end)
           (dict_values per_episode).

(** How the outer [try] of [main] hands an exception on: a submission
    failure as it is, anything else wrapped as an evaluator failure. *)
Definition classified (e : exn) : exn :=
  if is_InvalidSubmission e then e else InvalidEvaluator e.

(** The exchange about one playable robot, as the step ordering invariant
    lists it. *)
Definition robot_exchange (sim_ci agent : ComponentInterface) (robot_name : string)
  : list Wire :=
  [ wire sim_ci "get_robot_state" (Some robot_name);
    wire sim_ci "get_robot_performance" (Some robot_name);
    wire sim_ci "get_robot_observations" (Some robot_name);
    wire agent "observations" None;
    wire agent "get_commands" None;
    wire sim_ci "set_robot_commands" (Some robot_name) ].

(** The messages about the robots in one iteration: every playable robot's
    exchange, one robot after the other, then the state queries of the
    others. *)
Definition robot_messages (sim_ci : ComponentInterface)
    (playable_robots2agent : Dict ComponentInterface)
    (playable not_playable : list string) : list Wire :=
  flat_map (fun robot_name =>
              match dict_get playable_robots2agent robot_name with
              | Some agent => robot_exchange sim_ci agent robot_name
              | None => []
              end) playable
  ++ map (fun robot_name => wire sim_ci "get_robot_state" (Some robot_name)) not_playable.

(** What follows the robots in an iteration that runs to its end: the
    global state query, the physics advance, and the three calls that log
    the timing record. *)
Definition after_robots (sim_ci : ComponentInterface) : list Wire :=
  [ wire sim_ci "get_sim_state" None; wire sim_ci "step" None;
    not_a_message; not_a_message; not_a_message ].

(** The topics of the messages about robots. *)
Definition robot_topics : list string :=
  [ "get_robot_state"; "get_robot_performance"; "get_robot_observations";
    "observations"; "get_commands"; "set_robot_commands" ].

Definition about_robots (w : Wire) : Prop :=
  match w with
  | wire _ t _ => In t robot_topics
  | not_a_message => False
  end.

(** [current_sim_time] after [k] physics steps from [t]. *)
Definition time_after (physics_dt : float) (k : nat) (t : float) : float :=
  Nat.iter k (fun t => PrimFloat.add t physics_dt) t.

(** The names of the robots that the scenario flags as playable, in the
    order of its robot mapping, and the names of the others.  Both are read
    off the entries of the mapping, not off the lists that [run_episode]
    computes. *)
Definition playable_entries (scenario : Scenario) : list string :=
  map fst (filter (fun kv => playable (snd kv)) (robots scenario)).

Definition other_entries (scenario : Scenario) : list string :=
  map fst (filter (fun kv => negb (playable (snd kv))) (robots scenario)).

(** The exchanges about the robots [names], one robot after the other, the
    robot at position [i] with the agent at position [i]; a robot beyond the
    number of agents has none. *)
Definition exchanges (sim_ci : ComponentInterface) (names : list string)
    (agents : list ComponentInterface) : list Wire :=
  flat_map (fun na => robot_exchange sim_ci (snd na) (fst na)) (combine names agents).

(** All the messages of an iteration of [run_episode] that runs to its end,
    as the scenario and the list of agents determine them. *)
Definition iteration_messages (sim_ci : ComponentInterface)
    (agents : list ComponentInterface) (scenario : Scenario) : list Wire :=
  exchanges sim_ci (playable_entries scenario) agents
  ++ map (fun robot_name => wire sim_ci "get_robot_state" (Some robot_name))
       (other_entries scenario)
  ++ after_robots sim_ci.

(** The messages of a run of the step loop: whole iterations, then at most
    one that was cut short (by [done], by the time limit or by an exception). *)
Inductive step_loop_messages (iteration : list Wire) : list Wire -> Prop :=
| last_iteration l :
    is_prefix l iteration ->
    step_loop_messages iteration l
| whole_iteration l :
    step_loop_messages iteration l ->
    step_loop_messages iteration (iteration ++ l).

(** [emits m l]: whatever the world answers, the messages of [m] are a
    prefix of [l], and all of [l] when [m] returns. *)
Definition emits {A} (m : M A) (l : list Wire) : Prop :=
  forall h o es, m h = (o, es) ->
    is_prefix (map wire_of es) l /\ (is_Ok o = true -> map wire_of es = l).

(** How a run of the step loop that returned [t_final] came to stop, in terms
    of its events [es], from [current_sim_time = t]. *)
Definition stopped_at_first (dt len t t_final : float) (es : list Event) : Prop :=
  exists k,
    t_final = time_after dt k t
    /\ steps_sent es = map (fun j => time_after dt (S j) t) (seq 0 k)
    /\ (forall j, j < k -> float_ge (time_after dt j t) len = false)
    /\ ((float_ge t_final len = true /\ count reports_done es = 0)
        \/ (float_ge t_final len = false
            /\ exists es' e, es = es' ++ [e] /\ reports_done e = true
                             /\ count reports_done es' = 0)).

(** [no_fuel m]: [m] never runs out of fuel. *)
Definition no_fuel {A} (m : M A) : Prop := forall h, fst (m h) <> OutOfFuel.

(** [quiet p m]: no event of [m] satisfies [p]. *)
Definition quiet (p : Event -> bool) {A} (m : M A) : Prop :=
  forall h o es, m h = (o, es) -> Forall (fun e => p e = false) es.

(** The calls [run_episode] makes: messages to the peers and the timing record. *)
Definition is_peer_call {T} (r : Request T) : bool :=
  match r with
  | write_topic_and_expect_zero _ _ _ | write_topic_and_expect _ _ _ _
  | ci_serialize _ _ | cc_write _ _ | cc_flush _ => true
  | _ => false
  end.

(** [p] holds of no call that [run_episode] makes. *)
Definition blind_to_peers (p : Event -> bool) : Prop :=
  forall T (r : Request T) a, is_peer_call r = true -> p (Ev r a) = false.

(** The calls of the setup of [main], and those of the start of its [try]. *)
Definition is_setup_call {T} (r : Request T) : bool :=
  match r with
  | new_ComponentInterface _ _ | get_node_protocol _ _
  | set_expect_protocol _ _ _ _ => true
  | _ => false
  end.

Definition is_prelude_call {T} (r : Request T) : bool :=
  match r with
  | write_topic_and_expect_zero _ topic _ => String.eqb topic "seed"
  | write_topic_and_expect _ topic _ _ => String.eqb topic "next_scenario"
  | ci_close _ => true
  | _ => false
  end.

(** [p] holds of no call made before the episode loop. *)
Definition blind_before_loop (p : Event -> bool) : Prop :=
  forall T (r : Request T) a,
    is_setup_call r = true \/ is_prelude_call r = true -> p (Ev r a) = false.

(** [opens m n]: when [m] returns, it has opened [n] files for writing. *)
Definition opens {A} (m : M A) (n : nat) : Prop :=
  forall h o es, m h = (o, es) -> is_Ok o = true -> count is_open_wb es = n.


Section Claims.

Context {env : Environment}.

(** Every attempt of [episode_spec], whatever its index and whatever
    happened before, runs to its statistics and is too short. *)
Definition every_attempt_rejected (sfuel : nat) (cfg : MyConfig)
    (agent_ci sim_ci : ComponentInterface) (agents : list ComponentInterface)
    (log_dir attempts : string) (episode_spec : EpisodeSpec) : Prop :=
  forall i h,
  exists length_s stats es,
    attempt_episode sfuel cfg agent_ci sim_ci agents log_dir attempts i episode_spec h
    = (Ok (length_s, stats), es)
    /\ float_ge length_s (min_episode_length_s cfg) = false.

(** The four scores of one metric path, as the aggregation reports them. *)
Definition aggregate_scores (per_episode : Dict (Dict float)) (k : string)
  : list (string * ScoreValue) :=
  let values := metric_values per_episode k in
  [ ((k ++ "_mean")%string, SFloat (np_mean values));
    ((k ++ "_median")%string, SFloat (np_median values));
    ((k ++ "_min")%string, SFloat (np_min values));
    ((k ++ "_max")%string, SFloat (np_max values)) ].

End Claims.

(* ------------------------------------------------------------------ *)
(** ** More readers of a history *)

(** [always P m]: every event of [m] satisfies [P]. *)
Definition always (P : Event -> Prop) {A} (m : M A) : Prop :=
  forall h o es, m h = (o, es) -> Forall P es.

(** What a written message carries. *)
Definition payload_of (e : Event) : option Payload :=
  match e with
  | Ev (write_topic_and_expect_zero _ _ d) _ => Some d
  | Ev (write_topic_and_expect _ _ d _) _ => Some d
  | _ => None
  end.

(** The effective time a message to the simulator is tagged with. *)
Definition effective_time (e : Event) : option float :=
  match payload_of e with
  | Some (PGetRobotState _ t) | Some (PGetRobotObservations _ t)
  | Some (PSetRobotCommands _ _ t) => Some t
  | _ => None
  end.

(** The step index of a timing record that is serialised. *)
Definition timing_step (e : Event) : option nat :=
  match e with
  | Ev (ci_serialize _ record) _ => Some (tt_steps record)
  | _ => None
  end.

(** The scenario that a reply to [next_scenario] carries, when it is not the
    [finished] reply. *)
Definition scenario_received (e : Event) : list Scenario :=
  match e with
  | Ev (write_topic_and_expect _ t _ _) (Returned m) =>
      if String.eqb t "next_scenario" && negb (String.eqb (topic m) "finished")
      then match data m with
           | DScenario s => [s]
           | _ => []
           end
      else []
  | _ => []
  end.

(** The call that raised [e], when an event is one. *)
Definition raised_by (e : exn) (ev : Event) : Prop :=
  match ev with
  | Ev _ (Raised e') => e' = e
  | Ev _ (Returned _) => False
  end.

Definition is_file_close (e : Event) : bool :=
  match e with Ev (file_close _) _ => true | _ => false end.

Definition is_any_rename (e : Event) : bool :=
  match e with Ev (os_rename _ _) _ => true | _ => false end.

(** The topics of the exchange with an agent inside the [try] of
    [run_episode]. *)
Definition is_agent_exchange (e : Event) : bool :=
  topic_is "observations" e || topic_is "get_commands" e.

(** The entries that the two loops over [evaluated] write to [stats], in
    the order they are written. *)
Definition metric_entries (evaluated : Dict RuleEvaluationResult)
  : list (string * float) :=
  flat_map (fun kevr =>
              map (fun mem => (metric_path (fst kevr) (fst mem), total (snd mem)))
                  (metrics (snd kevr)))
           evaluated.

(** The last value written for [k] in a list of entries. *)
Definition last_written {V} (entries : list (string * V)) (k : string) : option V :=
  option_map snd (find (fun kv => String.eqb (fst kv) k) (List.rev entries)).

(** The types the simulator declares: its observations and its commands. *)
Definition sim_declared_types (sim_protocol : NodeProtocol) : option (pytype * pytype) :=
  match dict_get (outputs sim_protocol) "robot_observations",
        dict_get (inputs sim_protocol) "set_robot_commands" with
  | Some robot_observations, Some set_robot_commands =>
      match annotation robot_observations "observations",
            annotation set_robot_commands "commands" with
      | Some obs_sim, Some cmd_sim => Some (obs_sim, cmd_sim)
      | _, _ => None
      end
  | _, _ => None
  end.

(** The keys that the compatibility check looks up. *)
Definition protocol_keys : list string :=
  [ "robot_observations"; "observations"; "set_robot_commands"; "commands" ].

(** What was written to which channel on which topic. *)
Definition sent (e : Event) : option (ComponentInterface * string * Payload) :=
  match e with
  | Ev (write_topic_and_expect_zero ci t d) _ => Some (ci, t, d)
  | Ev (write_topic_and_expect ci t d _) _ => Some (ci, t, d)
  | _ => None
  end.

(** [sends f m l]: whatever the world answers, the events of [m], read
    through [f], are a prefix of [l], and all of [l] when [m] returns. *)
Definition sends {L} (f : Event -> L) {A} (m : M A) (l : list L) : Prop :=
  forall h o es, m h = (o, es) ->
    is_prefix (map f es) l /\ (is_Ok o = true -> map f es = l).

(** The messages of the initialisation of an episode. *)
Definition init_messages (sim_ci : ComponentInterface)
    (agents : list ComponentInterface) (episode_name : string) (sc : Scenario)
  : list (option (ComponentInterface * string * Payload)) :=
  [ Some (sim_ci, "clear", PNone);
    Some (sim_ci, "set_map", PSetMap (environment sc)) ]
  ++ map (fun kv => Some (sim_ci, "spawn_robot",
                          PSpawnRobot (fst kv) (configuration (snd kv))
                                      (playable (snd kv))))
         (robots sc)
  ++ [ Some (sim_ci, "episode_start", PEpisodeStart episode_name) ]
  ++ map (fun agent => Some (agent, "episode_start", PEpisodeStart episode_name)) agents.

(** A timing record, when the event serialises one, carries the step index
    [steps]. *)
Definition timing_record_of_step (steps : nat) (e : Event) : Prop :=
  match timing_step e with
  | Some n => n = steps
  | None => True
  end.

(** The simulation time that a history has reached: the time of the last
    [step] it sent, and [t0] when it sent none. *)
Definition time_reached (t0 : float) (es : list Event) : float :=
  last (steps_sent es) t0.

(** A message that carries an effective time carries [t]. *)
Definition tagged_with (t : float) (e : Event) : Prop :=
  match effective_time e with
  | Some t' => t' = t
  | None => True
  end.

(** Every message of [es] that carries an effective time carries the time
    reached by the events before it, from [t0]. *)
Fixpoint timed (t0 : float) (es : list Event) : Prop :=
  match es with
  | [] => True
  | e :: rest =>
      tagged_with t0 e
      /\ timed (match step_time e with Some t => t | None => t0 end) rest
  end.

(** [at_most p n m]: whatever the world answers and however [m] ends, at
    most [n] of its events satisfy [p]. *)
Definition at_most (p : Event -> bool) (n : nat) {A} (m : M A) : Prop :=
  forall h o es, m h = (o, es) -> count p es <= n.

(** The attempts that the episode loop can still make from a state: one for
    each pending episode and one for each failure that is still allowed. *)
Definition attempts_left (cfg : MyConfig) (s : LoopState) : nat :=
  List.length (st_episodes s) + Z.to_nat (max_failures cfg - st_nfailures s).

(** The step loop reaches the time limit in fewer than [sfuel] iterations. *)
Definition limit_within (sfuel : nat) (cfg : MyConfig) : Prop :=
  exists k, k < sfuel
            /\ float_ge (time_after (physics_dt cfg) k 0%float) (episode_length_s cfg) = true.

(** Some recorded episode has no value for the metric path [k]. *)
Definition lacks (per_episode : Dict (Dict float)) (k : string) : Prop :=
  exists d, In d (dict_values per_episode) /\ dict_get d k = None.

Definition is_video (e : Event) : bool :=
  match e with Ev (make_video1 _ _) _ => true | _ => false end.

(** The videos that were asked for, in order: the log that each is made
    from, and the file it is written to. *)
Definition videos_made (es : list Event) : list (string * string) :=
  flat_map (fun e => match e with
                     | Ev (make_video1 fn out_video) _ => [(fn, out_video)]
                     | _ => []
                     end) es.

(** The lengths of the attempts that the events record, in order.  An
    attempt starts at a [clear]; its length is the time that the last [step]
    sent before the next [clear] carries, and 0.0 when no step was sent.
    [cur] is the length so far of the attempt in progress, if any. *)
Fixpoint lengths_from (cur : option float) (es : list Event) : list float :=
  match es with
  | [] => match cur with Some t => [t] | None => [] end
  | e :: rest =>
      if is_clear e
      then match cur with Some t => [t] | None => [] end
           ++ lengths_from (Some 0%float) rest
      else lengths_from
             (match cur with
              | Some t0 => Some (match step_time e with Some t => t | None => t0 end)
              | None => None
              end) rest
  end.

Definition attempt_lengths (es : list Event) : list float := lengths_from None es.

(** The videos to expect of attempts of the given lengths, numbered from
    [attempt_i], on the pending [episodes]: an attempt is one of the first
    pending episode; when its length reaches [min_episode_length_s] the
    episode gets its video, from the log of this attempt and into the
    directory of this attempt, and the next episode is up; otherwise the
    same episode is attempted again. *)
Fixpoint expected_videos (cfg : MyConfig) (attempts : string) (episodes : list EpisodeSpec)
    (attempt_i : nat) (lengths : list float) : list (string * string) :=
  match lengths, episodes with
  | length_s :: rest, episode_spec :: pending =>
      let dn := attempt_dir attempts (episode_name episode_spec) attempt_i in
      if float_ge length_s (min_episode_length_s cfg)
      then (log_file dn, os_path_join dn "camera.mp4")
           :: expected_videos cfg attempts pending (S attempt_i) rest
      else expected_videos cfg attempts episodes (S attempt_i) rest
  | _, _ => []
  end.

(** An event that neither starts an attempt nor advances the time. *)
Definition calm (e : Event) : Prop := is_clear e = false /\ step_time e = None.

(** The events of an attempt of length [length_s]: calm events, a [clear],
    and events without [clear] whose last [step] carries [length_s]. *)
Definition attempt_events (length_s : float) (es : list Event) : Prop :=
  exists pre c rest,
    es = pre ++ c :: rest
    /\ Forall calm pre /\ is_clear c = true
    /\ Forall (fun e => is_clear e = false) rest
    /\ time_reached 0%float rest = length_s.

(** The events of [m], when it returns [a], are those of an attempt of
    length [len a]. *)
Definition attempt_of {A} (len : A -> float) (m : M A) : Prop :=
  forall h a es, m h = (Ok a, es) -> attempt_events (len a) es.

(** The names of the episodes of the scenarios that the events record as
    received from the scenario maker, [episodes_per_scenario] for each. *)
Definition episode_names_received (episodes_per_scenario : Z) (es : list Event)
  : list string :=
  map episode_name
      (flat_map (episodes_of_scenario episodes_per_scenario)
                (flat_map scenario_received es)).

(** The paths that [main] makes for the episodes called [names]: the final
    directory of an episode, the directory of an attempt of it, and the log
    file of an attempt under its final and its temporary name. *)
Definition own_path (log_dir attempts : string) (names : list string) (p : string) : Prop :=
  exists name i,
    In name names
    /\ (p = final_dir log_dir name
        \/ p = attempt_dir attempts name i
        \/ p = log_file (attempt_dir attempts name i)
        \/ p = tmp_log_file (attempt_dir attempts name i)).

(** [p] begins with [dir]. *)
Definition is_under (dir p : string) : Prop := exists rest, p = (dir ++ rest)%string.

(** A call that changes the file system. *)
Definition is_fs_change (e : Event) : bool :=
  match e with
  | Ev (shutil_rmtree _) _ | Ev (os_makedirs _) _ | Ev (open_wb _) _
  | Ev (os_rename _ _) _ => true
  | _ => false
  end.

(** A call that changes the file system concerns the paths that [main]
    makes for the episodes called [names] only. *)
Definition confined (log_dir attempts : string) (names : list string) (e : Event) : Prop :=
  match e with
  | Ev (shutil_rmtree p) _ | Ev (os_makedirs p) _ | Ev (open_wb p) _ =>
      own_path log_dir attempts names p
  | Ev (os_rename src dst) _ =>
      own_path log_dir attempts names src /\ own_path log_dir attempts names dst
  | _ => True
  end.

(** [raises_by own m]: an exception that [m] raises is one of its own
    ([own]), or the exception of the call that [m] made last. *)
Definition raises_by (own : exn -> Prop) {A} (m : M A) : Prop :=
  forall h e es, m h = (Raise e, es) ->
    own e \/ exists es' ev, es = es' ++ [ev] /\ raised_by e ev.

(** The exceptions that the code of [main] raises outside its [try]: a
    protocol that is missing or does not declare a type, a mismatch of types,
    a metric that an episode lacks. *)
Definition raised_outside_try (e : exn) : Prop :=
  match e with
  | AttributeError _ | KeyError _
  | PyException (ObservationsMismatch _) | PyException (CommandsMismatch _) => True
  | _ => False
  end.

(** The calls that [main] makes outside its [try], its cleanup block
    included. *)
Definition is_outside_try (e : Event) : bool :=
  match e with
  | Ev (new_ComponentInterface _ _) _ | Ev (get_node_protocol _ _) _
  | Ev (set_expect_protocol _ _ _ _) _ | Ev (ci_close _) _ | Ev (set_score _ _) _ => true
  | _ => false
  end.

(** [fails_with F m]: when [m] raises [e] after the events [es], [F e es]. *)
Definition fails_with (F : exn -> list Event -> Prop) {A} (m : M A) : Prop :=
  forall h e es, m h = (Raise e, es) -> F e es.

(** How [run_episode] fails: with the exception of its last call, as it is,
    when that call is not part of the exchange with an agent; with a
    submission failure caused by the exception of its last call, when that
    call is part of the exchange with an agent, or caused by a reply of the
    simulator that carries no observations; with the [KeyError] of a
    playable robot that has no agent; or with the [AttributeError] of a
    reply to [get_sim_state] that is no simulation state. *)
Definition episode_failure (e : exn) (es : list Event) : Prop :=
  (exists es' ev, es = es' ++ [ev] /\ raised_by e ev /\ is_agent_exchange ev = false)
  \/ (exists cause,
        e = InvalidSubmission cause
        /\ ((exists es' ev, es = es' ++ [ev] /\ raised_by cause ev
                            /\ is_agent_exchange ev = true)
            \/ cause = AttributeError "observations"))
  \/ (exists robot_name, e = KeyError robot_name)
  \/ e = AttributeError "done".

(* ------------------------------------------------------------------ *)
(** ** More runs in scripted worlds *)

(** The simulator reports [done] at once in the first attempt, and never
    afterwards. *)
Definition retry_script : Script :=
  {| sc_scenarios := [loop_scenario];
     sc_done_after := fun i => match i with O => Some 0 | _ => None end;
     sc_agent_fails := false;
     sc_sim_protocol := Some (sim_protocol_of JPGImage PWMCommands);
     sc_agent_protocol := Some (agent_protocol_of JPGImage PWMCommands);
     sc_evaluated := fun _ => deviation 0.2%float |}.

(** A scenario with two playable robots. *)
Definition twin_scenario : Scenario :=
  {| scenario_name := "twin";
     environment := "map";
     robots := [("ego", duckie true); ("ego2", duckie true)] |}.

Definition twin_0 : EpisodeSpec := {| episode_name := "twin-0"; scenario := twin_scenario |}.

Definition sm0 : ComponentInterface := the_sm_ci cfg0.

(** One iteration of the step loop with the two playable robots of [twin],
    both driven by the one agent. *)
Definition twin_iteration_in (sc : Script) : outcome (option float) * list Event :=
  @step_iteration (scripted_env sc) sim0 [("ego", agent0); ("ego2", agent0)]
    ["ego"; "ego2"] [] (physics_dt cfg0) 0 0%float [].

(** A scenario whose name is an absolute path, and a world whose scenario
    maker sends it. *)
Definition stray_scenario : Scenario :=
  {| scenario_name := "/srv/maps/loop";
     environment := "map";
     robots := [("ego", duckie true); ("npc", duckie false)] |}.

Definition stray_script : Script :=
  {| sc_scenarios := [stray_scenario];
     sc_done_after := fun _ => None;
     sc_agent_fails := false;
     sc_sim_protocol := Some (sim_protocol_of JPGImage PWMCommands);
     sc_agent_protocol := Some (agent_protocol_of JPGImage PWMCommands);
     sc_evaluated := fun _ => deviation 0.2%float |}.

(** The directories that were removed or created, in order. *)
Definition directories_changed (es : list Event) : list string :=
  flat_map (fun e => match e with
                     | Ev (shutil_rmtree p) _ | Ev (os_makedirs p) _ => [p]
                     | _ => []
                     end) es.

(** The renamings that were made, in order. *)
Definition renames_made (es : list Event) : list (string * string) :=
  flat_map (fun e => match e with
                     | Ev (os_rename src dst) _ => [(src, dst)]
                     | _ => []
                     end) es.

(** [get_episodes] with two episodes per scenario. *)
Definition get_episodes_in (sc : Script) : outcome (list EpisodeSpec) * list Event :=
  @get_episodes (scripted_env sc) 10 sm0 2 42 [].

(** The exchange about the robot [ego] at time zero. *)
Definition exchange_in (sc : Script) : outcome TimeTracker * list Event :=
  @playable_step (scripted_env sc) sim0 [("ego", agent0)] 0%float "ego"
    {| tt_steps := 0; phases := [] |} [].

(** The episode loop from [state0]. *)
Definition loop_in (sc : Script) : outcome LoopState * list Event :=
  @episodes_loop (scripted_env sc) 10 10 cfg0 agent0 sim0 [agent0]
    "/tmp/episodes" "/tmp/attempts" state0 [].

(** An attempt of [twin-0] with one agent. *)
Definition twin_attempt_in (sc : Script) : outcome (float * Dict float) * list Event :=
  @attempt_episode (scripted_env sc) 10 cfg0 agent0 sim0 [agent0]
    "/tmp/episodes" "/tmp/attempts" 0 twin_0 [].

(** The check of an agent without reflection. *)
Definition blind_check_in (sc : Script) : outcome unit * list Event :=
  @check_compatibility_between_agent_and_sim (scripted_env sc) agent0 None
    (Some (sim_protocol_of JPGImage PWMCommands)) [].

(** The report of scores when [loop-0] has no metric and [loop-1], the last
    episode, has one. *)
Definition report_in (sc : Script) : outcome unit * list Event :=
  @report_scores (scripted_env sc)
    [("loop-0", []); ("loop-1", [("lane_following/deviation", 0.4%float)])]
    [("lane_following/deviation", 0.4%float)] [].

(* ------------------------------------------------------------------ *)
(** ** The script around the driver: [env_as_yaml], the start of [main],
    [wrap] and the [__main__] block *)

(** The calls that only the script makes, and those of the driver. *)
Inductive HostRequest : Type -> Type :=
| os_environ_copy : HostRequest (Dict string)
| yaml_load (v : string) : HostRequest opaque
| object_from_ipce (config_ : opaque) : HostRequest MyConfig
| get_tmp_dir : HostRequest string
| set_score_int (name : string) (value : Z) : HostRequest unit
| cie_info (msg : string) : HostRequest unit
| cie_error : HostRequest unit
| set_evaluation_dir (name path : string) : HostRequest unit
| time_sleep (seconds : Z) : HostRequest unit
| driver_call {T : Type} (r : Request T) : HostRequest T.

Inductive HostEvent :=
| HEv {T : Type} (r : HostRequest T) (a : answer T).

Definition HostWorld := forall T : Type, list HostEvent -> HostRequest T -> answer T.

(** What the script runs in: its outside world, and the functions of
    [zuper_typing] and [numpy] that the driver uses. *)
Class Host := {
  host_world : HostWorld;
  host_can_be_used_as2 : pytype -> pytype -> CanBeUsed;
  host_np_mean : list float -> float;
  host_np_median : list float -> float;
  host_np_min : list float -> float;
  host_np_max : list float -> float
}.
Arguments host_world {_} {T} h r.

(** The exceptions of the script: those of the driver and of the calls, and
    the two that [env_as_yaml] makes. *)
Inductive host_exn :=
| Inner (e : exn)
| CouldNotFindVariable (name : string) (environment : Dict string)
| CouldNotLoadYAML (cause : host_exn) (v : string).

Inductive host_outcome (A : Type) :=
| HOk (a : A)
| HRaise (e : host_exn)
| HOutOfFuel.
Arguments HRaise {A} e.
Arguments HOutOfFuel {A}.

Definition H (A : Type) := list HostEvent -> host_outcome A * list HostEvent.

Definition hret {A} (a : A) : H A := fun _ => (HOk a, []).
Definition hraise {A} (e : host_exn) : H A := fun _ => (HRaise e, []).

Definition hbind {A B} (m : H A) (f : A -> H B) : H B :=
  fun h =>
    let (o, es) := m h in
    match o with
    | HOk a => let (o', es') := f a (h ++ es) in (o', es ++ es')
    | HRaise e => (HRaise e, es)
    | HOutOfFuel => (HOutOfFuel, es)
    end.

(** [try: m  except <class> as e: handler e], for the exceptions that
    [caught] tells to be of the class. *)
Definition htry_except {A} (caught : host_exn -> bool) (m : H A)
    (handler : host_exn -> H A) : H A :=
  fun h =>
    let (o, es) := m h in
    match o with
    | HRaise e =>
        if caught e
        then let (o', es') := handler e (h ++ es) in (o', es ++ es')
        else (o, es)
    | _ => (o, es)
    end.

(** [try: m  finally: fin]. *)
Definition htry_finally {A} (m : H A) (fin : H unit) : H A :=
  fun h =>
    let (o, es) := m h in
    match o with
    | HOutOfFuel => (HOutOfFuel, es)
    | _ =>
        let (o', es') := fin (h ++ es) in
        match o' with
        | HOk _ => (o, es ++ es')
        | HRaise e => (HRaise e, es ++ es')
        | HOutOfFuel => (HOutOfFuel, es ++ es')
        end
    end.

Declare Scope host_scope.
Delimit Scope host_scope with host.
Notation "x <- m ;; k" := (hbind m (fun x => k))
  (at level 61, m at next level, right associativity) : host_scope.
Notation "m ;; k" := (hbind m (fun _ => k))
  (at level 61, right associativity) : host_scope.

(** An event of the driver, as the script sees it. *)
Definition in_host (e : Event) : HostEvent :=
  match e with Ev r a => HEv (driver_call r) a end.

(** The outcome of the driver, as the script sees it. *)
Definition in_host_outcome {A} (o : outcome A) : host_outcome A :=
  match o with
  | Ok a => HOk a
  | Raise e => HRaise (Inner e)
  | OutOfFuel => HOutOfFuel
  end.

(** [except Exception]: every exception of the model is one. *)
Definition is_Exception (e : host_exn) : bool := true.

(** [except RemoteNodeAborted]: an exception of [zuper_nodes] that only a
    collaborator raises, written [External "RemoteNodeAborted"]. *)
Definition is_RemoteNodeAborted (e : host_exn) : bool :=
  match e with
  | Inner (External what) => String.eqb what "RemoteNodeAborted"
  | _ => false
  end.

Section Script.

Context {host : Host}.

Definition hcall {T} (r : HostRequest T) : H T :=
  fun h =>
    match host_world h r with
    | Returned v => (HOk v, [HEv r (Returned v)])
    | Raised e => (HRaise (Inner e), [HEv r (Raised e)])
    end.

(** What the driver runs in when the script has got to the history [hh]. *)
Definition driver_env (hh : list HostEvent) : Environment :=
  {| world := fun T h r => host_world (hh ++ map in_host h) (driver_call r);
     can_be_used_as2 := host_can_be_used_as2;
     np_mean := host_np_mean;
     np_median := host_np_median;
     np_min := host_np_min;
     np_max := host_np_max |}.

(** A computation of the driver, run by the script. *)
Definition run_driver {A} (m : forall env : Environment, M A) : H A :=
  fun hh =>
    let (o, es) := m (driver_env hh) [] in
    (in_host_outcome o, map in_host es).

(** *** [env_as_yaml] *)

Definition env_as_yaml (name : string) : H opaque :=
  (environment <- hcall os_environ_copy ;;
   match dict_get environment name with
   | None => hraise (CouldNotFindVariable name environment)
   | Some v =>
       htry_except is_Exception
         (hcall (yaml_load v))
         (fun e => hraise (CouldNotLoadYAML e v))
   end)%host.

(** *** [main], from its first line *)

Definition main_from_environment (fuel sfuel : nat) (log_dir attempts : string) : H unit :=
  (config_ <- env_as_yaml "experiment_manager_parameters" ;;
   config <- hcall (object_from_ipce config_) ;;
   run_driver (fun env => @main env fuel sfuel config log_dir attempts))%host.

(** *** [wrap] *)

(** Everything of [wrap] before its [try]: returns [logdir] and [attempts]. *)
Definition wrap_prepare : H (string * string) :=
  (d <- hcall get_tmp_dir ;;
   let logdir := os_path_join d "episodes" in
   let attempts := os_path_join d "attempts" in
   e <- hcall (driver_call (os_path_exists logdir)) ;;
   (if negb e then hcall (driver_call (os_makedirs logdir)) else hret tt) ;;
   e <- hcall (driver_call (os_path_exists attempts)) ;;
   (if negb e then hcall (driver_call (os_makedirs attempts)) else hret tt) ;;
   hret (logdir, attempts))%host.

(** The [try ... finally] of [wrap]. *)
Definition wrap_guarded (fuel sfuel : nat) (logdir attempts : string) : H unit :=
  htry_finally
    (main_from_environment fuel sfuel logdir attempts ;;
     hcall (set_score_int "simulation-passed" 1))%host
    (hcall (cie_info "saving files") ;;
     hcall (set_evaluation_dir "episodes" logdir))%host.

Definition wrap (fuel sfuel : nat) : H unit :=
  (dirs <- wrap_prepare ;;
   wrap_guarded fuel sfuel (fst dirs) (snd dirs) ;;
   hcall (cie_info "score() terminated gracefully."))%host.

(** *** The [__main__] block, inside [dc.scoring_context()] *)

Definition script_main (fuel sfuel : nat) : H unit :=
  htry_except is_RemoteNodeAborted
    (wrap fuel sfuel)
    (fun e =>
       (hcall cie_error ;;
        hcall (time_sleep 10) ;;
        hraise e)%host).

End Script.

(** *** Reading the history of the script *)

Definition hcount (p : HostEvent -> bool) (es : list HostEvent) : nat :=
  List.length (filter p es).

Definition is_wait (e : HostEvent) : bool :=
  match e with HEv (time_sleep _) _ => true | _ => false end.

Definition is_passed (e : HostEvent) : bool :=
  match e with HEv (set_score_int _ _) _ => true | _ => false end.

(** [main] is entered: it reads the environment first. *)
Definition is_main_entered (e : HostEvent) : bool :=
  match e with HEv os_environ_copy _ => true | _ => false end.

(** The call that raised [e], when an event of the script is one. *)
Definition hraised_by (e : exn) (ev : HostEvent) : Prop :=
  match ev with
  | HEv _ (Raised e') => e' = e
  | HEv _ (Returned _) => False
  end.

(** A call that is made outside the [try] of [main]: a call of the script
    itself, or one of those that the driver makes outside its [try]; the
    file-system tests of [wrap] are told from those of the episode loop by
    their place, before [main] is entered. *)
Definition outside_the_try (before : list HostEvent) (ev : HostEvent) : Prop :=
  match ev with
  | HEv (driver_call r) a =>
      is_outside_try (Ev r a) = true \/ hcount is_main_entered before = 0
  | _ => True
  end.


(** *** Scripted worlds for the script *)

(** The calls of the driver among the events of the script. *)
Definition driver_events (hh : list HostEvent) : list Event :=
  flat_map (fun e => match e with
                     | HEv (driver_call r) a => [Ev r a]
                     | _ => []
                     end) hh.

Record HostScript := {
  hs_script : Script;                  (* what the peers and the files do *)
  hs_environment : Dict string;        (* [os.environ] *)
  hs_config : MyConfig;                (* what [object_from_ipce] makes *)
  hs_aborts_at_open : bool             (* opening a channel meets an aborted node *)
}.

Definition is_opening {T} (r : Request T) : bool :=
  match r with new_ComponentInterface _ _ => true | _ => false end.

Definition scripted_host_world (sc : HostScript) : HostWorld :=
  fun T hh r =>
    match r in HostRequest T return answer T with
    | os_environ_copy => Returned (hs_environment sc)
    | yaml_load v => Returned v
    | object_from_ipce _ => Returned (hs_config sc)
    | get_tmp_dir => Returned "/tmp"
    | set_score_int _ _ => Returned tt
    | cie_info _ => Returned tt
    | cie_error => Returned tt
    | set_evaluation_dir _ _ => Returned tt
    | time_sleep _ => Returned tt
    | driver_call r' =>
        if hs_aborts_at_open sc && is_opening r'
        then Raised (External "RemoteNodeAborted")
        else scripted (hs_script sc) (driver_events hh) r'
    end.

Definition scripted_host (sc : HostScript) : Host :=
  {| host_world := scripted_host_world sc;
     host_can_be_used_as2 := same_name;
     host_np_mean := mean_of;
     host_np_median := median_of;
     host_np_min := min_of;
     host_np_max := max_of |}.

Definition the_environment : Dict string :=
  [("HOME", "/root"); ("experiment_manager_parameters", "episode_length_s: 1.0")].

(** All goes well. *)
Definition happy_host : HostScript :=
  {| hs_script := happy_script;
     hs_environment := the_environment;
     hs_config := cfg0;
     hs_aborts_at_open := false |}.


(** The agent does not answer [get_commands]. *)
Definition silent_agent_host : HostScript :=
  {| hs_script := silent_agent_script;
     hs_environment := the_environment;
     hs_config := cfg0;
     hs_aborts_at_open := false |}.

(** A node has aborted before its channel is opened. *)
Definition aborted_host : HostScript :=
  {| hs_script := happy_script;
     hs_environment := the_environment;
     hs_config := cfg0;
     hs_aborts_at_open := true |}.


Definition wrap_guarded_in (sc : HostScript) : host_outcome unit * list HostEvent :=
  @wrap_guarded (scripted_host sc) 10 10 "/tmp/episodes" "/tmp/attempts" [].

Definition script_main_in (sc : HostScript) : host_outcome unit * list HostEvent :=
  @script_main (scripted_host sc) 10 10 [].

Definition is_handed_over (e : HostEvent) : bool :=
  match e with HEv (set_evaluation_dir _ _) (Returned _) => true | _ => false end.

(** [counts p n m]: when [m] returns, [n] of its events satisfy [p]. *)
Definition counts (p : Event -> bool) (n : nat) {A} (m : M A) : Prop :=
  forall h o es, m h = (o, es) -> is_Ok o = true -> count p es = n.

(** The phases that the exchange about a playable robot adds to the timing
    record, and the phase of a robot that is not playable. *)
Definition exchange_phases (robot_name : string) : list string :=
  [ ("sim_compute_robot_state-" ++ robot_name)%string;
    ("sim_compute_performance-" ++ robot_name)%string;
    ("sim_render-" ++ robot_name)%string;
    ("agent_compute-" ++ robot_name)%string;
    "set_robot_commands" ].

Definition state_phase (robot_name : string) : string :=
  ("sim_compute_robot_state-" ++ robot_name)%string.

(** The phases that a whole iteration measures, in the order it measures
    them. *)
Definition iteration_phases (playable not_playable : list string) : list string :=
  flat_map exchange_phases playable
  ++ map state_phase not_playable
  ++ [ "sim_compute_sim_state"; "sim_physics" ].

(** The names of [names] that are not in [seen], each once, in the order of
    their first occurrence. *)
Fixpoint first_occurrences (seen names : list string) : list string :=
  match names with
  | [] => []
  | n :: rest =>
      if existsb (String.eqb n) seen then first_occurrences seen rest
      else n :: first_occurrences (seen ++ [n]) rest
  end.

(* ------------------------------------------------------------------ *)
(** ** The monad *)

Unset Implicit Arguments.

Section Properties.

Context {env : Environment}.

Lemma bind_Ok A B (m : M A) (f : A -> M B) h b es :
  bind m f h = (Ok b, es) ->
  exists a es1 es2,
    m h = (Ok a, es1) /\ f a (h ++ es1) = (Ok b, es2) /\ es = es1 ++ es2.
Proof.
  unfold bind. destruct (m h) as [[a | e | ] es1]; try discriminate.
  destruct (f a (h ++ es1)) as [o' es2] eqn:Ef. intros [= -> <-].
  exists a, es1, es2. auto.
Qed.

Lemma call_Ok T (r : Request T) h v es :
  call r h = (Ok v, es) -> world h r = Returned v /\ es = [Ev r (Returned v)].
Proof.
  unfold call. destruct (world h r); intros [= ]; subst; auto.
Qed.

Lemma ret_Ok A (a b : A) h es : ret a h = (Ok b, es) -> b = a /\ es = [].
Proof. intros [= -> <-]; auto. Qed.

Lemma prefix_nil X (l : list X) : is_prefix [] l.
Proof. exists l; reflexivity. Qed.

Lemma prefix_refl X (l : list X) : is_prefix l l.
Proof. exists []; now rewrite app_nil_r. Qed.

Lemma prefix_app_l X (l1 l2 l : list X) : is_prefix l l1 -> is_prefix l (l1 ++ l2).
Proof. intros [r ->]. exists (r ++ l2). now rewrite app_assoc. Qed.

Lemma prefix_app X (l1 l2 l : list X) : is_prefix l l2 -> is_prefix (l1 ++ l) (l1 ++ l2).
Proof. intros [r ->]. exists r. now rewrite app_assoc. Qed.

Lemma flat_map_singleton X Y (f : X -> Y) xs :
  flat_map (fun x => [f x]) xs = map f xs.
Proof. induction xs as [| x xs IH]; simpl; [ | rewrite IH]; reflexivity. Qed.

(** *** Rules for [emits] *)

Lemma emits_ret A (a : A) : emits (ret a) [].
Proof. intros h o es [= <- <-]. split; [apply prefix_nil | reflexivity]. Qed.

Lemma emits_raise A (e : exn) l : emits (@raise A e) l.
Proof. intros h o es [= <- <-]. split; [apply prefix_nil | discriminate]. Qed.

Lemma emits_call T (r : Request T) : emits (call r) [wire_of_request r].
Proof.
  intros h o es. unfold call. destruct (world h r); intros [= <- <-]; simpl;
    (split; [apply prefix_refl | reflexivity]).
Qed.

Lemma emits_bind A B (m : M A) (f : A -> M B) l1 l2 :
  emits m l1 -> (forall a, emits (f a) l2) -> emits (bind m f) (l1 ++ l2).
Proof.
  intros Hm Hf h o es. unfold bind.
  destruct (m h) as [[a | e | ] es1] eqn:Em; destruct (Hm _ _ _ Em) as [P1 Q1].
  - destruct (f a (h ++ es1)) as [o' es2] eqn:Ef. intros [= <- <-].
    destruct (Hf a _ _ _ Ef) as [P2 Q2]. rewrite map_app, (Q1 eq_refl). split.
    + now apply prefix_app.
    + intros Hok. now rewrite (Q2 Hok).
  - intros [= <- <-]. split; [now apply prefix_app_l | discriminate].
  - intros [= <- <-]. split; [now apply prefix_app_l | discriminate].
Qed.

Lemma emits_bind_ret A B (a : A) (f : A -> M B) l :
  emits (f a) l -> emits (bind (ret a) f) l.
Proof.
  intros Hf h o es. unfold bind, ret. rewrite app_nil_r.
  destruct (f a h) as [o' es'] eqn:Ef. intros [= <- <-]. exact (Hf _ _ _ Ef).
Qed.

Lemma emits_bind_raise A B (e : exn) (f : A -> M B) l :
  emits (bind (raise e) f) l.
Proof. intros h o es [= <- <-]. split; [apply prefix_nil | discriminate]. Qed.

Lemma emits_reraise A (m : M A) (wrap : exn -> exn) l :
  emits m l -> emits (try_except m (fun e => raise (wrap e))) l.
Proof.
  intros Hm h o es. unfold try_except, raise.
  destruct (m h) as [[a | e | ] es1] eqn:Em; destruct (Hm _ _ _ Em) as [P1 Q1];
    intros [= <- <-]; rewrite ?app_nil_r; (split; [assumption | ]);
    solve [assumption | discriminate].
Qed.

Lemma emits_for_each X S (body : X -> S -> M S) (wires : X -> list Wire) xs :
  (forall x s, emits (body x s) (wires x)) ->
  forall s, emits (for_each xs body s) (flat_map wires xs).
Proof.
  intros Hbody. induction xs as [| x xs IH]; intros s; simpl.
  - apply emits_ret.
  - apply emits_bind; [apply Hbody | intros s'; apply IH].
Qed.

(** *** The robots, in the order of the scenario *)

Lemma dict_get_In V (d : Dict V) k v :
  NoDup (dict_keys d) -> In (k, v) d -> dict_get d k = Some v.
Proof.
  unfold dict_keys. induction d as [| [k' v'] d IH]; simpl; [intros _ [] | ].
  intros Hnd [[= -> ->] | Hin].
  - now rewrite String.eqb_refl.
  - inversion Hnd as [| ? ? Hk Hnd']; subst.
    destruct (String.eqb k' k) eqn:E; [ | now apply IH].
    apply String.eqb_eq in E. subst. exfalso. apply Hk.
    change k with (fst (k, v)). now apply in_map.
Qed.

Lemma filter_by_entry V (f : V -> bool) (d : Dict V) :
  NoDup (dict_keys d) ->
  filter (fun n => match dict_get d n with Some c => f c | None => false end)
         (dict_keys d)
  = map fst (filter (fun kv => f (snd kv)) d).
Proof.
  intros Hnd.
  assert (G : forall l, incl l d ->
                filter (fun n => match dict_get d n with Some c => f c | None => false end)
                       (map fst l)
                = map fst (filter (fun kv => f (snd kv)) l)).
  { induction l as [| [k v] l IH]; intros Hl; simpl; [reflexivity | ].
    rewrite (dict_get_In _ d k v Hnd) by (apply Hl; now left).
    rewrite IH by (intros x Hx; apply Hl; now right).
    destruct (f v); reflexivity. }
  apply G, incl_refl.
Qed.

(** The playable robots are the names of the playable entries of the
    scenario's robot mapping, in its order; the others likewise. *)
Lemma playable_robots_in_scenario_order sc :
  NoDup (dict_keys (robots sc)) ->
  playable_robots sc = map fst (filter (fun kv => playable (snd kv)) (robots sc))
  /\ not_playable_robots sc
     = map fst (filter (fun kv => negb (playable (snd kv))) (robots sc)).
Proof.
  intros Hnd. unfold playable_robots, not_playable_robots.
  split; [apply (filter_by_entry _ playable) | apply (filter_by_entry _ (fun c => negb (playable c)))];
    exact Hnd.
Qed.

(** *** The messages of one iteration *)

Lemma playable_step_emits sim_ci p2a t robot_name tt0 :
  emits (playable_step sim_ci p2a t robot_name tt0)
        (match dict_get p2a robot_name with
         | Some agent => robot_exchange sim_ci agent robot_name
         | None => []
         end).
Proof.
  unfold playable_step, dict_item.
  destruct (dict_get p2a robot_name) as [agent | ].
  - apply emits_bind_ret.
    apply emits_bind with (l1 := [_]) (l2 := [_; _; _; _; _]); [apply emits_call | intros _].
    apply emits_bind with (l1 := [_]) (l2 := [_; _; _; _]); [apply emits_call | intros _].
    apply emits_bind with (l1 := [_]) (l2 := [_; _; _]); [apply emits_call | intros recv].
    apply emits_bind with (l1 := [_; _]) (l2 := [_]).
    + apply emits_reraise.
      destruct (data recv); simpl; try apply emits_bind_raise.
      apply emits_bind_ret.
      apply emits_bind with (l1 := [_]) (l2 := [_]); [apply emits_call | intros _].
      apply emits_call.
    + intros r. apply emits_bind with (l1 := [_]) (l2 := []); [apply emits_call | intros _].
      apply emits_ret.
  - apply emits_bind_raise.
Qed.

Lemma not_playable_step_emits sim_ci t robot_name tt0 :
  emits (not_playable_step sim_ci t robot_name tt0)
        [wire sim_ci "get_robot_state" (Some robot_name)].
Proof.
  unfold not_playable_step.
  apply emits_bind with (l1 := [_]) (l2 := []); [apply emits_call | intros _; apply emits_ret].
Qed.

Lemma robots_phase_emits sim_ci p2a playable not_playable t tt0 :
  emits (robots_phase sim_ci p2a playable not_playable t tt0)
        (robot_messages sim_ci p2a playable not_playable).
Proof.
  unfold robots_phase, robot_messages. apply emits_bind.
  - apply emits_for_each. intros; apply playable_step_emits.
  - intros tt1. rewrite <- flat_map_singleton.
    apply emits_for_each. intros; apply not_playable_step_emits.
Qed.

Ltac destruct_world :=
  repeat match goal with
         | |- context [world ?h ?r] => destruct (world h r)
         end.

(** The messages of [step_iteration], by the way it ends. *)
Lemma step_iteration_messages sim_ci p2a playable not_playable dt steps t h o es :
  step_iteration sim_ci p2a playable not_playable dt steps t h = (o, es) ->
  let robots_part := robot_messages sim_ci p2a playable not_playable in
  is_prefix (map wire_of es) (robots_part ++ after_robots sim_ci) /\
  match o with
  | Ok (Some _) => map wire_of es = robots_part ++ after_robots sim_ci
  | Ok None => map wire_of es = robots_part ++ [wire sim_ci "get_sim_state" None]
  | _ => True
  end.
Proof.
  intros H robots_part. unfold step_iteration, bind in H.
  destruct (robots_phase _ _ _ _ _ _ h) as [[tt1 | e | ] es1] eqn:E1;
    destruct (robots_phase_emits _ _ _ _ _ _ _ _ _ E1) as [P1 Q1]; fold robots_part in P1, Q1.
  2, 3: injection H as <- <-; split; [now apply prefix_app_l | exact I].
  specialize (Q1 eq_refl).
  unfold log_timing_info, call, attr_done, bind, ret, raise in H.
  revert H. destruct_world.
  2: { intros [= <- <-]. rewrite map_app, Q1. simpl. split; [ | exact I].
       apply prefix_app. eexists; reflexivity. }
  destruct v as [tp [ | ? | ? | [ | ] ? ? | ? ]]; simpl.
  1, 2, 3, 6: intros [= <- <-]; rewrite map_app, Q1; simpl; (split; [ | exact I]);
    apply prefix_app; eexists; reflexivity.
  - intros [= <- <-]. rewrite map_app, Q1. simpl. split; [ | reflexivity].
    apply prefix_app. eexists; reflexivity.
  - destruct_world; simpl; destruct_world; simpl; destruct_world; simpl; destruct_world; simpl;
      intros [= <- <-]; rewrite map_app, Q1; simpl;
      (split; [apply prefix_app; eexists; reflexivity | try exact I; try reflexivity]).
Qed.

Lemma step_loop_wires fuel sim_ci p2a playable not_playable dt len steps :
  forall t h o es,
    step_loop fuel sim_ci p2a playable not_playable dt len steps t h = (o, es) ->
    step_loop_messages
      (robot_messages sim_ci p2a playable not_playable ++ after_robots sim_ci)
      (map wire_of es).
Proof.
  induction fuel as [| fuel IH]; intros t h o es; simpl.
  - intros [= <- <-]. apply last_iteration, prefix_nil.
  - destruct (float_ge t len).
    + intros [= <- <-]. apply last_iteration, prefix_nil.
    + unfold bind.
      destruct (step_iteration _ _ _ _ _ _ _ h) as [o1 es1] eqn:E1.
      destruct (step_iteration_messages _ _ _ _ _ _ _ _ _ _ E1) as [P1 Q1].
      destruct o1 as [[t' | ] | e | ].
      * destruct (step_loop _ _ _ _ _ _ _ _ t' (h ++ es1)) as [o2 es2] eqn:E2.
        intros [= <- <-]. rewrite map_app, Q1.
        apply whole_iteration. exact (IH _ _ _ _ E2).
      * intros [= <- <-]. rewrite app_nil_r. now apply last_iteration.
      * intros [= <- <-]. now apply last_iteration.
      * intros [= <- <-]. now apply last_iteration.
Qed.

(** *** The agents of the robots, by position *)

Lemma dict_set_fresh V (d : Dict V) k v :
  ~ In k (dict_keys d) -> dict_set d k v = d ++ [(k, v)].
Proof.
  unfold dict_keys. induction d as [| [k' v'] d IH]; simpl; [reflexivity | ].
  intros Hk. destruct (String.eqb k' k) eqn:E.
  - apply String.eqb_eq in E. tauto.
  - rewrite IH by tauto. reflexivity.
Qed.

Lemma dict_of_pairs_NoDup V (pairs : list (string * V)) :
  NoDup (map fst pairs) -> dict_of_pairs pairs = pairs.
Proof.
  unfold dict_of_pairs.
  assert (G : forall acc, NoDup (map fst (acc ++ pairs)) ->
                          fold_left (fun d kv => dict_set d (fst kv) (snd kv)) pairs acc
                          = acc ++ pairs).
  { induction pairs as [| [k v] pairs IH]; intros acc Hnd; simpl.
    - now rewrite app_nil_r.
    - rewrite dict_set_fresh.
      + rewrite IH; rewrite <- app_assoc; [reflexivity | exact Hnd].
      + rewrite map_app in Hnd. simpl in Hnd.
        apply NoDup_remove_2 in Hnd. intros Hin. apply Hnd.
        apply in_or_app. now left. }
  intros Hnd. apply (G []). exact Hnd.
Qed.

Lemma combine_fst_NoDup X Y (xs : list X) (ys : list Y) :
  NoDup xs -> NoDup (map fst (combine xs ys)).
Proof.
  intros Hnd. revert ys. induction Hnd as [| x xs Hx Hnd IH]; intros [| y ys]; simpl;
    try constructor; [ | apply IH].
  intros Hin. apply in_map_iff in Hin as ([x' y'] & <- & Hin).
  apply in_combine_l in Hin. exact (Hx Hin).
Qed.

Lemma dict_get_combine_nth (names : list string) (agents : list ComponentInterface) :
  NoDup names ->
  forall i robot_name,
    nth_error names i = Some robot_name ->
    dict_get (combine names agents) robot_name = nth_error agents i.
Proof.
  intros Hnd. revert agents. induction Hnd as [| x xs Hx Hnd IH]; intros agents i n Hi.
  - destruct i; discriminate.
  - destruct agents as [| a agents]; simpl.
    + destruct i; reflexivity.
    + destruct i as [| i]; simpl in *.
      * injection Hi as ->. now rewrite String.eqb_refl.
      * destruct (String.eqb x n) eqn:E; [ | now apply IH].
        apply String.eqb_eq in E. subst. apply nth_error_In in Hi. contradiction.
Qed.

Lemma flat_map_nothing X Y (xs : list X) : flat_map (fun _ : X => @nil Y) xs = [].
Proof. induction xs; simpl; auto. Qed.

Lemma flat_map_ext_In X Y (f g : X -> list Y) xs :
  (forall x, In x xs -> f x = g x) -> flat_map f xs = flat_map g xs.
Proof.
  induction xs as [| x xs IH]; intros H; simpl; [reflexivity | ].
  rewrite H by now left. rewrite IH; [reflexivity | ].
  intros y Hy. apply H. now right.
Qed.

(** Looking the agent of each robot up in the mapping built from
    [zip(names, agents)] pairs the names with the agents by position. *)
Lemma exchanges_by_lookup sim_ci (names : list string) (agents : list ComponentInterface) :
  NoDup names ->
  flat_map (fun robot_name =>
              match dict_get (combine names agents) robot_name with
              | Some agent => robot_exchange sim_ci agent robot_name
              | None => []
              end) names
  = exchanges sim_ci names agents.
Proof.
  unfold exchanges.
  intros Hnd. revert agents. induction Hnd as [| x xs Hx Hnd IH]; intros agents.
  - reflexivity.
  - destruct agents as [| a agents].
    + simpl combine. change (dict_get [] ?k) with (@None ComponentInterface).
      apply flat_map_nothing.
    + cbn [combine flat_map fst snd dict_get]. rewrite String.eqb_refl. f_equal.
      rewrite <- IH. apply flat_map_ext_In. intros n Hn.
      destruct (String.eqb x n) eqn:E; [ | reflexivity].
      apply String.eqb_eq in E. subst. contradiction.
Qed.

(** The messages about the robots, as [run_episode] computes them, are the
    ones that the scenario's flags and the positions of the agents give. *)
Lemma robot_messages_of_scenario sim_ci agents scenario :
  NoDup (dict_keys (robots scenario)) ->
  robot_messages sim_ci (dict_of_pairs (combine (playable_robots scenario) agents))
    (playable_robots scenario) (not_playable_robots scenario)
  ++ after_robots sim_ci
  = iteration_messages sim_ci agents scenario.
Proof.
  intros Hnd. unfold robot_messages, iteration_messages.
  assert (Hp : NoDup (playable_robots scenario)) by now apply NoDup_filter.
  rewrite dict_of_pairs_NoDup by now apply combine_fst_NoDup.
  rewrite exchanges_by_lookup by exact Hp.
  destruct (playable_robots_in_scenario_order scenario Hnd) as [-> ->].
  unfold playable_entries, other_entries. now rewrite <- app_assoc.
Qed.

(** A [for] loop whose body raises at [x] before any event ends there. *)
Lemma for_each_stops X S (body : X -> S -> M S) x xs2 :
  (forall s h, exists e, body x s h = (Raise e, [])) ->
  forall xs1 s h o es,
    for_each (xs1 ++ x :: xs2) body s h = (o, es) ->
    is_Ok o = false /\ exists o1, for_each xs1 body s h = (o1, es).
Proof.
  intros Hx. induction xs1 as [| y xs1 IH]; intros s h o es; simpl; unfold bind.
  - destruct (Hx s h) as [e ->]. intros [= <- <-]. split; [reflexivity | ].
    eexists. reflexivity.
  - destruct (body y s h) as [[s1 | e | ] es1].
    + destruct (for_each (xs1 ++ x :: xs2) body s1 (h ++ es1)) as [o2 es2] eqn:E2.
      intros [= <- <-]. destruct (IH _ _ _ _ E2) as [Ho [o1 ->]].
      split; [exact Ho | ]. eexists. reflexivity.
    + intros [= <- <-]. split; [reflexivity | ]. eexists. reflexivity.
    + intros [= <- <-]. split; [reflexivity | ]. eexists. reflexivity.
Qed.

Lemma prefix_trans X (l1 l2 l3 : list X) :
  is_prefix l1 l2 -> is_prefix l2 l3 -> is_prefix l1 l3.
Proof. intros [r1 ->] [r2 ->]. exists (r1 ++ r2). now rewrite app_assoc. Qed.

(** With a playable robot that has no agent, the step loop ends within the
    exchanges of its first iteration. *)
Lemma step_loop_without_agent fuel sim_ci p2a playable P1 x P2 not_playable dt len steps
    t h o es :
  playable = P1 ++ x :: P2 ->
  dict_get p2a x = None ->
  step_loop fuel sim_ci p2a playable not_playable dt len steps t h = (o, es) ->
  is_prefix (map wire_of es)
    (flat_map (fun robot_name =>
                 match dict_get p2a robot_name with
                 | Some agent => robot_exchange sim_ci agent robot_name
                 | None => []
                 end) P1).
Proof.
  intros -> Hx. destruct fuel as [| fuel]; simpl.
  - intros [= <- <-]. apply prefix_nil.
  - destruct (float_ge t len); [intros [= <- <-]; apply prefix_nil | ].
    unfold bind at 1, step_iteration, bind at 1, robots_phase, bind at 1.
    destruct (for_each (P1 ++ x :: P2) _ _ h) as [o1 es1] eqn:E1.
    apply for_each_stops in E1 as [Ho [o1' E1]].
    + pose proof (emits_for_each _ _ _ _ P1
                    (fun n s => playable_step_emits sim_ci p2a t n s) _ _ _ _ E1) as [Hpre _].
      destruct o1 as [tt1 | e | ]; [discriminate | | ]; intros [= <- <-]; exact Hpre.
    + intros s h'. exists (KeyError x).
      unfold playable_step, dict_item. rewrite Hx. reflexivity.
Qed.

(** C1.  Step ordering invariant.  For a scenario whose robot mapping has
    pairwise distinct names (as a Python dict has), the events of
    [run_episode] are those of its initialisation followed by those of the
    step loop, and the messages of the step loop are a sequence of
    iterations, each of which is: for every robot that the scenario flags as
    playable, in the order of the scenario's robot mapping and with the agent
    at the robot's position among the playable ones, the state query, the
    performance query and the observation query to the simulator,
    [observations] and [get_commands] to its agent, and the command push to
    the simulator, all six for one robot before the next robot; then the
    state queries of the robots that the scenario does not flag as playable;
    then [get_sim_state], [step] and the timing record.  Only the last
    iteration may stop short, and then it is a prefix of this sequence.  When
    there are fewer agents than playable robots no iteration runs to its end:
    the loop stops within the exchanges of the robots that have an agent. *)
Theorem step_ordering_invariant fuel sim_ci agents physics_dt episode_name scenario
    episode_length_s h :
  NoDup (dict_keys (robots scenario)) ->
  exists es_loop,
    snd (run_episode fuel sim_ci agents physics_dt episode_name scenario
           episode_length_s h)
    = snd (episode_init sim_ci agents episode_name scenario h) ++ es_loop
    /\ step_loop_messages (iteration_messages sim_ci agents scenario)
         (map wire_of es_loop)
    /\ (List.length agents < List.length (playable_entries scenario) ->
        is_prefix (map wire_of es_loop)
          (exchanges sim_ci (playable_entries scenario) agents)).
Proof.
  intros Hnd. unfold run_episode, bind.
  destruct (episode_init sim_ci agents episode_name scenario h) as [[[] | e | ] es0] eqn:E0;
    simpl.
  - destruct (step_loop _ _ _ _ _ _ _ _ _ (h ++ es0)) as [o es] eqn:E. simpl.
    exists es. split; [reflexivity | ]. split.
    + rewrite <- (robot_messages_of_scenario sim_ci agents scenario Hnd).
      exact (step_loop_wires _ _ _ _ _ _ _ _ _ _ _ _ E).
    + intros Hlen.
      assert (Hp : NoDup (playable_robots scenario)) by now apply NoDup_filter.
      destruct (playable_robots_in_scenario_order scenario Hnd) as [Hpl _].
      fold (playable_entries scenario) in Hpl.
      rewrite <- Hpl in Hlen |- *.
      destruct (nth_error (playable_robots scenario) (List.length agents)) as [x | ] eqn:Hn;
        [ | apply nth_error_None in Hn; lia].
      pose proof (dict_get_combine_nth _ agents Hp _ _ Hn) as Hx.
      rewrite (proj2 (nth_error_None agents (List.length agents)) (Nat.le_refl _)) in Hx.
      rewrite <- (exchanges_by_lookup sim_ci _ agents Hp).
      apply nth_error_split in Hn as (P1 & P2 & HP & _).
      rewrite dict_of_pairs_NoDup in E by now apply combine_fst_NoDup.
      eapply prefix_trans;
        [exact (step_loop_without_agent _ _ _ _ _ _ _ _ _ _ _ _ _ _ _ HP Hx E) | ].
      generalize (fun robot_name =>
                    match dict_get (combine (playable_robots scenario) agents) robot_name with
                    | Some agent => robot_exchange sim_ci agent robot_name
                    | None => []
                    end).
      intros F. rewrite HP, flat_map_app. apply prefix_app_l, prefix_refl.
  - exists []. rewrite app_nil_r. split; [reflexivity | ].
    split; [apply last_iteration | intros _]; apply prefix_nil.
  - exists []. rewrite app_nil_r. split; [reflexivity | ].
    split; [apply last_iteration | intros _]; apply prefix_nil.
Qed.

(** *** Events about robots are neither steps, nor state reports, nor timing *)

Lemma count_app p es1 es2 : count p (es1 ++ es2) = count p es1 + count p es2.
Proof. unfold count. now rewrite filter_app, length_app. Qed.

Lemma steps_sent_app es1 es2 : steps_sent (es1 ++ es2) = steps_sent es1 ++ steps_sent es2.
Proof. apply flat_map_app. Qed.

Lemma Forall_prefix X (P : X -> Prop) l full :
  is_prefix l full -> Forall P full -> Forall P l.
Proof. intros [rest ->] H. now apply Forall_app in H. Qed.

Lemma robot_messages_about_robots sim_ci p2a playable not_playable :
  Forall about_robots (robot_messages sim_ci p2a playable not_playable).
Proof.
  unfold robot_messages. apply Forall_app. split.
  - apply Forall_flat_map, Forall_forall. intros n _.
    destruct (dict_get p2a n); [ | constructor].
    unfold robot_exchange. repeat constructor; simpl; tauto.
  - apply Forall_map, Forall_forall. intros n _. simpl; tauto.
Qed.

Lemma robots_phase_about_robots sim_ci p2a playable not_playable t tt0 h o es :
  robots_phase sim_ci p2a playable not_playable t tt0 h = (o, es) ->
  Forall (fun e => about_robots (wire_of e)) es.
Proof.
  intros H. destruct (robots_phase_emits _ _ _ _ _ _ _ _ _ H) as [P _].
  apply Forall_map. eapply Forall_prefix; [exact P | apply robot_messages_about_robots].
Qed.

Lemma about_robots_quiet e :
  about_robots (wire_of e) ->
  step_time e = None /\ reports_done e = false /\ is_timing e = false.
Proof.
  destruct e as [T r a]. destruct r; simpl; try contradiction.
  - intros H. repeat split; try reflexivity.
    destruct data0; try reflexivity.
    repeat (destruct H as [<- | H]; [reflexivity | ]). contradiction.
  - intros H. repeat split; try reflexivity.
    repeat (destruct H as [<- | H]; [reflexivity | ]). contradiction.
Qed.

Lemma quiet_events es :
  Forall (fun e => about_robots (wire_of e)) es ->
  steps_sent es = [] /\ count reports_done es = 0 /\ count is_timing es = 0.
Proof.
  induction 1 as [| e es He _ IH]; [repeat split | ].
  destruct (about_robots_quiet e He) as (H1 & H2 & H3).
  destruct IH as (I1 & I2 & I3).
  unfold count, steps_sent in *. simpl. rewrite H1, H2, H3. simpl. auto.
Qed.

(** *** Computations that need no fuel *)

Lemma nofuel_ret A (a : A) : no_fuel (ret a).
Proof. intros h; discriminate. Qed.

Lemma nofuel_raise A e : no_fuel (@raise A e).
Proof. intros h; discriminate. Qed.

Lemma nofuel_call T (r : Request T) : no_fuel (call r).
Proof. intros h. unfold call. destruct (world h r); discriminate. Qed.

Lemma nofuel_bind A B (m : M A) (f : A -> M B) :
  no_fuel m -> (forall a, no_fuel (f a)) -> no_fuel (bind m f).
Proof.
  intros Hm Hf h. unfold bind. specialize (Hm h).
  destruct (m h) as [[a | e | ] es1]; simpl in *; try discriminate; try congruence.
  specialize (Hf a (h ++ es1)). destruct (f a (h ++ es1)); assumption.
Qed.

Lemma nofuel_try_except A (m : M A) handler :
  no_fuel m -> (forall e, no_fuel (handler e)) -> no_fuel (try_except m handler).
Proof.
  intros Hm Hf h. unfold try_except. specialize (Hm h).
  destruct (m h) as [[a | e | ] es1]; simpl in *; try discriminate; try congruence.
  specialize (Hf e (h ++ es1)). destruct (handler e (h ++ es1)); assumption.
Qed.

Lemma nofuel_for_each X S (body : X -> S -> M S) xs :
  (forall x s, no_fuel (body x s)) -> forall s, no_fuel (for_each xs body s).
Proof.
  intros Hb. induction xs as [| x xs IH]; intros s; simpl.
  - apply nofuel_ret.
  - apply nofuel_bind; [apply Hb | apply IH].
Qed.

Lemma nofuel_dict_item V (d : Dict V) k : no_fuel (dict_item d k).
Proof. unfold dict_item. destruct (dict_get d k); [apply nofuel_ret | apply nofuel_raise]. Qed.

Ltac nofuel_step :=
  first [ apply nofuel_ret | apply nofuel_raise | apply nofuel_call | apply nofuel_dict_item
        | apply nofuel_bind; [ | intros ? ]
        | apply nofuel_try_except; [ | intros ? ]
        | apply nofuel_for_each; intros ? ? ].

Lemma nofuel_robots_phase sim_ci p2a playable not_playable t tt0 :
  no_fuel (robots_phase sim_ci p2a playable not_playable t tt0).
Proof.
  unfold robots_phase, playable_step, not_playable_step, attr_observations.
  repeat nofuel_step. destruct (data _); repeat nofuel_step.
Qed.

(** *** Inversion of a run that returned *)

Ltac inv_bind H :=
  let a := fresh "a" in
  let es1 := fresh "es" in
  let es2 := fresh "es" in
  let H1 := fresh "H" in
  let Heq := fresh "Hes" in
  apply bind_Ok in H; destruct H as (a & es1 & es2 & H1 & H & Heq).

Lemma for_each_Ok_invariant X S (P : S -> Prop) (body : X -> S -> M S) xs :
  (forall x s h s' es, body x s h = (Ok s', es) -> P s -> P s') ->
  forall s h s' es, for_each xs body s h = (Ok s', es) -> P s -> P s'.
Proof.
  intros Hb. induction xs as [| x xs IH]; intros s h s' es H Hs; simpl in H.
  - apply ret_Ok in H as [-> _]. assumption.
  - inv_bind H. eapply IH; [exact H | ]. eapply Hb; eassumption.
Qed.

Lemma robots_phase_steps sim_ci p2a playable not_playable t tt0 h tt1 es :
  robots_phase sim_ci p2a playable not_playable t tt0 h = (Ok tt1, es) ->
  tt_steps tt1 = tt_steps tt0.
Proof.
  unfold robots_phase. intros H. inv_bind H.
  transitivity (tt_steps a).
  - eapply (for_each_Ok_invariant _ _ (fun s => tt_steps s = tt_steps a));
      [ | exact H | reflexivity].
    intros x s h' s' es' H' Hs. unfold not_playable_step in H'.
    inv_bind H'. apply ret_Ok in H' as [-> _]. exact Hs.
  - eapply (for_each_Ok_invariant _ _ (fun s => tt_steps s = tt_steps tt0));
      [ | exact H0 | reflexivity].
    intros x s h' s' es' H' Hs. unfold playable_step in H'.
    do 6 inv_bind H'. apply ret_Ok in H' as [-> _]. exact Hs.
Qed.

(** *** One iteration, by the way it ends *)

Lemma step_iteration_run sim_ci p2a playable not_playable dt steps t h o es :
  step_iteration sim_ci p2a playable not_playable dt steps t h = (o, es) ->
  match o with
  | Ok None =>
      steps_sent es = [] /\ count is_timing es = 0 /\
      exists es' e, es = es' ++ [e] /\ reports_done e = true /\ count reports_done es' = 0
  | Ok (Some t') =>
      t' = PrimFloat.add t dt /\ steps_sent es = [t'] /\ count reports_done es = 0 /\
      exists es' record j,
        es = es' ++ [ Ev (ci_serialize sim_ci record) (Returned j);
                      Ev (cc_write sim_ci j) (Returned tt);
                      Ev (cc_flush sim_ci) (Returned tt) ]
        /\ tt_steps record = steps /\ count is_timing es' = 0
        /\ exists tt1 es1,
            robots_phase sim_ci p2a playable not_playable t
              {| tt_steps := steps; phases := [] |} h = (Ok tt1, es1)
            /\ record = measure (measure tt1 "sim_compute_sim_state") "sim_physics"
  | Raise _ => count reports_done es = 0
  | OutOfFuel => False
  end.
Proof.
  intros H. unfold step_iteration, bind in H.
  destruct (robots_phase _ _ _ _ _ _ h) as [[tt1 | e | ] es1] eqn:E1;
    pose proof (robots_phase_about_robots _ _ _ _ _ _ _ _ _ E1) as Q;
    apply quiet_events in Q; destruct Q as (Q1 & Q2 & Q3).
  2: { injection H as <- <-. assumption. }
  2: { exfalso. apply (nofuel_robots_phase sim_ci p2a playable not_playable t
                         {| tt_steps := steps; phases := [] |} h).
       now rewrite E1. }
  pose proof (robots_phase_steps _ _ _ _ _ _ _ _ _ E1) as Hsteps. simpl in Hsteps.
  unfold log_timing_info, call, attr_done, bind, ret, raise in H.
  revert H. destruct_world.
  2: { intros [= <- <-]. rewrite count_app, Q2. reflexivity. }
  destruct v as [tp [ | ? | ? | [ | ] ? ? | ? ]]; simpl.
  1, 2, 3, 6: intros [= <- <-]; rewrite count_app, Q2; reflexivity.
  - intros [= <- <-]. rewrite ?app_nil_r, steps_sent_app, count_app, Q1, Q3.
    repeat split. eexists _, _. split; [reflexivity | split; [reflexivity | assumption]].
  - destruct_world; simpl; destruct_world; simpl; destruct_world; simpl; destruct_world; simpl;
      intros [= <- <-]; rewrite ?steps_sent_app, ?count_app, ?Q1, ?Q2; try reflexivity.
    repeat match goal with u : unit |- _ => destruct u end.
    repeat split.
    eexists (es1 ++ [_; _]), _, _. rewrite <- app_assoc. simpl.
    split; [reflexivity | ]. split; [exact Hsteps | ].
    split; [rewrite count_app, Q3; reflexivity | ].
    exists tt1, es1. split; reflexivity.
Qed.

(** *** The step loop *)

Lemma time_after_succ dt k t :
  time_after dt (S k) t = time_after dt k (PrimFloat.add t dt).
Proof. exact (Nat.iter_succ_r k float (fun x => PrimFloat.add x dt) t). Qed.

Lemma step_loop_run fuel sim_ci p2a playable not_playable dt len steps :
  forall t h o es,
    step_loop fuel sim_ci p2a playable not_playable dt len steps t h = (o, es) ->
    match o with
    | Ok t_final => stopped_at_first dt len t t_final es
    | _ => count reports_done es = 0
    end.
Proof.
  induction fuel as [| fuel IH]; intros t h o es; simpl.
  - intros [= <- <-]. reflexivity.
  - destruct (float_ge t len) eqn:Hlimit.
    + intros [= <- <-]. exists 0. simpl. repeat split; [intros j Hj; lia | auto].
    + unfold bind.
      destruct (step_iteration _ _ _ _ _ _ _ h) as [o1 es1] eqn:E1.
      pose proof (step_iteration_run _ _ _ _ _ _ _ _ _ _ E1) as R1.
      destruct o1 as [[t' | ] | e | ]; [ | | | contradiction].
      * destruct R1 as (-> & S1 & D1 & _).
        destruct (step_loop _ _ _ _ _ _ _ _ _ (h ++ es1)) as [o2 es2] eqn:E2.
        intros [= <- <-]. pose proof (IH _ _ _ _ E2) as R2.
        destruct o2 as [t_final | e | ]; try (rewrite count_app, D1; exact R2).
        destruct R2 as (k & Ht & Hs & Hbefore & Hend).
        exists (S k). rewrite time_after_succ. split; [exact Ht | ].
        split; [ | split].
        -- rewrite steps_sent_app, S1, Hs.
           change (seq 0 (S k)) with (0 :: seq 1 k).
           cbn [map]. rewrite <- seq_shift, map_map.
           apply (f_equal2 cons); [reflexivity | ].
           apply map_ext. intros j. symmetry. apply time_after_succ.
        -- intros [| j] Hj; [exact Hlimit | ].
           rewrite time_after_succ. apply Hbefore. lia.
        -- destruct Hend as [[Hl Hd] | (Hl & es' & e & -> & He & Hd)].
           ++ left. split; [exact Hl | ]. rewrite count_app, D1, Hd. reflexivity.
           ++ right. split; [exact Hl | ]. exists (es1 ++ es'), e.
              rewrite app_assoc. split; [reflexivity | ]. split; [exact He | ].
              rewrite count_app, D1, Hd. reflexivity.
      * destruct R1 as (S1 & _ & es' & e & -> & He & Hd).
        intros [= <- <-]. rewrite app_nil_r. exists 0. simpl.
        split; [reflexivity | ]. split; [ | split; [intros j Hj; lia | ]].
        -- exact S1.
        -- right. split; [exact Hlimit | ]. exists es', e. auto.
      * intros [= <- <-]. exact R1.
Qed.

Lemma step_loop_stops_by_the_limit fuel sim_ci p2a playable not_playable dt len steps :
  forall k t h,
    k < fuel ->
    float_ge (time_after dt k t) len = true ->
    fst (step_loop fuel sim_ci p2a playable not_playable dt len steps t h) <> OutOfFuel.
Proof.
  induction fuel as [| fuel IH]; intros k t h Hk Hreach; [lia | ]. simpl.
  destruct (float_ge t len) eqn:Hlimit; [discriminate | ].
  destruct k as [| k]; [simpl in Hreach; congruence | ].
  unfold bind.
  destruct (step_iteration _ _ _ _ _ _ _ h) as [o1 es1] eqn:E1.
  pose proof (step_iteration_run _ _ _ _ _ _ _ _ _ _ E1) as R1.
  destruct o1 as [[t' | ] | e | ]; [ | discriminate | discriminate | contradiction].
  destruct R1 as (-> & _).
  specialize (IH k (PrimFloat.add t dt) (h ++ es1)).
  destruct (step_loop _ _ _ _ _ _ _ _ _ (h ++ es1)) as [o2 es2]. simpl in *.
  apply IH; [lia | ]. now rewrite <- time_after_succ.
Qed.

Lemma nofuel_episode_init sim_ci agents episode_name scenario :
  no_fuel (episode_init sim_ci agents episode_name scenario).
Proof. unfold episode_init. repeat nofuel_step. Qed.

(** C2.  Termination invariant.  A run of [run_episode] that returns
    [t_final] consists of the initialisation and of a step loop that made
    [k] whole iterations, where [k] is the first count at which the elapsed
    time [k] steps of [physics_dt] from zero has reached the episode length
    or at which the simulator reported [done]: the loop sent exactly the
    [step] messages for the times after 1, ..., [k] steps, the time limit was
    not reached before, no earlier reply reported [done], and [t_final] is
    the time after [k] steps.  When the simulator reported [done], that reply
    is the last event of the run, so no [step] follows it.  The loop needs no
    more iterations than the time limit allows: once the time after [k]
    steps reaches the episode length, [fuel > k] is enough. *)
Theorem termination_invariant fuel sim_ci agents physics_dt episode_name scenario
    episode_length_s h t_final es :
  run_episode fuel sim_ci agents physics_dt episode_name scenario episode_length_s h
  = (Ok t_final, es) ->
  (exists es_init es_loop,
      episode_init sim_ci agents episode_name scenario h = (Ok tt, es_init)
      /\ es = es_init ++ es_loop
      /\ stopped_at_first physics_dt episode_length_s 0%float t_final es_loop)
  /\ (forall fuel' k h',
        k < fuel' ->
        float_ge (time_after physics_dt k 0%float) episode_length_s = true ->
        fst (run_episode fuel' sim_ci agents physics_dt episode_name scenario
               episode_length_s h') <> OutOfFuel).
Proof.
  intros H. split.
  - unfold run_episode in H. inv_bind H. destruct a.
    exists es0, es1. split; [exact H0 | ]. split; [exact Hes | ].
    exact (step_loop_run _ _ _ _ _ _ _ _ _ _ _ _ H).
  - intros fuel' k h' Hk Hreach. unfold run_episode, bind.
    pose proof (nofuel_episode_init sim_ci agents episode_name scenario h') as Hinit.
    destruct (episode_init sim_ci agents episode_name scenario h') as [[[] | e | ] es0];
      simpl in *; try discriminate; try congruence.
    pose proof (step_loop_stops_by_the_limit fuel' sim_ci
                  (dict_of_pairs (combine (playable_robots scenario) agents))
                  (playable_robots scenario) (not_playable_robots scenario)
                  physics_dt episode_length_s 0 k 0%float (h' ++ es0) Hk Hreach) as Hloop.
    destruct (step_loop _ _ _ _ _ _ _ _ _ (h' ++ es0)); assumption.
Qed.

(** C7 as the code has it.  An iteration of the step loop that runs to its
    end (the simulator did not report [done], no call raised) ends by logging
    its timing record: its last three events are the serialisation of the
    record of this iteration, the write of it to the log and the flush, and
    the iteration has made no other timing call.  The iteration in which the
    simulator reports [done] makes no timing call: its last event is the
    reply that reports [done]. *)
Theorem timing_record_after_whole_iteration sim_ci p2a playable not_playable dt steps
    t h o es :
  step_iteration sim_ci p2a playable not_playable dt steps t h = (o, es) ->
  (forall t', o = Ok (Some t') ->
     exists es' record j,
       es = es' ++ [ Ev (ci_serialize sim_ci record) (Returned j);
                     Ev (cc_write sim_ci j) (Returned tt);
                     Ev (cc_flush sim_ci) (Returned tt) ]
       /\ tt_steps record = steps
       /\ count is_timing es' = 0
       /\ exists tt1 es1,
           robots_phase sim_ci p2a playable not_playable t
             {| tt_steps := steps; phases := [] |} h = (Ok tt1, es1)
           /\ record = measure (measure tt1 "sim_compute_sim_state") "sim_physics")
  /\ (o = Ok None ->
      count is_timing es = 0
      /\ exists es' e, es = es' ++ [e] /\ reports_done e = true).
Proof.
  intros H. pose proof (step_iteration_run _ _ _ _ _ _ _ _ _ _ H) as R. split.
  - intros t' ->. destruct R as (_ & _ & _ & R). exact R.
  - intros ->. destruct R as (_ & T & es' & e & E & D & _).
    split; [exact T | ]. exists es', e. auto.
Qed.

(* ------------------------------------------------------------------ *)
(** ** Events a computation never produces *)

Lemma quiet_count p es : Forall (fun e => p e = false) es -> count p es = 0.
Proof.
  unfold count. induction 1 as [| e es He _ IH]; simpl; [reflexivity | ].
  now rewrite He.
Qed.

Section Quiet.

Variable p : Event -> bool.

Lemma quiet_ret A (a : A) : quiet p (ret a).
Proof. intros h o es [= <- <-]. constructor. Qed.

Lemma quiet_raise A e : quiet p (@raise A e).
Proof. intros h o es [= <- <-]. constructor. Qed.

Lemma quiet_out_of_fuel A : quiet p (@out_of_fuel A).
Proof. intros h o es [= <- <-]. constructor. Qed.

Lemma quiet_call T (r : Request T) :
  (forall a, p (Ev r a) = false) -> quiet p (call r).
Proof.
  intros Hr h o es. unfold call.
  destruct (world h r); intros [= <- <-]; repeat constructor; apply Hr.
Qed.

Lemma quiet_bind A B (m : M A) (f : A -> M B) :
  quiet p m -> (forall a, quiet p (f a)) -> quiet p (bind m f).
Proof.
  intros Hm Hf h o es. unfold bind.
  destruct (m h) as [[a | e | ] es1] eqn:Em; pose proof (Hm _ _ _ Em) as Q1.
  - destruct (f a (h ++ es1)) as [o' es2] eqn:Ef. intros [= <- <-].
    apply Forall_app. split; [exact Q1 | exact (Hf _ _ _ _ Ef)].
  - intros [= <- <-]. exact Q1.
  - intros [= <- <-]. exact Q1.
Qed.

Lemma quiet_try_except A (m : M A) handler :
  quiet p m -> (forall e, quiet p (handler e)) -> quiet p (try_except m handler).
Proof.
  intros Hm Hf h o es. unfold try_except.
  destruct (m h) as [[a | e | ] es1] eqn:Em; pose proof (Hm _ _ _ Em) as Q1.
  - intros [= <- <-]. exact Q1.
  - destruct (handler e (h ++ es1)) as [o' es2] eqn:Ef. intros [= <- <-].
    apply Forall_app. split; [exact Q1 | exact (Hf _ _ _ _ Ef)].
  - intros [= <- <-]. exact Q1.
Qed.

Lemma quiet_try_finally A (m : M A) fin :
  quiet p m -> quiet p fin -> quiet p (try_finally m fin).
Proof.
  intros Hm Hf h o es. unfold try_finally.
  destruct (m h) as [[a | e | ] es1] eqn:Em; pose proof (Hm _ _ _ Em) as Q1.
  3: intros [= <- <-]; exact Q1.
  all: destruct (fin (h ++ es1)) as [[[] | e' | ] es2] eqn:Ef; intros [= <- <-];
    apply Forall_app; (split; [exact Q1 | exact (Hf _ _ _ Ef)]).
Qed.

Lemma quiet_for_each X S (body : X -> S -> M S) xs :
  (forall x s, quiet p (body x s)) -> forall s, quiet p (for_each xs body s).
Proof.
  intros Hb. induction xs as [| x xs IH]; intros s; simpl.
  - apply quiet_ret.
  - apply quiet_bind; [apply Hb | apply IH].
Qed.

Lemma quiet_dict_item V (d : Dict V) k : quiet p (dict_item d k).
Proof. unfold dict_item. destruct (dict_get d k); [apply quiet_ret | apply quiet_raise]. Qed.

End Quiet.

Ltac quiet_step Hp :=
  first [ apply quiet_ret | apply quiet_raise | apply quiet_out_of_fuel
        | apply quiet_call; intros ?; first [reflexivity | apply Hp; reflexivity]
        | apply quiet_dict_item
        | apply quiet_bind; [ | intros ? ]
        | apply quiet_try_except; [ | intros ? ]
        | apply quiet_try_finally
        | apply quiet_for_each; intros ? ?
        | match goal with |- quiet _ (if ?b then _ else _) => destruct b end
        | match goal with |- quiet _ (match ?d with _ => _ end) => destruct d end ].

Lemma quiet_step_loop p (Hp : blind_to_peers p) fuel sim_ci p2a playable not_playable
    dt len steps :
  forall t, quiet p (step_loop fuel sim_ci p2a playable not_playable dt len steps t).
Proof.
  induction fuel as [| fuel IH]; intros t; simpl.
  - apply quiet_out_of_fuel.
  - destruct (float_ge t len); [apply quiet_ret | ].
    apply quiet_bind.
    + unfold step_iteration, robots_phase, playable_step, not_playable_step,
        log_timing_info, attr_done, attr_observations.
      repeat quiet_step Hp.
    + intros [t' | ]; [apply IH | apply quiet_ret].
Qed.

Lemma quiet_run_episode p (Hp : blind_to_peers p) fuel sim_ci agents dt name sc len :
  quiet p (run_episode fuel sim_ci agents dt name sc len).
Proof.
  unfold run_episode. apply quiet_bind.
  - unfold episode_init. repeat quiet_step Hp.
  - intros _. now apply quiet_step_loop.
Qed.

Lemma quiet_collect_episodes p sm_ci
    (Hnext : forall a,
        p (Ev (write_topic_and_expect sm_ci "next_scenario" PNone None) a) = false)
    (Hclose : forall a, p (Ev (ci_close sm_ci) a) = false) fuel eps :
  forall episodes, quiet p (collect_episodes fuel sm_ci eps episodes).
Proof.
  induction fuel as [| fuel IH]; intros episodes; simpl.
  - apply quiet_out_of_fuel.
  - apply quiet_bind; [apply quiet_call, Hnext | intros recv].
    destruct (String.eqb (topic recv) "finished").
    + apply quiet_bind; [apply quiet_call, Hclose | intros _; apply quiet_ret].
    + unfold as_scenario. apply quiet_bind; [ | intros sc; apply IH].
      destruct (data recv); first [apply quiet_ret | apply quiet_raise].
Qed.

Lemma blind_is_open_wb : blind_to_peers is_open_wb.
Proof. intros T r a. destruct r; simpl; congruence. Qed.

(* ------------------------------------------------------------------ *)
(** ** Names of attempt directories *)

Lemma str_of_nat_inj i j : str_of_nat i = str_of_nat j -> i = j.
Proof.
  unfold str_of_nat. intros H.
  assert (Hnn : forall n, Nat.to_uint n <> Nil).
  { intros n. rewrite <- (DecimalNat.Unsigned.of_to n), DecimalNat.Unsigned.to_of.
    apply DecimalFacts.unorm_nonnil. }
  apply DecimalNat.Unsigned.to_uint_inj.
  pose proof (NilZero.usu (Nat.to_uint i) (Hnn i)) as Hi.
  pose proof (NilZero.usu (Nat.to_uint j) (Hnn j)) as Hj.
  rewrite H in Hi. congruence.
Qed.

Lemma string_app_inv_head (a x y : string) :
  (a ++ x)%string = (a ++ y)%string -> x = y.
Proof. induction a as [| c a IH]; simpl; [auto | intros [= H]; auto]. Qed.




(* ------------------------------------------------------------------ *)
(** ** The episode loop *)

Lemma settle_attempt_Ok cfg log_dir attempts s episode_spec length_s stats h s' es :
  settle_attempt cfg log_dir attempts s episode_spec length_s stats h = (Ok s', es) ->
  st_attempt_i s' = S (st_attempt_i s)
  /\ st_stats s' = stats
  /\ st_per_episode s' = dict_set (st_per_episode s) (episode_name episode_spec) stats
  /\ st_episodes s' = (if float_ge length_s (min_episode_length_s cfg)
                       then tl (st_episodes s) else st_episodes s)
  /\ st_nfailures s' = (if float_ge length_s (min_episode_length_s cfg)
                        then st_nfailures s else st_nfailures s + 1)%Z.
Proof.
  unfold settle_attempt. destruct (float_ge length_s (min_episode_length_s cfg)); intros H.
  - do 2 inv_bind H. apply ret_Ok in H as [-> _]. simpl. auto.
  - apply ret_Ok in H as [-> _]. simpl. auto.
Qed.


(** *** How many log files a computation opens *)

Lemma opens_quiet A (m : M A) : quiet is_open_wb m -> opens m 0.
Proof. intros Hq h o es H _. apply quiet_count. exact (Hq _ _ _ H). Qed.

Lemma opens_bind A B (m : M A) (f : A -> M B) n1 n2 :
  opens m n1 -> (forall a, opens (f a) n2) -> opens (bind m f) (n1 + n2).
Proof.
  intros Hm Hf h o es. unfold bind.
  destruct (m h) as [[a | e | ] es1] eqn:Em; try (intros [= <- <-]; discriminate).
  destruct (f a (h ++ es1)) as [o' es2] eqn:Ef. intros [= <- <-] Hok.
  rewrite count_app, (Hm _ _ _ Em eq_refl), (Hf _ _ _ _ Ef Hok). reflexivity.
Qed.

Lemma quiet_run_episode_logged p (Hp : blind_to_peers p) sfuel cfg sim_ci agents
    episode_spec fn_tmp fn :
  (forall a, p (Ev (file_close fn_tmp) a) = false) ->
  (forall a, p (Ev (os_rename fn_tmp fn) a) = false) ->
  quiet p (run_episode_logged sfuel cfg sim_ci agents episode_spec fn_tmp fn).
Proof.
  intros Hc Hr. unfold run_episode_logged. apply quiet_try_finally.
  - apply quiet_try_except; [now apply quiet_run_episode | intros e; apply quiet_raise].
  - apply quiet_bind; [now apply quiet_call | intros _; now apply quiet_call].
Qed.

(** An attempt that gets to its statistics has opened exactly one log file. *)
Lemma attempt_episode_opens sfuel cfg agent_ci sim_ci agents log_dir attempts i spec :
  opens (attempt_episode sfuel cfg agent_ci sim_ci agents log_dir attempts i spec) 1.
Proof.
  unfold attempt_episode.
  do 6 (apply opens_bind with (n1 := 0) (n2 := 1);
        [apply opens_quiet; repeat quiet_step blind_is_open_wb | intros ?]).
  apply opens_bind with (n1 := 1) (n2 := 0).
  - intros h o es. unfold call. destruct (world h _); intros [= <- <-]; [reflexivity | discriminate].
  - intros _. apply opens_quiet.
    do 3 (apply quiet_bind; [repeat quiet_step blind_is_open_wb | intros ?]).
    apply quiet_bind.
    + apply quiet_run_episode_logged; [apply blind_is_open_wb | reflexivity | reflexivity].
    + intros length_s. repeat quiet_step blind_is_open_wb.
Qed.

Lemma episodes_loop_all_rejected sfuel cfg agent_ci sim_ci agents log_dir attempts
    episode_spec pending :
  every_attempt_rejected sfuel cfg agent_ci sim_ci agents log_dir attempts episode_spec ->
  forall d fuel s h,
    st_episodes s = episode_spec :: pending ->
    Z.to_nat (max_failures cfg - st_nfailures s) = d ->
    d < fuel ->
    exists es,
      episodes_loop fuel sfuel cfg agent_ci sim_ci agents log_dir attempts s h
      = (Raise (PyException (TooManyFailures (Z.max (st_nfailures s) (max_failures cfg)))),
         es)
      /\ count is_open_wb es = d.
Proof.
  intros Hrej. induction d as [| d IH]; intros fuel s h Hq Hd Hfuel;
    (destruct fuel as [| fuel]; [lia | ]); simpl; rewrite Hq.
  - replace (max_failures cfg <=? st_nfailures s)%Z with true
      by (symmetry; apply Z.leb_le; lia).
    exists []. split; [ | reflexivity]. unfold raise. repeat f_equal. lia.
  - replace (max_failures cfg <=? st_nfailures s)%Z with false
      by (symmetry; apply Z.leb_gt; lia).
    destruct (Hrej (st_attempt_i s) h) as (length_s & stats & es1 & Ha & Hshort).
    pose proof (attempt_episode_opens _ _ _ _ _ _ _ _ _ _ _ _ Ha eq_refl) as Hopen.
    unfold bind at 1. unfold episode_attempt, bind at 1. rewrite Ha. simpl fst; simpl snd.
    unfold settle_attempt. rewrite Hshort. unfold ret at 1. rewrite app_nil_r.
    match goal with
    | |- context [episodes_loop fuel _ _ _ _ _ _ _ ?s1 ?h1] =>
        destruct (IH fuel s1 h1) as (es2 & E2 & C2);
          [simpl; exact Hq | simpl; lia | lia | ]
    end.
    rewrite E2. simpl st_nfailures. exists (es1 ++ es2).
    replace (Z.max (st_nfailures s + 1) (max_failures cfg))
      with (Z.max (st_nfailures s) (max_failures cfg)) by lia.
    split; [reflexivity | ].
    rewrite count_app, Hopen, C2. reflexivity.
Qed.

(** C3.  Retry bound.  When every attempt of the episode at the head of the
    list is rejected for being too short, the episode loop, entered with a
    failure counter of zero, ends by raising the exhausted-retries failure,
    with the counter equal to [max_failures] (to zero when [max_failures] is
    negative), after having started exactly [max_failures] attempts: it did
    not stop while the counter was below the maximum, and it started no
    attempt once the counter had reached it. *)
Theorem retry_bound fuel sfuel cfg agent_ci sim_ci agents log_dir attempts s
    episode_spec pending h :
  st_episodes s = episode_spec :: pending ->
  every_attempt_rejected sfuel cfg agent_ci sim_ci agents log_dir attempts episode_spec ->
  st_nfailures s = 0%Z ->
  Z.to_nat (max_failures cfg) < fuel ->
  exists es,
    episodes_loop fuel sfuel cfg agent_ci sim_ci agents log_dir attempts s h
    = (Raise (PyException (TooManyFailures (Z.max 0 (max_failures cfg)))), es)
    /\ count is_open_wb es = Z.to_nat (max_failures cfg)
    /\ (0 <= max_failures cfg -> Z.max 0 (max_failures cfg) = max_failures cfg)%Z.
Proof.
  intros Hq Hrej Hn Hfuel.
  destruct (episodes_loop_all_rejected _ _ _ _ _ _ _ _ _ Hrej
              (Z.to_nat (max_failures cfg)) fuel s h Hq) as (es & E & C).
  - rewrite Hn. f_equal. lia.
  - exact Hfuel.
  - rewrite Hn in E. exists es. repeat split; [exact E | exact C | lia].
Qed.

(* ------------------------------------------------------------------ *)
(** ** Cleanup blocks *)

Lemma try_except_reraise A (m : M A) h :
  try_except m (fun e => raise e) h = m h.
Proof.
  unfold try_except, raise. destruct (m h) as [[a | e | ] es]; try reflexivity.
  now rewrite app_nil_r.
Qed.

(** A [finally] block of two calls: it runs whatever the body did, and the
    second call is made when the first returned. *)
Lemma try_finally_two_calls A (m : M A) (r1 r2 : Request unit) h o es :
  try_finally m (call r1 ;; call r2) h = (o, es) ->
  o <> OutOfFuel ->
  exists o_m es_m,
    m h = (o_m, es_m)
    /\ ((exists e, es = es_m ++ [Ev r1 (Raised e)] /\ o = Raise e)
        \/ (exists a, es = es_m ++ [Ev r1 (Returned tt); Ev r2 a]
                      /\ o = match a with
                             | Returned _ => o_m
                             | Raised e => Raise e
                             end)).
Proof.
  unfold try_finally, bind, call. intros H Hfuel.
  destruct (m h) as [o_m es_m]. exists o_m, es_m. split; [reflexivity | ].
  destruct o_m as [a | e | ]; [ | | injection H as <- _; congruence].
  all: destruct (world (h ++ es_m) r1) as [[] | e1];
    [ destruct (world ((h ++ es_m) ++ [Ev r1 (Returned tt)]) r2) as [[] | e2] | ];
    injection H as <- <-; simpl;
    first [ left; eexists; split; reflexivity
          | right; eexists; split; reflexivity ].
Qed.






(* ------------------------------------------------------------------ *)
(** ** [main] as a whole *)

Lemma main_handler_classifies A (m : M A) h :
  try_except m (fun e => if is_InvalidSubmission e then raise e
                         else raise (InvalidEvaluator e)) h
  = (match fst (m h) with
     | Raise e => Raise (classified e)
     | o => o
     end, snd (m h)).
Proof.
  unfold try_except, classified, raise. destruct (m h) as [[a | e | ] es]; try reflexivity.
  simpl. destruct (is_InvalidSubmission e); now rewrite app_nil_r.
Qed.

Lemma report_scores_sets_scores per_episode stats h o es :
  report_scores per_episode stats h = (o, es) ->
  Forall (fun e => is_set_score e = true) es.
Proof.
  intros H.
  assert (Q : quiet (fun e => negb (is_set_score e)) (report_scores per_episode stats)).
  { unfold report_scores, report_metric. apply quiet_bind; [now apply quiet_call | intros _].
    apply quiet_for_each. intros k _.
    apply quiet_bind.
    - generalize (dict_values per_episode). intros ds.
      induction ds as [| d ds IH]; simpl; [apply quiet_ret | ].
      apply quiet_bind; [apply quiet_dict_item | intros v].
      apply quiet_bind; [exact IH | intros vs; apply quiet_ret].
    - intros values. repeat (apply quiet_bind; [now apply quiet_call | intros _]).
      now apply quiet_call. }
  apply Q in H. eapply Forall_impl; [ | exact H].
  intros e He. now apply negb_false_iff in He.
Qed.

(** The outcome and events of the guarded part of [main], from those of the
    body of its [try]. *)
Lemma main_guarded_run fuel sfuel cfg log_dir attempts h o es :
  main_guarded fuel sfuel cfg log_dir attempts h = (o, es) ->
  o <> OutOfFuel ->
  exists o_try es_try,
    main_try fuel sfuel cfg (the_agent_ci cfg) (the_sim_ci cfg) (the_sm_ci cfg)
      [the_agent_ci cfg] log_dir attempts h = (o_try, es_try)
    /\ ((exists e, es = es_try ++ [Ev (ci_close (the_agent_ci cfg)) (Raised e)]
                   /\ o = Raise e)
        \/ (exists a, es = es_try ++ [ Ev (ci_close (the_agent_ci cfg)) (Returned tt);
                                       Ev (ci_close (the_sim_ci cfg)) a ]
                      /\ o = match a with
                             | Raised e => Raise e
                             | Returned _ =>
                                 match o_try with
                                 | Raise e => Raise (classified e)
                                 | _ => o_try
                                 end
                             end)).
Proof.
  intros H Hfuel. unfold main_guarded in H.
  apply try_finally_two_calls in H; [ | exact Hfuel].
  destruct H as (o_m & es_m & Hm & Hend).
  rewrite main_handler_classifies in Hm.
  destruct (main_try _ _ _ _ _ _ _ _ _ h) as [o_try es_try]. simpl in Hm.
  injection Hm as <- <-. exists o_try, es_try. split; [reflexivity | ].
  destruct Hend as [(e & -> & ->) | (a & -> & ->)].
  - left. eexists; split; reflexivity.
  - right. exists a. split; [reflexivity | ]. destruct a, o_try; reflexivity.
Qed.

(** C9 as the code has it.  When the setup of [main] (the channels, their
    protocols, the compatibility check) has passed and [main] then fails,
    whatever the failure, the cleanup block has run after the body of the
    [try] and before the failure reaches the caller: [close] was called on
    the agent channel and, when that returned, on the simulator channel.
    When both returned and the body had raised, nothing follows them and the
    failure is the body's, a submission failure as it is and any other
    wrapped as an evaluator failure. *)
Theorem cleanup_on_failure fuel sfuel cfg log_dir attempts h es0 e es :
  main_setup cfg h = (Ok tt, es0) ->
  main fuel sfuel cfg log_dir attempts h = (Raise e, es) ->
  exists o_try es_try,
    main_try fuel sfuel cfg (the_agent_ci cfg) (the_sim_ci cfg) (the_sm_ci cfg)
      [the_agent_ci cfg] log_dir attempts (h ++ es0) = (o_try, es_try)
    /\ ((exists e', es = es0 ++ es_try ++ [Ev (ci_close (the_agent_ci cfg)) (Raised e')]
                    /\ e = e')
        \/ (exists a rest,
              es = es0 ++ es_try
                   ++ [ Ev (ci_close (the_agent_ci cfg)) (Returned tt);
                        Ev (ci_close (the_sim_ci cfg)) a ] ++ rest
              /\ Forall (fun ev => is_set_score ev = true) rest
              /\ (forall e_try, o_try = Raise e_try ->
                    rest = []
                    /\ e = match a with
                           | Raised e2 => e2
                           | Returned _ => classified e_try
                           end))).
Proof.
  intros Hsetup H. unfold main, bind in H. rewrite Hsetup in H.
  destruct (main_guarded fuel sfuel cfg log_dir attempts (h ++ es0)) as [o_g es_g] eqn:Eg.
  assert (Hfuel : o_g <> OutOfFuel) by (intros ->; discriminate).
  destruct (main_guarded_run _ _ _ _ _ _ _ _ Eg Hfuel) as (o_try & es_try & Htry & Hend).
  exists o_try, es_try. split; [exact Htry | ].
  destruct o_g as [s | e_g | ]; [ | | congruence].
  - destruct (report_scores _ _ _) as [o_r es_r] eqn:Er. injection H as -> <-.
    destruct Hend as [(e' & _ & [=]) | (a & -> & Ho)].
    right. exists a, es_r. split; [now rewrite <- !app_assoc | ].
    split; [exact (report_scores_sets_scores _ _ _ _ _ Er) | ].
    intros e_try ->. destruct a; discriminate.
  - injection H as <- <-.
    destruct Hend as [(e' & -> & [= ->]) | (a & -> & Ho)].
    + left. exists e'. split; reflexivity.
    + right. exists a, []. split; [now rewrite app_nil_r | ].
      split; [constructor | ].
      intros e_try ->. split; [reflexivity | ].
      destruct a; congruence.
Qed.

Lemma quiet_main_setup p cfg : blind_before_loop p -> quiet p (main_setup cfg).
Proof.
  intros Hp. unfold main_setup, open_channels, check_compatibility_between_agent_and_sim,
    attr_of_protocol, attr_annotations.
  repeat first [ apply quiet_call; intros ?; apply Hp; left; reflexivity
               | quiet_step blind_is_open_wb ].
Qed.

Lemma quiet_main_prelude p sfuel cfg agent_ci sim_ci sm_ci :
  blind_before_loop p -> quiet p (main_prelude sfuel cfg agent_ci sim_ci sm_ci).
Proof.
  intros Hp. unfold main_prelude, get_episodes.
  do 3 (apply quiet_bind; [apply quiet_call; intros ?; apply Hp; right; reflexivity
                          | intros _]).
  apply quiet_collect_episodes; intros ?; apply Hp; right; reflexivity.
Qed.

(** Nothing before the episode loop opens a log file or starts an episode. *)
Lemma blind_before_loop_open_wb : blind_before_loop is_open_wb.
Proof. intros T r a [H | H]; destruct r; simpl in *; congruence. Qed.

Lemma blind_before_loop_clear : blind_before_loop is_clear.
Proof.
  intros T r a [H | H]; destruct r; simpl in *; try congruence; try reflexivity;
    apply String.eqb_eq in H; subst; reflexivity.
Qed.

(** C10.  When [max_failures] is zero or negative and the scenario maker
    has produced at least one episode, the body of the [try] of [main] raises
    the too-many-failures exception, with a counter of zero, right after the
    list of episodes is known; [main] has then opened no log file and sent no
    [clear] to the simulator (no attempt was started), and, after the cleanup
    block, fails with that exception wrapped as an evaluator failure (or with
    the exception of a [close] that raised). *)
Theorem no_attempt_when_max_failures_not_positive fuel sfuel cfg log_dir attempts h
    es0 episodes es1 :
  (max_failures cfg <= 0)%Z ->
  0 < fuel ->
  main_setup cfg h = (Ok tt, es0) ->
  main_prelude sfuel cfg (the_agent_ci cfg) (the_sim_ci cfg) (the_sm_ci cfg) (h ++ es0)
  = (Ok episodes, es1) ->
  episodes <> [] ->
  main_try fuel sfuel cfg (the_agent_ci cfg) (the_sim_ci cfg) (the_sm_ci cfg)
    [the_agent_ci cfg] log_dir attempts (h ++ es0)
  = (Raise (PyException (TooManyFailures 0)), es1)
  /\ exists o es_close,
      main fuel sfuel cfg log_dir attempts h = (o, es0 ++ es1 ++ es_close)
      /\ count is_open_wb (es0 ++ es1 ++ es_close) = 0
      /\ count is_clear (es0 ++ es1 ++ es_close) = 0
      /\ ((exists e, es_close = [Ev (ci_close (the_agent_ci cfg)) (Raised e)]
                     /\ o = Raise e)
          \/ (exists a, es_close = [ Ev (ci_close (the_agent_ci cfg)) (Returned tt);
                                     Ev (ci_close (the_sim_ci cfg)) a ]
                        /\ o = Raise match a with
                                     | Raised e => e
                                     | Returned _ =>
                                         InvalidEvaluator (PyException (TooManyFailures 0))
                                     end)).
Proof.
  intros Hmax Hfuel Hsetup Hprelude Hne.
  assert (Htry : main_try fuel sfuel cfg (the_agent_ci cfg) (the_sim_ci cfg) (the_sm_ci cfg)
                   [the_agent_ci cfg] log_dir attempts (h ++ es0)
                 = (Raise (PyException (TooManyFailures 0)), es1)).
  { unfold main_try, bind. rewrite Hprelude.
    destruct fuel as [| fuel]; [lia | ]. simpl.
    destruct episodes as [| spec pending]; [congruence | ].
    replace (max_failures cfg <=? 0)%Z with true by (symmetry; apply Z.leb_le; lia).
    unfold raise. now rewrite app_nil_r. }
  split; [exact Htry | ].
  assert (Q0 : forall p, blind_before_loop p ->
                         forall es_close,
                           Forall (fun e => p e = false) es_close ->
                           count p (es0 ++ es1 ++ es_close) = 0).
  { intros p Hp es_close Hc. rewrite !count_app.
    rewrite (quiet_count p es0), (quiet_count p es1), (quiet_count p es_close); auto.
    - eapply quiet_main_prelude; [ | exact Hprelude]. exact Hp.
    - eapply quiet_main_setup; [ | exact Hsetup]. exact Hp. }
  pose proof (Q0 _ blind_before_loop_open_wb) as Qopen.
  pose proof (Q0 _ blind_before_loop_clear) as Qclear.
  unfold main, bind. rewrite Hsetup.
  unfold main_guarded, try_finally. rewrite main_handler_classifies, Htry. simpl fst; simpl snd.
  unfold bind, call.
  destruct (world ((h ++ es0) ++ es1) (ci_close (the_agent_ci cfg))) as [[] | e1].
  - destruct (world (((h ++ es0) ++ es1) ++ _) (ci_close (the_sim_ci cfg))) as [[] | e2].
    + eexists _, _. split; [reflexivity | ].
      split; [apply Qopen; repeat constructor | ].
      split; [apply Qclear; repeat constructor | ].
      right. eexists. split; reflexivity.
    + eexists _, _. split; [reflexivity | ].
      split; [apply Qopen; repeat constructor | ].
      split; [apply Qclear; repeat constructor | ].
      right. eexists. split; reflexivity.
  - eexists _, _. split; [reflexivity | ].
    split; [apply Qopen; repeat constructor | ].
    split; [apply Qclear; repeat constructor | ].
    left. eexists. split; reflexivity.
Qed.

Lemma quiet_open_channels p cfg : blind_before_loop p -> quiet p (open_channels cfg).
Proof.
  intros Hp. unfold open_channels.
  repeat first [ apply quiet_call; intros ?; apply Hp; left; reflexivity
               | quiet_step blind_is_open_wb ].
Qed.

(** C4.  Compatibility gate.  When both peers declare their types and the
    simulator's observations are not usable as the agent's observations, or
    the agent's commands are not usable as the simulator's commands, [main]
    fails with the mismatch right after the three channels were opened and
    their protocols read: it has opened no log file and has sent no [clear]
    (no episode was started), nor anything else.  The truth value of the
    object that [can_be_used_as2] returns is taken to be its [result], which
    the test of the commands relies on. *)
Theorem compatibility_gate fuel sfuel cfg log_dir attempts h sim_protocol agent_protocol
    es0 obs_sim cmd_sim obs_agent cmd_agent :
  open_channels cfg h = (Ok (Some sim_protocol, Some agent_protocol), es0) ->
  declared_types sim_protocol agent_protocol
  = Some (obs_sim, cmd_sim, obs_agent, cmd_agent) ->
  truth (can_be_used_as2 cmd_agent cmd_sim) = result (can_be_used_as2 cmd_agent cmd_sim) ->
  result (can_be_used_as2 obs_sim obs_agent) = false
  \/ result (can_be_used_as2 cmd_agent cmd_sim) = false ->
  exists e,
    main fuel sfuel cfg log_dir attempts h = (Raise e, es0)
    /\ is_mismatch e = true
    /\ count is_open_wb es0 = 0
    /\ count is_clear es0 = 0
    /\ Forall (fun ev => match ev with Ev r _ => is_setup_call r = true end) es0.
Proof.
  intros Hopen Hdecl Htruth Hbad.
  assert (Hq : forall p, blind_before_loop p -> count p es0 = 0).
  { intros p Hp. apply quiet_count. eapply quiet_open_channels; eassumption. }
  assert (Hsetup : exists e, main_setup cfg h = (Raise e, es0) /\ is_mismatch e = true).
  { unfold main_setup. unfold bind at 1. rewrite Hopen.
    unfold declared_types, annotation in Hdecl.
    unfold check_compatibility_between_agent_and_sim, attr_of_protocol, attr_annotations,
    dict_item.
    cbv beta iota zeta delta [bind ret raise fst snd].
    destruct (dict_get (outputs sim_protocol) "robot_observations") as [ro | ];
      [ | discriminate].
    destruct (dict_get (inputs sim_protocol) "set_robot_commands") as [src | ];
      [ | discriminate].
    destruct (dict_get (inputs agent_protocol) "observations") as [oa | ];
      [ | discriminate].
    destruct (dict_get (outputs agent_protocol) "commands") as [ca | ];
      [ | discriminate].
    destruct (annotations_of ro) as [ann_o | ]; [ | discriminate].
    destruct (dict_get ann_o "observations") as [os | ]; [ | discriminate].
    destruct (annotations_of src) as [ann_c | ]; [ | discriminate].
    destruct (dict_get ann_c "commands") as [cs | ]; [ | discriminate].
    injection Hdecl as -> -> -> ->.
    destruct (result (can_be_used_as2 obs_sim obs_agent)); cbn [negb].
    - destruct Hbad as [Hbad | Hbad]; [discriminate | ]. rewrite Htruth, Hbad. cbn [negb].
      rewrite !app_nil_r. eexists; split; reflexivity.
    - rewrite !app_nil_r. eexists; split; reflexivity. }
  destruct Hsetup as (e & Hsetup & He).
  exists e. unfold main, bind. rewrite Hsetup.
  split; [reflexivity | ]. split; [exact He | ].
  split; [apply Hq, blind_before_loop_open_wb | ].
  split; [apply Hq, blind_before_loop_clear | ].
  assert (Q : quiet (fun ev => match ev with Ev r _ => negb (is_setup_call r) end)
                    (open_channels cfg)).
  { unfold open_channels. repeat quiet_step blind_is_open_wb. }
  apply Q in Hopen. eapply Forall_impl; [ | exact Hopen].
  intros [T r a] Hr. now apply negb_false_iff in Hr.
Qed.

(* ------------------------------------------------------------------ *)
(** ** The scores *)

Lemma scores_of_app es1 es2 : scores_of (es1 ++ es2) = scores_of es1 ++ scores_of es2.
Proof.
  induction es1 as [| e es1 IH]; simpl; [reflexivity | ].
  destruct (score_of e); simpl; now rewrite IH.
Qed.

Lemma values_of_Ok ds k h vs es :
  values_of ds k h = (Ok vs, es) ->
  es = []
  /\ vs = flat_map (fun d => match dict_get d k with Some v => [v] | None => [] end) ds
  /\ forall d, In d ds -> dict_get d k <> None.
Proof.
  revert h vs es. induction ds as [| d ds IH]; intros h vs es H; simpl in H.
  - apply ret_Ok in H as [-> ->]. repeat split. intros d [].
  - do 2 inv_bind H. apply ret_Ok in H as [-> ->].
    unfold dict_item in H0. destruct (dict_get d k) as [v | ] eqn:Ed; [ | discriminate].
    apply ret_Ok in H0 as [-> ->].
    apply IH in H1 as (-> & -> & Hall). subst. simpl. rewrite Ed.
    repeat split. intros d' [<- | Hd]; [congruence | now apply Hall].
Qed.

Lemma report_metric_Ok per_episode k h u es :
  report_metric per_episode k h = (Ok u, es) ->
  scores_of es = aggregate_scores per_episode k
  /\ forall d, In d (dict_values per_episode) -> dict_get d k <> None.
Proof.
  unfold report_metric. intros H. do 4 inv_bind H.
  apply values_of_Ok in H0 as (-> & -> & Hall).
  repeat match goal with
         | H : call _ _ = (Ok _, _) |- _ => apply call_Ok in H as [_ ->]
         end.
  subst. split; [reflexivity | exact Hall].
Qed.

Lemma report_scores_Ok per_episode stats h u es :
  report_scores per_episode stats h = (Ok u, es) ->
  scores_of es
  = ("per-episodes", SPerEpisode per_episode)
    :: flat_map (aggregate_scores per_episode) (dict_keys stats)
  /\ forall k d, In k (dict_keys stats) -> In d (dict_values per_episode) ->
                 dict_get d k <> None.
Proof.
  unfold report_scores. intros H. inv_bind H. apply call_Ok in H0 as [_ ->].
  subst es. simpl.
  assert (G : forall keys s0 h u es,
             for_each keys (fun k _ => report_metric per_episode k) s0 h = (Ok u, es) ->
             scores_of es = flat_map (aggregate_scores per_episode) keys
             /\ forall k d, In k keys -> In d (dict_values per_episode) ->
                            dict_get d k <> None).
  { clear. induction keys as [| k keys IH]; intros s0 h u es H; simpl in H.
    - apply ret_Ok in H as [_ ->]. split; [reflexivity | intros k d []].
    - inv_bind H. apply report_metric_Ok in H0 as [S1 A1].
      apply IH in H as [S2 A2]. subst es. rewrite scores_of_app, S1, S2.
      split; [reflexivity | ].
      intros k' d [<- | Hk] Hd; [now apply A1 | now apply A2]. }
  apply G in H as [S A]. rewrite S. split; [reflexivity | exact A].
Qed.

Lemma dict_get_set_same V (d : Dict V) k v : dict_get (dict_set d k v) k = Some v.
Proof.
  induction d as [| [k' v'] d IH]; simpl.
  - now rewrite String.eqb_refl.
  - destruct (String.eqb k' k) eqn:E; simpl; rewrite E; [reflexivity | exact IH].
Qed.



(* ------------------------------------------------------------------ *)
(** ** More properties of the program *)

(** *** Rules for [always] *)

Section Always.

Variable P : Event -> Prop.

Lemma always_ret A (a : A) : always P (ret a).
Proof. intros h o es [= <- <-]. constructor. Qed.

Lemma always_raise A e : always P (@raise A e).
Proof. intros h o es [= <- <-]. constructor. Qed.

Lemma always_out_of_fuel A : always P (@out_of_fuel A).
Proof. intros h o es [= <- <-]. constructor. Qed.

Lemma always_call T (r : Request T) : (forall a, P (Ev r a)) -> always P (call r).
Proof.
  intros Hr h o es. unfold call.
  destruct (world h r); intros [= <- <-]; repeat constructor; apply Hr.
Qed.

(** [bind] with a fact [Q] about what the first part returns. *)
Lemma always_bind_post A B (Q : A -> Prop) (m : M A) (f : A -> M B) :
  (forall h a es, m h = (Ok a, es) -> Q a) ->
  always P m -> (forall a, Q a -> always P (f a)) -> always P (bind m f).
Proof.
  intros HQ Hm Hf h o es. unfold bind.
  destruct (m h) as [[a | e | ] es1] eqn:Em; pose proof (Hm _ _ _ Em) as Q1.
  - destruct (f a (h ++ es1)) as [o' es2] eqn:Ef. intros [= <- <-].
    apply Forall_app. split; [exact Q1 | ].
    exact (Hf a (HQ _ _ _ Em) _ _ _ Ef).
  - intros [= <- <-]. exact Q1.
  - intros [= <- <-]. exact Q1.
Qed.

Lemma always_bind A B (m : M A) (f : A -> M B) :
  always P m -> (forall a, always P (f a)) -> always P (bind m f).
Proof.
  intros Hm Hf. apply always_bind_post with (Q := fun _ => True); auto.
Qed.

Lemma always_try_except A (m : M A) handler :
  always P m -> (forall e, always P (handler e)) -> always P (try_except m handler).
Proof.
  intros Hm Hf h o es. unfold try_except.
  destruct (m h) as [[a | e | ] es1] eqn:Em; pose proof (Hm _ _ _ Em) as Q1.
  - intros [= <- <-]. exact Q1.
  - destruct (handler e (h ++ es1)) as [o' es2] eqn:Ef. intros [= <- <-].
    apply Forall_app. split; [exact Q1 | exact (Hf _ _ _ _ Ef)].
  - intros [= <- <-]. exact Q1.
Qed.

Lemma always_for_each_invariant X S (Q : S -> Prop) (body : X -> S -> M S) xs :
  (forall x s, Q s -> always P (body x s)) ->
  (forall x s h s' es, Q s -> body x s h = (Ok s', es) -> Q s') ->
  forall s, Q s -> always P (for_each xs body s).
Proof.
  intros Hb HQ. induction xs as [| x xs IH]; intros s Hs; simpl.
  - apply always_ret.
  - apply always_bind_post with (Q := Q).
    + intros h a es H. exact (HQ _ _ _ _ _ Hs H).
    + now apply Hb.
    + exact IH.
Qed.

Lemma always_dict_item V (d : Dict V) k : always P (dict_item d k).
Proof. unfold dict_item. destruct (dict_get d k); [apply always_ret | apply always_raise]. Qed.

End Always.

Ltac always_step :=
  first [ apply always_ret | apply always_raise | apply always_out_of_fuel
        | apply always_call; intros ?; simpl; solve [auto | reflexivity]
        | apply always_dict_item
        | apply always_bind; [ | intros ? ]
        | apply always_try_except; [ | intros ? ]
        | match goal with |- always _ (if ?b then _ else _) => destruct b end
        | match goal with |- always _ (match ?d with _ => _ end) => destruct d end ].

(** *** [get_episodes] *)

(** X1.  A scenario is expanded into [episodes_per_scenario] episodes (none
    when that number is zero or negative), which all refer to the scenario
    and have pairwise distinct names. *)
Theorem episodes_of_scenario_distinct episodes_per_scenario sc :
  List.length (episodes_of_scenario episodes_per_scenario sc)
  = Z.to_nat episodes_per_scenario
  /\ NoDup (map episode_name (episodes_of_scenario episodes_per_scenario sc))
  /\ Forall (fun e => scenario e = sc) (episodes_of_scenario episodes_per_scenario sc).
Proof.
  unfold episodes_of_scenario, py_range. split; [ | split].
  - now rewrite length_map, length_seq.
  - rewrite map_map. simpl.
    generalize (seq_NoDup (Z.to_nat episodes_per_scenario) 0).
    generalize (seq 0 (Z.to_nat episodes_per_scenario)). intros l Hl.
    induction Hl as [| i l Hi Hl IH]; simpl; constructor; [ | exact IH].
    intros Hin. apply in_map_iff in Hin as (j & E & Hj).
    apply string_app_inv_head in E. apply (string_app_inv_head "-") in E.
    apply str_of_nat_inj in E. now subst.
  - apply Forall_map, Forall_forall. reflexivity.
Qed.

Lemma collect_episodes_Ok fuel sm_ci eps :
  forall acc h episodes es,
    collect_episodes fuel sm_ci eps acc h = (Ok episodes, es) ->
    episodes = acc ++ flat_map (episodes_of_scenario eps) (flat_map scenario_received es)
    /\ List.length (flat_map scenario_received es) < fuel
    /\ exists es' m,
        es = es' ++ [ Ev (write_topic_and_expect sm_ci "next_scenario" PNone None)
                         (Returned m);
                      Ev (ci_close sm_ci) (Returned tt) ]
        /\ topic m = "finished"
        /\ count is_any_close es' = 0.
Proof.
  induction fuel as [| fuel IH]; intros acc h episodes es H; simpl in H; [discriminate | ].
  inv_bind H. apply call_Ok in H0 as [_ ->].
  destruct (String.eqb (topic a) "finished") eqn:Efin.
  - inv_bind H. apply ret_Ok in H as [-> ->].
    match goal with Hc : call _ _ = _ |- _ => apply call_Ok in Hc as [_ ->] end.
    repeat match goal with u : unit |- _ => destruct u end. subst. simpl. rewrite Efin. simpl. rewrite !app_nil_r.
    split; [reflexivity | ]. split; [lia | ].
    exists [], a. apply String.eqb_eq in Efin. auto.
  - inv_bind H. unfold as_scenario in H0.
    destruct (data a) as [ | | | | sc] eqn:Ed; try discriminate.
    apply ret_Ok in H0 as [-> ->].
    apply IH in H as (Hep & Hlen & es' & m & Htail & Hm & Hc).
    subst. simpl. rewrite Efin, Ed. simpl.
    split; [now rewrite <- app_assoc | ]. split; [lia | ].
    exists (Ev (write_topic_and_expect sm_ci "next_scenario" PNone None) (Returned a) :: es'), m.
    split; [reflexivity | ]. split; [exact Hm | ].
    unfold count in *. simpl. exact Hc.
Qed.

(** X2.  When [get_episodes] returns, the list is made of the episodes of
    each scenario that the scenario maker sent, in the order they were sent;
    the run ends with the [finished] reply followed by the [close] of the
    scenario maker's channel, which is the only [close]; and the number of
    scenarios is below the fuel. *)
Theorem get_episodes_returns fuel sm_ci episodes_per_scenario seed h episodes es :
  get_episodes fuel sm_ci episodes_per_scenario seed h = (Ok episodes, es) ->
  episodes = flat_map (episodes_of_scenario episodes_per_scenario)
               (flat_map scenario_received es)
  /\ List.length (flat_map scenario_received es) < fuel
  /\ exists es' m,
      es = es' ++ [ Ev (write_topic_and_expect sm_ci "next_scenario" PNone None)
                       (Returned m);
                    Ev (ci_close sm_ci) (Returned tt) ]
      /\ topic m = "finished"
      /\ count is_any_close es' = 0.
Proof.
  unfold get_episodes. intros H. inv_bind H. apply call_Ok in H0 as [_ ->].
  apply collect_episodes_Ok in H as (Hep & Hlen & es' & m & Htail & Hm & Hc).
  subst. simpl. split; [reflexivity | ]. split; [exact Hlen | ].
  exists (Ev (write_topic_and_expect_zero sm_ci "seed" (PSeed seed)) (Returned a) :: es'), m.
  split; [reflexivity | ]. split; [exact Hm | ].
  unfold count in *. simpl. exact Hc.
Qed.

(** *** The agents of the playable robots *)

(** X3.  The agents are assigned to the playable robots by position: when
    the names are pairwise distinct, the robot at position [i] talks to the
    agent at position [i], and a playable robot beyond the number of agents
    has no agent (the lookup raises [KeyError]). *)
Theorem agents_assigned_by_position (names : list string)
    (agents : list ComponentInterface) i robot_name :
  NoDup names ->
  nth_error names i = Some robot_name ->
  dict_get (dict_of_pairs (combine names agents)) robot_name = nth_error agents i.
Proof.
  intros Hnd Hi.
  rewrite dict_of_pairs_NoDup by now apply combine_fst_NoDup.
  now apply dict_get_combine_nth.
Qed.

Lemma length_playable_entries (d : Dict ScenarioRobotSpec) :
  List.length (map fst (filter (fun kv => playable (snd kv)) d))
  = List.length (filter playable (dict_values d)).
Proof.
  unfold dict_values. induction d as [| [k v] d IH]; simpl; [reflexivity | ].
  destruct (playable v); simpl; now rewrite IH.
Qed.

(** X25.  The robot count that [main] checks is the one that [run_episode]
    relies on: when the robots of the scenario have pairwise distinct names
    and the number of playable entries equals the number of agents, every
    playable robot has an agent, the one at its position among the playable
    robots; the lookup in [run_episode] cannot raise [KeyError]. *)
Theorem every_playable_robot_has_an_agent sc (agents : list ComponentInterface)
    robot_name :
  NoDup (dict_keys (robots sc)) ->
  List.length (filter playable (dict_values (robots sc))) = List.length agents ->
  In robot_name (playable_robots sc) ->
  exists i agent,
    nth_error (playable_robots sc) i = Some robot_name
    /\ nth_error agents i = Some agent
    /\ dict_get (dict_of_pairs (combine (playable_robots sc) agents)) robot_name
       = Some agent.
Proof.
  intros Hnd Hlen Hin.
  assert (Hnd' : NoDup (playable_robots sc)) by now apply NoDup_filter.
  assert (Hlen' : List.length (playable_robots sc) = List.length agents).
  { destruct (playable_robots_in_scenario_order sc Hnd) as [-> _].
    now rewrite length_playable_entries. }
  apply In_nth_error in Hin as [i Hi].
  assert (Hlt : i < List.length agents).
  { rewrite <- Hlen'. apply nth_error_Some. congruence. }
  destruct (nth_error agents i) as [agent | ] eqn:Ha;
    [ | apply nth_error_None in Ha; lia].
  exists i, agent. split; [exact Hi | ]. split; [exact Ha | ].
  rewrite dict_of_pairs_NoDup by now apply combine_fst_NoDup.
  rewrite (dict_get_combine_nth _ agents Hnd' i robot_name Hi). exact Ha.
Qed.

(** *** [check_compatibility_between_agent_and_sim] *)

(** X4.  With the types declared on both sides, the check talks to no peer;
    it tests the observations first and the commands second, raises the
    mismatch of the first test that fails, and returns when the [result] of
    the first comparison and the truth value of the second are both true. *)
Theorem compatibility_check_decides agent_ci sim_protocol agent_protocol h
    obs_sim cmd_sim obs_agent cmd_agent :
  declared_types sim_protocol agent_protocol
  = Some (obs_sim, cmd_sim, obs_agent, cmd_agent) ->
  check_compatibility_between_agent_and_sim agent_ci (Some agent_protocol)
    (Some sim_protocol) h
  = (if result (can_be_used_as2 obs_sim obs_agent)
     then if truth (can_be_used_as2 cmd_agent cmd_sim)
          then Ok tt
          else Raise (PyException (CommandsMismatch (can_be_used_as2 cmd_agent cmd_sim)))
     else Raise (PyException (ObservationsMismatch (can_be_used_as2 obs_sim obs_agent))),
     []).
Proof.
  intros Hdecl. unfold declared_types, annotation in Hdecl.
  unfold check_compatibility_between_agent_and_sim, attr_of_protocol, attr_annotations,
    dict_item.
  cbv beta iota zeta delta [bind ret raise fst snd].
  destruct (dict_get (outputs sim_protocol) "robot_observations") as [ro | ];
    [ | discriminate].
  destruct (dict_get (inputs sim_protocol) "set_robot_commands") as [src | ];
    [ | discriminate].
  destruct (dict_get (inputs agent_protocol) "observations") as [oa | ];
    [ | discriminate].
  destruct (dict_get (outputs agent_protocol) "commands") as [ca | ];
    [ | discriminate].
  destruct (annotations_of ro) as [ann_o | ]; [ | discriminate].
    destruct (dict_get ann_o "observations") as [os | ]; [ | discriminate].
  destruct (annotations_of src) as [ann_c | ]; [ | discriminate].
    destruct (dict_get ann_c "commands") as [cs | ]; [ | discriminate].
  injection Hdecl as -> -> -> ->.
  destruct (result (can_be_used_as2 obs_sim obs_agent)); cbn [negb]; [ | reflexivity].
  destruct (truth (can_be_used_as2 cmd_agent cmd_sim)); reflexivity.
Qed.

(** X5.  An agent without reflection ([node_protocol] is [None]) passes the
    check whatever its types are: nothing is compared; the simulator's type
    of commands, then its type of observations, are written into the
    protocol expected of the agent. *)
Theorem agent_without_reflection_adopts agent_ci sim_protocol obs_sim cmd_sim h o es :
  sim_declared_types sim_protocol = Some (obs_sim, cmd_sim) ->
  check_compatibility_between_agent_and_sim agent_ci None (Some sim_protocol) h = (o, es) ->
  (exists e, es = [Ev (set_expect_protocol agent_ci true "commands" cmd_sim) (Raised e)]
             /\ o = Raise e)
  \/ (exists a2,
        es = [ Ev (set_expect_protocol agent_ci true "commands" cmd_sim) (Returned tt);
               Ev (set_expect_protocol agent_ci false "observations" obs_sim) a2 ]
        /\ o = match a2 with Returned _ => Ok tt | Raised e => Raise e end).
Proof.
  intros Hdecl. unfold sim_declared_types, annotation in Hdecl.
  unfold check_compatibility_between_agent_and_sim, attr_of_protocol, attr_annotations,
    dict_item.
  cbv beta iota zeta delta [bind ret raise fst snd].
  destruct (dict_get (outputs sim_protocol) "robot_observations") as [ro | ];
    [ | discriminate].
  destruct (dict_get (inputs sim_protocol) "set_robot_commands") as [src | ];
    [ | discriminate].
  destruct (annotations_of ro) as [ann_o | ]; [ | discriminate].
    destruct (dict_get ann_o "observations") as [os | ]; [ | discriminate].
  destruct (annotations_of src) as [ann_c | ]; [ | discriminate].
    destruct (dict_get ann_c "commands") as [cs | ]; [ | discriminate].
  injection Hdecl as -> ->.
  unfold call. destruct_world; intros [= <- <-];
    repeat match goal with u : unit |- _ => destruct u end; simpl.
  - right. eexists. split; reflexivity.
  - right. eexists. split; reflexivity.
  - left. eexists. split; reflexivity.
Qed.

(** X6.  A simulator without a protocol makes the check raise
    [AttributeError]; with both protocols there and a type that is not
    declared, the check raises [KeyError] for one of the four keys it looks
    up, or [AttributeError] when a type of the simulator that it looks up
    has no [__annotations__].  In all these cases no peer has been talked
    to. *)
Theorem compatibility_check_missing_type agent_ci agent_protocol sim_protocol h :
  check_compatibility_between_agent_and_sim agent_ci agent_protocol None h
  = (Raise (AttributeError "outputs"), [])
  /\ forall q,
      agent_protocol = Some q ->
      declared_types sim_protocol q = None ->
      exists e,
        check_compatibility_between_agent_and_sim agent_ci agent_protocol
          (Some sim_protocol) h
        = (Raise e, [])
        /\ ((exists k, In k protocol_keys /\ e = KeyError k)
            \/ (e = AttributeError "__annotations__"
                /\ exists t,
                    (dict_get (outputs sim_protocol) "robot_observations" = Some t
                     \/ dict_get (inputs sim_protocol) "set_robot_commands" = Some t)
                    /\ annotations_of t = None)).
Proof.
  split; [reflexivity | ]. intros q -> Hdecl. unfold declared_types, annotation in Hdecl.
  unfold check_compatibility_between_agent_and_sim, attr_of_protocol, attr_annotations,
    dict_item.
  cbv beta iota zeta delta [bind ret raise fst snd].
  destruct (dict_get (outputs sim_protocol) "robot_observations") as [ro | ] eqn:Ero;
    [ | eexists; split; [reflexivity | left; eexists; split; [ | reflexivity]; simpl; tauto]].
  destruct (annotations_of ro) as [ann_o | ] eqn:Eao;
    [ | eexists; split; [reflexivity | right; split; [reflexivity | ]];
        exists ro; split; [now left | exact Eao]].
  destruct (dict_get ann_o "observations") as [os | ];
    [ | eexists; split; [reflexivity | left; eexists; split; [ | reflexivity]; simpl; tauto]].
  destruct (dict_get (inputs sim_protocol) "set_robot_commands") as [src | ] eqn:Esrc;
    [ | eexists; split; [reflexivity | left; eexists; split; [ | reflexivity]; simpl; tauto]].
  destruct (annotations_of src) as [ann_c | ] eqn:Eac;
    [ | eexists; split; [reflexivity | right; split; [reflexivity | ]];
        exists src; split; [now right | exact Eac]].
  destruct (dict_get ann_c "commands") as [cs | ];
    [ | eexists; split; [reflexivity | left; eexists; split; [ | reflexivity]; simpl; tauto]].
  destruct (dict_get (inputs q) "observations") as [oa | ];
    [ | eexists; split; [reflexivity | left; eexists; split; [ | reflexivity]; simpl; tauto]].
  destruct (dict_get (outputs q) "commands") as [ca | ];
    [ | eexists; split; [reflexivity | left; eexists; split; [ | reflexivity]; simpl; tauto]].
  discriminate.
Qed.

(** *** Rules for [sends] *)

Section Sends.

Context {L : Type} (f : Event -> L).

Lemma sends_ret A (a : A) : sends f (ret a) [].
Proof. intros h o es [= <- <-]. split; [apply prefix_nil | reflexivity]. Qed.

Lemma sends_call T (r : Request T) x :
  (forall a, f (Ev r a) = x) -> sends f (call r) [x].
Proof.
  intros Hr h o es. unfold call.
  destruct (world h r); intros [= <- <-]; simpl; rewrite Hr;
    (split; [apply prefix_refl | reflexivity]).
Qed.

Lemma sends_bind A B (m : M A) (k : A -> M B) l1 l2 :
  sends f m l1 -> (forall a, sends f (k a) l2) -> sends f (bind m k) (l1 ++ l2).
Proof.
  intros Hm Hk h o es. unfold bind.
  destruct (m h) as [[a | e | ] es1] eqn:Em; destruct (Hm _ _ _ Em) as [P1 Q1].
  - destruct (k a (h ++ es1)) as [o' es2] eqn:Ek. intros [= <- <-].
    destruct (Hk a _ _ _ Ek) as [P2 Q2]. rewrite map_app, (Q1 eq_refl). split.
    + now apply prefix_app.
    + intros Hok. now rewrite (Q2 Hok).
  - intros [= <- <-]. split; [now apply prefix_app_l | discriminate].
  - intros [= <- <-]. split; [now apply prefix_app_l | discriminate].
Qed.

Lemma sends_for_each X S (body : X -> S -> M S) (label : X -> L) xs :
  (forall x s, sends f (body x s) [label x]) ->
  forall s, sends f (for_each xs body s) (map label xs).
Proof.
  intros Hbody. induction xs as [| x xs IH]; intros s; simpl.
  - apply sends_ret.
  - apply sends_bind with (l1 := [label x]); [apply Hbody | intros s'; apply IH].
Qed.

End Sends.

(** *** [run_episode] *)

(** X8.  The initialisation of an episode writes, in this order: [clear]
    and [set_map] with the scenario's environment to the simulator; one
    [spawn_robot] per robot of the scenario, in its order, with the robot's
    configuration and playable flag; [episode_start] with the episode name
    to the simulator, then to every agent in order.  A call that raises
    cuts the sequence there. *)
Theorem initialisation_sequence sim_ci agents episode_name sc :
  sends sent (episode_init sim_ci agents episode_name sc)
        (init_messages sim_ci agents episode_name sc).
Proof.
  unfold episode_init, init_messages.
  apply sends_bind with (l1 := [_]) (l2 := _ :: _); [now apply sends_call | intros _].
  apply sends_bind with (l1 := [_]); [now apply sends_call | intros _].
  apply sends_bind.
  - apply sends_for_each. intros kv s. now apply sends_call.
  - intros _. apply sends_bind with (l1 := [_]); [now apply sends_call | intros _].
    apply sends_for_each. intros agent s. now apply sends_call.
Qed.

Lemma key_set_fold names :
  forall keys, fold_left key_set names keys = keys ++ first_occurrences keys names.
Proof.
  induction names as [| n names IH]; intros keys; simpl.
  - now rewrite app_nil_r.
  - unfold key_set at 2. destruct (existsb (String.eqb n) keys); rewrite IH.
    + reflexivity.
    + now rewrite <- app_assoc.
Qed.

Lemma first_occurrences_app a :
  forall seen b,
    first_occurrences seen (a ++ b)
    = first_occurrences seen a
      ++ first_occurrences (seen ++ first_occurrences seen a) b.
Proof.
  induction a as [| n a IH]; intros seen b; simpl.
  - now rewrite app_nil_r.
  - destruct (existsb (String.eqb n) seen); rewrite IH; [reflexivity | ].
    simpl. now rewrite <- app_assoc.
Qed.

(** The phases of a record after [names] were measured, one after the
    other. *)
Lemma phases_measured tt names :
  phases (fold_left measure names tt)
  = phases tt ++ first_occurrences (phases tt) names.
Proof.
  rewrite <- key_set_fold. revert tt.
  induction names as [| n names IH]; intros tt; simpl; [reflexivity | ].
  now rewrite IH.
Qed.

(** X9.  A whole exchange about a playable robot: the three queries carry
    the robot's name and the effective time of the iteration; the agent is
    sent exactly the observations that the simulator returned; and the
    simulator is sent exactly the data of the agent's reply to
    [get_commands], tagged with the same effective time.  The five phases
    of the exchange are recorded in the timing record: those that it has
    already (as [set_robot_commands] from an earlier robot) keep their place,
    the others are added at its end, in order. *)
Theorem robot_exchange_forwards sim_ci p2a t robot_name tt0 h tt1 es :
  playable_step sim_ci p2a t robot_name tt0 h = (Ok tt1, es) ->
  exists agent m1 m2 tp obs r,
    dict_get p2a robot_name = Some agent
    /\ es = [ Ev (write_topic_and_expect sim_ci "get_robot_state"
                   (PGetRobotState robot_name t) (Some "robot_state")) (Returned m1);
             Ev (write_topic_and_expect sim_ci "get_robot_performance"
                   (PRobotName robot_name) (Some "robot_performance")) (Returned m2);
             Ev (write_topic_and_expect sim_ci "get_robot_observations"
                   (PGetRobotObservations robot_name t) (Some "robot_observations"))
                (Returned {| topic := tp; data := DRobotObservations obs |});
             Ev (write_topic_and_expect_zero agent "observations" (PObservations obs))
                (Returned tt);
             Ev (write_topic_and_expect agent "get_commands" PNone (Some "commands"))
                (Returned r);
             Ev (write_topic_and_expect_zero sim_ci "set_robot_commands"
                   (PSetRobotCommands robot_name (data r) t)) (Returned tt) ]
    /\ phases tt1
       = phases tt0 ++ first_occurrences (phases tt0) (exchange_phases robot_name).
Proof.
  unfold playable_step, dict_item.
  destruct (dict_get p2a robot_name) as [agent | ]; [ | discriminate].
  unfold bind, try_except, attr_observations, call, ret, raise.
  destruct_world; try discriminate.
  all: repeat match goal with
              | |- context [data ?v] => is_var v; destruct v as [? []]
              end; simpl; try discriminate.
  all: destruct_world; simpl; try discriminate.
  all: destruct_world; simpl; try discriminate.
  all: destruct_world; simpl; try discriminate.
  all: intros [= <- <-].
  all: repeat match goal with u : unit |- _ => destruct u end.
  all: eexists _, _, _, _, _, _; split; [reflexivity | split; [reflexivity | ]].
  all: exact (phases_measured tt0 (exchange_phases robot_name)).
Qed.

(** *** The timing records and the effective time of [run_episode] *)

Lemma timing_records_of_step_loop fuel sim_ci p2a playable not_playable dt len steps :
  forall t,
    always (timing_record_of_step steps)
           (step_loop fuel sim_ci p2a playable not_playable dt len steps t).
Proof.
  induction fuel as [| fuel IH]; intros t; simpl.
  - apply always_out_of_fuel.
  - destruct (float_ge t len); [apply always_ret | ].
    apply always_bind; [ | intros [t' | ]; [apply IH | apply always_ret]].
    unfold step_iteration.
    apply always_bind_post with (Q := fun tt1 => tt_steps tt1 = steps).
    + intros h tt1 es H. now apply robots_phase_steps in H.
    + unfold robots_phase. apply always_bind.
      * apply always_for_each_invariant with (Q := fun _ => True); auto.
        intros x s _. unfold playable_step, attr_observations. repeat always_step.
      * intros tt1. apply always_for_each_invariant with (Q := fun _ => True); auto.
        intros x s _. unfold not_playable_step. repeat always_step.
    + intros tt1 Htt1. unfold attr_done, log_timing_info.
      repeat always_step.
Qed.

(** X11.  The step counter of [run_episode] is never incremented: every
    timing record that a run serialises, in whatever iteration, carries the
    step index 0. *)
Theorem timing_records_carry_step_zero fuel sim_ci agents physics_dt episode_name
    scenario episode_length_s :
  always (timing_record_of_step 0)
         (run_episode fuel sim_ci agents physics_dt episode_name scenario
            episode_length_s).
Proof.
  unfold run_episode. apply always_bind.
  - unfold episode_init. apply always_bind; [repeat always_step | intros _].
    apply always_bind; [repeat always_step | intros _].
    apply always_bind.
    + apply always_for_each_invariant with (Q := fun _ => True); auto.
      intros x s _. repeat always_step.
    + intros _. apply always_bind; [repeat always_step | intros _].
      apply always_for_each_invariant with (Q := fun _ => True); auto.
      intros x s _. repeat always_step.
  - intros _. apply timing_records_of_step_loop.
Qed.

Lemma last_cons_default X (a : X) l d : last (a :: l) d = last l a.
Proof.
  revert a d. induction l as [| b l IH]; intros a d; [reflexivity | ].
  change (last (a :: b :: l) d) with (last (b :: l) d).
  rewrite (IH b d), (IH b a). reflexivity.
Qed.

Lemma time_reached_cons t0 e es :
  time_reached t0 (e :: es)
  = time_reached (match step_time e with Some t => t | None => t0 end) es.
Proof.
  unfold time_reached, steps_sent. simpl.
  destruct (step_time e); [apply last_cons_default | reflexivity].
Qed.

Lemma timed_app t0 es1 es2 :
  timed t0 es1 -> timed (time_reached t0 es1) es2 -> timed t0 (es1 ++ es2).
Proof.
  revert t0. induction es1 as [| e es1 IH]; intros t0; simpl; [auto | ].
  intros [He H1] H2. split; [exact He | ].
  apply IH; [exact H1 | ]. now rewrite <- time_reached_cons.
Qed.

Lemma timed_split t0 es :
  timed t0 es ->
  forall es1 e es2, es = es1 ++ e :: es2 -> tagged_with (time_reached t0 es1) e.
Proof.
  intros H es1. revert t0 es H.
  induction es1 as [| e1 es1 IH]; intros t0 es H e es2 ->; simpl in H.
  - exact (proj1 H).
  - rewrite time_reached_cons. destruct H as [_ H]. eapply IH; [exact H | reflexivity].
Qed.

(** Messages between two steps: all tagged with [t0], none of them a step. *)
Lemma timed_between_steps t0 es :
  Forall (fun e => tagged_with t0 e /\ step_time e = None) es ->
  timed t0 es /\ time_reached t0 es = t0.
Proof.
  induction 1 as [| e es [He Hs] _ [IH1 IH2]]; [split; [exact I | reflexivity] | ].
  rewrite time_reached_cons. simpl. rewrite Hs. auto.
Qed.

Lemma robots_phase_between_steps sim_ci p2a playable not_playable t tt0 :
  always (fun e => tagged_with t e /\ step_time e = None)
         (robots_phase sim_ci p2a playable not_playable t tt0).
Proof.
  unfold robots_phase. apply always_bind.
  - apply always_for_each_invariant with (Q := fun _ => True); auto.
    intros x s _. unfold playable_step, attr_observations, tagged_with.
    repeat always_step.
  - intros tt1. apply always_for_each_invariant with (Q := fun _ => True); auto.
    intros x s _. unfold not_playable_step, tagged_with. repeat always_step.
Qed.

Lemma step_iteration_timed sim_ci p2a playable not_playable dt steps t h o es :
  step_iteration sim_ci p2a playable not_playable dt steps t h = (o, es) ->
  timed t es.
Proof.
  unfold step_iteration, bind.
  destruct (robots_phase _ _ _ _ _ _ h) as [o1 es1] eqn:E1.
  pose proof (robots_phase_between_steps _ _ _ _ _ _ _ _ _ E1) as Q.
  apply timed_between_steps in Q as [Q1 Q2].
  destruct o1 as [tt1 | e | ]; [ | now intros [= <- <-] | now intros [= <- <-]].
  unfold log_timing_info, call, attr_done, bind, ret, raise.
  destruct_world; simpl.
  2: { intros [= <- <-]. apply timed_app; [exact Q1 | simpl; unfold tagged_with; simpl; auto]. }
  destruct v as [tp [ | ? | ? | [ | ] ? ? | ? ]]; simpl.
  all: repeat (destruct_world; simpl).
  all: intros [= <- <-]; apply timed_app; [exact Q1 | ].
  all: simpl; unfold tagged_with; simpl; auto 10.
Qed.

Lemma step_loop_timed fuel sim_ci p2a playable not_playable dt len steps :
  forall t h o es,
    step_loop fuel sim_ci p2a playable not_playable dt len steps t h = (o, es) ->
    timed t es.
Proof.
  induction fuel as [| fuel IH]; intros t h o es; simpl.
  - intros [= <- <-]. exact I.
  - destruct (float_ge t len); [intros [= <- <-]; exact I | ].
    unfold bind.
    destruct (step_iteration _ _ _ _ _ _ _ h) as [o1 es1] eqn:E1.
    pose proof (step_iteration_timed _ _ _ _ _ _ _ _ _ _ E1) as T1.
    pose proof (step_iteration_run _ _ _ _ _ _ _ _ _ _ E1) as R1.
    destruct o1 as [[t' | ] | e | ]; [ | | | contradiction].
    + destruct R1 as (-> & S1 & _).
      destruct (step_loop _ _ _ _ _ _ _ _ _ (h ++ es1)) as [o2 es2] eqn:E2.
      intros [= <- <-]. apply timed_app; [exact T1 | ].
      unfold time_reached. rewrite S1. simpl. exact (IH _ _ _ _ E2).
    + intros [= <- <-]. rewrite app_nil_r. exact T1.
    + intros [= <- <-]. exact T1.
Qed.

(** X12.  Every query about a robot and every command forwarded to the
    simulator is tagged with the simulation time that the run has reached
    when it is sent: the time carried by the last [step] message sent before
    it, and 0.0 before the first step. *)
Theorem messages_tagged_with_time_reached fuel sim_ci agents physics_dt episode_name
    scenario episode_length_s h o es :
  run_episode fuel sim_ci agents physics_dt episode_name scenario episode_length_s h
  = (o, es) ->
  forall es1 e es2 t,
    es = es1 ++ e :: es2 ->
    effective_time e = Some t ->
    t = time_reached 0%float es1.
Proof.
  intros H es1 e es2 t Hes Ht.
  assert (T : timed 0%float es).
  { revert H. unfold run_episode, bind.
    destruct (episode_init _ _ _ _ h) as [o1 es0] eqn:E1.
    assert (Q : Forall (fun e => tagged_with 0%float e /\ step_time e = None) es0).
    { revert E1. generalize h o1 es0.
      change (always (fun e => tagged_with 0%float e /\ step_time e = None)
                     (episode_init sim_ci agents episode_name scenario)).
      unfold episode_init, tagged_with.
      apply always_bind; [repeat always_step | intros _].
      apply always_bind; [repeat always_step | intros _].
      apply always_bind.
      - apply always_for_each_invariant with (Q := fun _ => True); auto.
        intros x s _. repeat always_step.
      - intros _. apply always_bind; [repeat always_step | intros _].
        apply always_for_each_invariant with (Q := fun _ => True); auto.
        intros x s _. repeat always_step. }
    apply timed_between_steps in Q as [Q1 Q2].
    destruct o1 as [[] | e1 | ]; [ | now intros [= <- <-] | now intros [= <- <-]].
    destruct (step_loop _ _ _ _ _ _ _ _ _ (h ++ es0)) as [o2 es'] eqn:E2.
    intros [= <- <-]. apply timed_app; [exact Q1 | ]. rewrite Q2.
    exact (step_loop_timed _ _ _ _ _ _ _ _ _ _ _ _ E2). }
  pose proof (timed_split _ _ T _ _ _ Hes) as G.
  unfold tagged_with in G. rewrite Ht in G. exact G.
Qed.

(** *** How many attempts the episode loop makes *)

Lemma at_most_quiet p A (m : M A) : quiet p m -> at_most p 0 m.
Proof. intros Hq h o es H. rewrite (quiet_count _ _ (Hq _ _ _ H)). constructor. Qed.

Lemma at_most_call p T (r : Request T) : at_most p 1 (call r).
Proof.
  intros h o es. unfold call, count.
  destruct (world h r); intros [= <- <-]; simpl; destruct (p _); simpl; lia.
Qed.

Lemma at_most_bind p A B (m : M A) (f : A -> M B) n1 n2 :
  at_most p n1 m -> (forall a, at_most p n2 (f a)) -> at_most p (n1 + n2) (bind m f).
Proof.
  intros Hm Hf h o es. unfold bind.
  destruct (m h) as [[a | e | ] es1] eqn:Em; pose proof (Hm _ _ _ Em) as Q1;
    try (intros [= <- <-]; lia).
  destruct (f a (h ++ es1)) as [o' es2] eqn:Ef. intros [= <- <-].
  pose proof (Hf _ _ _ _ Ef). rewrite count_app. lia.
Qed.

Lemma quiet_settle_attempt p cfg log_dir attempts s spec length_s stats :
  (forall T (r : Request T) a,
      match r with make_video1 _ _ | os_rename _ _ => p (Ev r a) = false | _ => True end) ->
  quiet p (settle_attempt cfg log_dir attempts s spec length_s stats).
Proof.
  intros Hp. unfold settle_attempt.
  destruct (float_ge length_s (min_episode_length_s cfg)); [ | apply quiet_ret].
  apply quiet_bind; [apply quiet_call; intros a; exact (Hp _ (make_video1 _ _) a) | intros _].
  apply quiet_bind; [apply quiet_call; intros a; exact (Hp _ (os_rename _ _) a) | intros _].
  apply quiet_ret.
Qed.

(** An attempt opens at most one log file, however it ends. *)
Lemma episode_attempt_opens_at_most_one sfuel cfg agent_ci sim_ci agents log_dir
    attempts s spec :
  at_most is_open_wb 1
          (episode_attempt sfuel cfg agent_ci sim_ci agents log_dir attempts s spec).
Proof.
  unfold episode_attempt.
  apply at_most_bind with (n1 := 1) (n2 := 0).
  - unfold attempt_episode.
    do 6 (apply at_most_bind with (n1 := 0) (n2 := 1);
          [apply at_most_quiet; repeat quiet_step blind_is_open_wb | intros ?]).
    apply at_most_bind with (n1 := 1) (n2 := 0); [apply at_most_call | intros _].
    apply at_most_quiet.
    do 3 (apply quiet_bind; [repeat quiet_step blind_is_open_wb | intros ?]).
    apply quiet_bind.
    + apply quiet_run_episode_logged; [apply blind_is_open_wb | reflexivity | reflexivity].
    + intros length_s. repeat quiet_step blind_is_open_wb.
  - intros r. apply at_most_quiet. apply quiet_settle_attempt.
    intros T r0 a. destruct r0; exact I || reflexivity.
Qed.

(** A round that goes on: one log file was opened, and the state either lost
    its head episode or counts one more failure. *)
Lemma episode_attempt_Ok sfuel cfg agent_ci sim_ci agents log_dir attempts s spec h s' es :
  episode_attempt sfuel cfg agent_ci sim_ci agents log_dir attempts s spec h = (Ok s', es) ->
  count is_open_wb es = 1
  /\ st_attempt_i s' = S (st_attempt_i s)
  /\ ((st_episodes s' = tl (st_episodes s) /\ st_nfailures s' = st_nfailures s)
      \/ (st_episodes s' = st_episodes s /\ st_nfailures s' = (st_nfailures s + 1)%Z)).
Proof.
  intros H. unfold episode_attempt in H. inv_bind H.
  pose proof (attempt_episode_opens _ _ _ _ _ _ _ _ _ _ _ _ H0 eq_refl) as Hopen.
  assert (Hq : count is_open_wb es1 = 0).
  { apply quiet_count.
    refine (quiet_settle_attempt is_open_wb _ _ _ _ _ _ _ _ _ _ _ H).
    intros T r0 a0. destruct r0; exact I || reflexivity. }
  apply settle_attempt_Ok in H as (Hi & _ & _ & He & Hn).
  subst es. rewrite count_app, Hopen, Hq. split; [reflexivity | ]. split; [exact Hi | ].
  destruct (float_ge _ _); auto.
Qed.

Lemma episodes_loop_nil fuel sfuel cfg agent_ci sim_ci agents log_dir attempts s :
  st_episodes s = [] ->
  episodes_loop fuel sfuel cfg agent_ci sim_ci agents log_dir attempts s = ret s.
Proof. intros H. destruct fuel; simpl; rewrite H; reflexivity. Qed.

(** X13.  However the episode loop ends (it returns, it raises, a peer
    fails), it has started at most one attempt for each pending episode and
    one for each failure that was still allowed: the number of log files
    opened is bounded by the pending episodes plus
    [max_failures - nfailures]. *)
Theorem attempts_are_bounded fuel sfuel cfg agent_ci sim_ci agents log_dir attempts :
  forall s,
    at_most is_open_wb (attempts_left cfg s)
            (episodes_loop fuel sfuel cfg agent_ci sim_ci agents log_dir attempts s).
Proof.
  induction fuel as [| fuel IH]; intros s h o es; simpl;
    destruct (st_episodes s) as [| spec pending] eqn:Eq;
    try (intros [= <- <-]; apply Nat.le_0_l).
  destruct (max_failures cfg <=? st_nfailures s)%Z eqn:Emax;
    [intros [= <- <-]; apply Nat.le_0_l | ].
  apply Z.leb_gt in Emax. unfold bind.
  destruct (episode_attempt _ _ _ _ _ _ _ s spec h) as [o1 es1] eqn:E1.
  pose proof (episode_attempt_opens_at_most_one _ _ _ _ _ _ _ _ _ _ _ _ E1) as B1.
  assert (Hpos : 1 <= attempts_left cfg s).
  { unfold attempts_left. rewrite Eq. simpl. lia. }
  destruct o1 as [s1 | e | ]; try (intros [= <- <-]; lia).
  destruct (episodes_loop fuel _ _ _ _ _ _ _ s1 (h ++ es1)) as [o2 es2] eqn:E2.
  intros [= <- <-]. pose proof (IH _ _ _ _ E2) as B2.
  apply episode_attempt_Ok in E1 as (C1 & _ & Hs1).
  rewrite count_app, C1.
  enough (S (attempts_left cfg s1) = attempts_left cfg s) by lia.
  unfold attempts_left.
  destruct Hs1 as [[-> ->] | [-> ->]]; rewrite Eq; simpl; lia.
Qed.

(** X14.  When the episode loop returns, no episode is pending, and the
    attempts it made (the log files it opened, the growth of the attempt
    index) are one for each episode that was pending plus one for each
    failure counted; the failure counter never decreases and, when an
    episode was pending, it has stayed below [max_failures]. *)
Theorem attempts_accounted fuel sfuel cfg agent_ci sim_ci agents log_dir attempts :
  forall s h s' es,
    episodes_loop fuel sfuel cfg agent_ci sim_ci agents log_dir attempts s h = (Ok s', es) ->
    st_episodes s' = []
    /\ count is_open_wb es
       = List.length (st_episodes s) + Z.to_nat (st_nfailures s' - st_nfailures s)
    /\ st_attempt_i s' = st_attempt_i s + count is_open_wb es
    /\ (st_nfailures s <= st_nfailures s')%Z
    /\ (st_episodes s <> [] -> (st_nfailures s' < max_failures cfg)%Z).
Proof.
  induction fuel as [| fuel IH]; intros s h s' es; simpl;
    destruct (st_episodes s) as [| spec pending] eqn:Eq.
  1, 3: intros H; apply ret_Ok in H as [-> ->]; rewrite Z.sub_diag;
    unfold count; simpl; repeat split; solve [assumption | lia | congruence].
  1: unfold out_of_fuel; discriminate.
  destruct (max_failures cfg <=? st_nfailures s)%Z eqn:Emax;
    [unfold raise; discriminate | ].
  apply Z.leb_gt in Emax. intros H. inv_bind H.
  apply episode_attempt_Ok in H0 as (C1 & I1 & Hs1).
  assert (Hnil : st_episodes a = [] -> s' = a /\ es1 = []).
  { intros Ha. rewrite (episodes_loop_nil _ _ _ _ _ _ _ _ _ Ha) in H.
    apply ret_Ok in H as [-> ->]. auto. }
  apply IH in H as (E2 & C2 & I2 & N2 & M2).
  subst es. rewrite count_app, C1, C2, I2, I1, C2.
  rewrite Eq in Hs1. simpl in Hs1.
  destruct Hs1 as [[Hep Hnf] | [Hep Hnf]]; rewrite Hep, Hnf in *; simpl.
  - repeat split; try lia; try assumption.
    intros _. destruct pending as [| spec' pending'].
    + destruct (Hnil eq_refl) as [-> _]. lia.
    + apply M2. discriminate.
  - repeat split; try lia; try assumption.
Qed.

Lemma nofuel_try_finally A (m : M A) fin :
  no_fuel m -> no_fuel fin -> no_fuel (try_finally m fin).
Proof.
  intros Hm Hf h. unfold try_finally. specialize (Hm h).
  destruct (m h) as [[a | e | ] es1]; simpl in *; try congruence.
  all: specialize (Hf (h ++ es1)); destruct (fin (h ++ es1)) as [[[] | e' | ] es2];
    simpl in *; congruence.
Qed.

Lemma nofuel_run_episode sfuel cfg sim_ci agents name sc :
  limit_within sfuel cfg ->
  no_fuel (run_episode sfuel sim_ci agents (physics_dt cfg) name sc (episode_length_s cfg)).
Proof.
  intros (k & Hk & Hreach). unfold run_episode.
  apply nofuel_bind; [apply nofuel_episode_init | intros _ h].
  now apply step_loop_stops_by_the_limit with (k := k).
Qed.

Lemma nofuel_episode_attempt sfuel cfg agent_ci sim_ci agents log_dir attempts s spec :
  limit_within sfuel cfg ->
  no_fuel (episode_attempt sfuel cfg agent_ci sim_ci agents log_dir attempts s spec).
Proof.
  intros Hlim. unfold episode_attempt, attempt_episode, settle_attempt, run_episode_logged.
  apply nofuel_bind.
  - repeat first [ now apply nofuel_run_episode
                 | apply nofuel_try_finally
                 | nofuel_step
                 | match goal with |- no_fuel (if ?b then _ else _) => destruct b end ].
  - intros r. destruct (float_ge _ _); repeat nofuel_step.
Qed.

(** X15.  The episode loop ends: when the step loop reaches the time limit
    within its fuel, fuel for one round more than the attempts that can
    still be made is enough for the loop to return or raise. *)
Theorem episodes_loop_ends fuel sfuel cfg agent_ci sim_ci agents log_dir attempts :
  limit_within sfuel cfg ->
  forall s h,
    attempts_left cfg s < fuel ->
    fst (episodes_loop fuel sfuel cfg agent_ci sim_ci agents log_dir attempts s h)
    <> OutOfFuel.
Proof.
  intros Hlim. induction fuel as [| fuel IH]; intros s h Hfuel; [lia | ]. simpl.
  destruct (st_episodes s) as [| spec pending] eqn:Eq; [discriminate | ].
  destruct (max_failures cfg <=? st_nfailures s)%Z eqn:Emax; [discriminate | ].
  apply Z.leb_gt in Emax. unfold bind.
  pose proof (nofuel_episode_attempt sfuel cfg agent_ci sim_ci agents log_dir attempts
                s spec Hlim h) as F1.
  destruct (episode_attempt _ _ _ _ _ _ _ s spec h) as [[s1 | e | ] es1] eqn:E1;
    [ | discriminate | contradiction].
  apply episode_attempt_Ok in E1 as (_ & _ & Hs1).
  specialize (IH s1 (h ++ es1)).
  destruct (episodes_loop fuel _ _ _ _ _ _ _ s1 (h ++ es1)) as [o2 es2]. simpl in *.
  apply IH. unfold attempts_left in *.
  destruct Hs1 as [[-> ->] | [-> ->]]; rewrite Eq in *; simpl in *; lia.
Qed.

(** *** An attempt for a scenario with the wrong number of playable robots *)

(** X16.  When the number of playable robots of the scenario differs from
    the number of agents, the attempt fails before the simulator is sent
    anything: unless a call of its preparation raised, the attempt raises the
    robot-count failure right after it opened the temporary log file and
    told the two channels to copy into it.  Either way no [clear] is sent,
    and the log file is neither closed nor renamed. *)
Theorem robots_mismatch_stops_attempt sfuel cfg agent_ci sim_ci agents log_dir attempts
    i spec h o es :
  List.length (filter playable (dict_values (robots (scenario spec))))
  <> List.length agents ->
  attempt_episode sfuel cfg agent_ci sim_ci agents log_dir attempts i spec h = (o, es) ->
  count is_clear es = 0 /\ count is_file_close es = 0 /\ count is_any_rename es = 0
  /\ ((o = Raise (PyException
                    (RobotsMismatch
                       (List.length (filter playable
                                       (dict_values (robots (scenario spec)))))
                       (List.length agents)))
       /\ exists es',
           let fn_tmp :=
             tmp_log_file (attempt_dir attempts (episode_name spec) i) in
           es = es' ++ [ Ev (open_wb fn_tmp) (Returned tt);
                         Ev (ci_cc agent_ci fn_tmp) (Returned tt);
                         Ev (ci_cc sim_ci fn_tmp) (Returned tt) ])
      \/ (exists e es' ev, o = Raise e /\ es = es' ++ [ev] /\ raised_by e ev)).
Proof.
  intros Hn. apply Nat.eqb_neq in Hn.
  unfold attempt_episode. cbv zeta. rewrite Hn. simpl negb. cbv iota.
  unfold bind, call, ret, raise.
  repeat (destruct_world; simpl;
          try match goal with
              | |- context [if ?b then _ else _] => is_var b; destruct b; simpl
              | |- context [if negb ?b then _ else _] => is_var b; destruct b; simpl
              end).
  all: intros [= <- <-].
  all: repeat match goal with u : unit |- _ => destruct u end.
  all: match goal with
       | |- count is_clear ?l = 0 /\ _ =>
           split; [reflexivity | split; [reflexivity | split; [reflexivity | ]]];
           first [ left; split;
                   [reflexivity | exists (firstn (List.length l - 3) l); reflexivity]
                 | right; eexists _, (removelast l), _;
                   split; [reflexivity | split; reflexivity] ]
       end.
Qed.

(** *** The statistics of an attempt *)

Lemma dict_get_set_other V (d : Dict V) k k' v :
  String.eqb k k' = false -> dict_get (dict_set d k v) k' = dict_get d k'.
Proof.
  intros Hk. induction d as [| [k0 v0] d IH]; simpl.
  - now rewrite Hk.
  - destruct (String.eqb k0 k) eqn:E; simpl.
    + apply String.eqb_eq in E. subst k0. now rewrite Hk.
    + rewrite IH. reflexivity.
Qed.

Lemma find_last_app X (f : X -> bool) l1 l2 :
  find f (l1 ++ l2) = match find f l1 with Some x => Some x | None => find f l2 end.
Proof.
  induction l1 as [| x l1 IH]; simpl; [reflexivity | ].
  destruct (f x); [reflexivity | exact IH].
Qed.

Lemma dict_get_fold_set V (entries : list (string * V)) :
  forall (d : Dict V) k,
    dict_get (fold_left (fun d kv => dict_set d (fst kv) (snd kv)) entries d) k
    = match last_written entries k with
      | Some v => Some v
      | None => dict_get d k
      end.
Proof.
  unfold last_written.
  induction entries as [| [k0 v0] entries IH]; intros d k; simpl; [reflexivity | ].
  rewrite IH, find_last_app. simpl.
  destruct (find _ (List.rev entries)) as [[k1 v1] | ]; simpl; [reflexivity | ].
  destruct (String.eqb k0 k) eqn:E; simpl.
  - apply String.eqb_eq in E. subst k0. apply dict_get_set_same.
  - now apply dict_get_set_other.
Qed.

Lemma collect_stats_as_entries evaluated :
  collect_stats evaluated
  = fold_left (fun d kv => dict_set d (fst kv) (snd kv)) (metric_entries evaluated) [].
Proof.
  unfold collect_stats, metric_entries. generalize (@nil (string * float)).
  induction evaluated as [| [k evr] evaluated IH]; intros acc; simpl; [reflexivity | ].
  rewrite fold_left_app, IH. f_equal.
  generalize acc. induction (metrics evr) as [| mem ms IHm]; intros acc'; simpl;
    [reflexivity | apply IHm].
Qed.

(** X17.  The statistics of an attempt hold, for every metric path, the
    value that was written last for that path, in the order of the rules and
    of their metrics: when two metrics have the same path (the same tuple of
    names under two rules, or an empty tuple under a rule whose name is the
    path of another metric), the later one replaces the earlier one; a path
    that no metric has is absent. *)
Theorem collect_stats_keeps_last evaluated k :
  dict_get (collect_stats evaluated) k = last_written (metric_entries evaluated) k.
Proof.
  rewrite collect_stats_as_entries, dict_get_fold_set.
  destruct (last_written _ k); reflexivity.
Qed.

(** *** The aggregates when an episode lacks a metric *)

Lemma values_of_run ds k h :
  (exists vs, values_of ds k h = (Ok vs, [])
              /\ Forall (fun d => dict_get d k <> None) ds)
  \/ (values_of ds k h = (Raise (KeyError k), [])
      /\ exists d, In d ds /\ dict_get d k = None).
Proof.
  revert h. induction ds as [| d ds IH]; intros h; simpl.
  - left. exists []. split; [reflexivity | constructor].
  - unfold bind, dict_item. destruct (dict_get d k) as [v | ] eqn:Ed.
    + destruct (IH (h ++ [])) as [(vs & E & Hall) | (E & d' & Hin & Hd')];
        unfold ret; cbn iota beta; rewrite E.
      * left. exists (v :: vs). split; [reflexivity | ].
        constructor; [congruence | exact Hall].
      * right. split; [reflexivity | ]. exists d'. auto.
    + right. split; [reflexivity | ]. exists d. auto.
Qed.

Lemma report_metric_run per_episode k h o es :
  report_metric per_episode k h = (o, es) ->
  match o with
  | Ok _ => ~ lacks per_episode k
  | Raise e =>
      (e = KeyError k /\ lacks per_episode k)
      \/ (exists es' ev, es = es' ++ [ev] /\ raised_by e ev)
  | OutOfFuel => False
  end.
Proof.
  unfold report_metric, bind at 1.
  destruct (values_of_run (dict_values per_episode) k h)
    as [(vs & -> & Hall) | (-> & Hlack)].
  2: { intros [= <- <-]. left. split; [reflexivity | exact Hlack]. }
  unfold bind, call. destruct_world; simpl; intros [= <- <-].
  - intros (d & Hin & Hd). rewrite Forall_forall in Hall. exact (Hall d Hin Hd).
  - right. eexists [_; _; _], _. split; reflexivity.
  - right. eexists [_; _], _. split; reflexivity.
  - right. eexists [_], _. split; reflexivity.
  - right. eexists [], _. split; reflexivity.
Qed.

Lemma report_loop_run per_episode ks :
  forall h o es,
    for_each ks (fun k _ => report_metric per_episode k) tt h = (o, es) ->
    match o with
    | Ok _ => Forall (fun k => ~ lacks per_episode k) ks
    | Raise e =>
        (exists k, In k ks /\ e = KeyError k /\ lacks per_episode k)
        \/ (exists es' ev, es = es' ++ [ev] /\ raised_by e ev)
    | OutOfFuel => False
    end.
Proof.
  induction ks as [| k ks IH]; intros h o es; simpl.
  - intros [= <- <-]. constructor.
  - unfold bind.
    destruct (report_metric per_episode k h) as [o1 es1] eqn:E1.
    apply report_metric_run in E1.
    destruct o1 as [[] | e | ]; [ | | contradiction].
    + destruct (for_each ks _ tt (h ++ es1)) as [o2 es2] eqn:E2.
      apply IH in E2. intros [= <- <-].
      destruct o2 as [[] | e | ]; [ | | contradiction].
      * constructor; assumption.
      * destruct E2 as [(k' & Hin & He & Hl) | (es' & ev & -> & Hr)].
        -- left. exists k'. simpl. auto.
        -- right. exists (es1 ++ es'), ev. rewrite app_assoc. auto.
    + intros [= <- <-].
      destruct E1 as [(-> & Hl) | R]; [left; exists k; simpl; auto | right; exact R].
Qed.

(** X18.  The aggregates are computed after the [try] of [main], from the
    paths of the last attempt: when some recorded episode has no value for
    one of these paths, the report does not complete.  It fails with the
    [KeyError] of such a path (raised by [_[k]], after [per-episodes] and the
    aggregates of the paths before it were set), unless a [set_score] call
    raised before. *)
Theorem missing_metric_fails_report per_episode stats k h o es :
  In k (dict_keys stats) ->
  lacks per_episode k ->
  report_scores per_episode stats h = (o, es) ->
  exists e,
    o = Raise e
    /\ ((exists k', In k' (dict_keys stats) /\ e = KeyError k' /\ lacks per_episode k')
        \/ (exists es' ev, es = es' ++ [ev] /\ raised_by e ev)).
Proof.
  intros Hin Hlack. unfold report_scores, bind, call.
  destruct_world.
  2: { intros [= <- <-]. exists e. split; [reflexivity | ].
       right. eexists [], _. split; reflexivity. }
  destruct (for_each _ _ tt _) as [o2 es2] eqn:E2.
  apply report_loop_run in E2. intros [= <- <-].
  destruct o2 as [[] | e | ]; [ | | contradiction].
  - exfalso. rewrite Forall_forall in E2. exact (E2 k Hin Hlack).
  - exists e. split; [reflexivity | ].
    destruct E2 as [L | (es' & ev & -> & Hr)]; [left; exact L | ].
    right. eexists (_ :: es'), ev. split; [reflexivity | exact Hr].
Qed.

(** *** One video for each episode *)

Lemma blind_is_video : blind_to_peers is_video.
Proof. intros T r a. destruct r; simpl; congruence. Qed.

Lemma videos_made_app es1 es2 : videos_made (es1 ++ es2) = videos_made es1 ++ videos_made es2.
Proof. apply flat_map_app. Qed.

Lemma videos_made_quiet es : Forall (fun e => is_video e = false) es -> videos_made es = [].
Proof.
  induction 1 as [| e es He _ IH]; [reflexivity | ].
  unfold videos_made in *. simpl. rewrite IH.
  destruct e as [T r a]. destruct r; try reflexivity. discriminate.
Qed.

Lemma quiet_attempt_episode_video sfuel cfg agent_ci sim_ci agents log_dir attempts i spec :
  quiet is_video
        (attempt_episode sfuel cfg agent_ci sim_ci agents log_dir attempts i spec).
Proof.
  unfold attempt_episode.
  do 10 (apply quiet_bind; [repeat quiet_step blind_is_video | intros ?]).
  apply quiet_bind.
  - apply quiet_run_episode_logged; [apply blind_is_video | reflexivity | reflexivity].
  - intros length_s. repeat quiet_step blind_is_video.
Qed.

Lemma always_run (P : Event -> Prop) A (m : M A) h o es :
  always P m -> m h = (o, es) -> Forall P es.
Proof. intros H. apply H. Qed.

Lemma lengths_from_calm cur es1 es2 :
  Forall calm es1 -> lengths_from cur (es1 ++ es2) = lengths_from cur es2.
Proof.
  induction 1 as [| e es1 [Hc Hs] _ IH]; [reflexivity | ].
  simpl. rewrite Hc, Hs. destruct cur; exact IH.
Qed.

Lemma lengths_from_started t es1 es2 :
  Forall (fun e => is_clear e = false) es1 ->
  lengths_from (Some t) (es1 ++ es2) = lengths_from (Some (time_reached t es1)) es2.
Proof.
  intros H. revert t. induction H as [| e es1 Hc _ IH]; intros t; [reflexivity | ].
  simpl. rewrite Hc, time_reached_cons. apply IH.
Qed.

Lemma time_reached_calm t es1 es2 :
  Forall calm es2 -> time_reached t (es1 ++ es2) = time_reached t es1.
Proof.
  intros H. unfold time_reached. rewrite steps_sent_app.
  replace (steps_sent es2) with (@nil float); [now rewrite app_nil_r | ].
  induction H as [| e es2 [_ Hs] _ IH]; [reflexivity | ].
  unfold steps_sent in *. simpl. now rewrite Hs.
Qed.

Lemma calm_no_clear es : Forall calm es -> Forall (fun e => is_clear e = false) es.
Proof. apply Forall_impl. now intros e [H _]. Qed.

Lemma attempt_events_after length_s es1 es2 :
  attempt_events length_s es1 -> Forall calm es2 -> attempt_events length_s (es1 ++ es2).
Proof.
  intros (pre & c & rest & -> & Hpre & Hc & Hrest & Ht) H2.
  exists pre, c, (rest ++ es2). rewrite <- app_assoc. simpl.
  repeat split; try assumption.
  - apply Forall_app. split; [exact Hrest | now apply calm_no_clear].
  - now rewrite time_reached_calm.
Qed.

Lemma attempt_events_before length_s es1 es2 :
  Forall calm es1 -> attempt_events length_s es2 -> attempt_events length_s (es1 ++ es2).
Proof.
  intros H1 (pre & c & rest & -> & Hpre & Hc & Hrest & Ht).
  exists (es1 ++ pre), c, rest. rewrite <- app_assoc.
  repeat split; try assumption. apply Forall_app. now split.
Qed.

(** The lengths that a list of events records, when it starts with an
    attempt. *)
Lemma lengths_from_attempt cur length_s es1 es2 :
  attempt_events length_s es1 ->
  lengths_from cur (es1 ++ es2)
  = match cur with Some t => [t] | None => [] end ++ lengths_from (Some length_s) es2.
Proof.
  intros (pre & c & rest & -> & Hpre & Hc & Hrest & Ht).
  rewrite <- app_assoc, lengths_from_calm by exact Hpre.
  simpl. rewrite Hc. f_equal.
  rewrite lengths_from_started by exact Hrest. now rewrite Ht.
Qed.

Lemma step_loop_never_clears fuel sim_ci p2a playable not_playable dt len steps :
  forall t,
    always (fun e => is_clear e = false)
           (step_loop fuel sim_ci p2a playable not_playable dt len steps t).
Proof.
  induction fuel as [| fuel IH]; intros t; simpl.
  - apply always_out_of_fuel.
  - destruct (float_ge t len); [apply always_ret | ].
    apply always_bind; [ | intros [t' | ]; [apply IH | apply always_ret]].
    unfold step_iteration. apply always_bind.
    + unfold robots_phase. apply always_bind.
      * apply always_for_each_invariant with (Q := fun _ => True); auto.
        intros x s _. unfold playable_step, attr_observations. repeat always_step.
      * intros tt1. apply always_for_each_invariant with (Q := fun _ => True); auto.
        intros x s _. unfold not_playable_step. repeat always_step.
    + intros tt1. unfold attr_done, log_timing_info. repeat always_step.
Qed.

Lemma last_of_steps dt t k :
  last (map (fun j => time_after dt (S j) t) (seq 0 k)) t = time_after dt k t.
Proof.
  destruct k as [| k]; [reflexivity | ].
  rewrite seq_S, map_app. simpl map. apply last_last.
Qed.

(** A run of [run_episode] that returns: a [clear], then no other, and the
    value returned is the time of the last [step], 0.0 when there is none. *)
Lemma run_episode_events fuel sim_ci agents dt name sc len h t es :
  run_episode fuel sim_ci agents dt name sc len h = (Ok t, es) ->
  attempt_events t es.
Proof.
  intros H. unfold run_episode in H. inv_bind H.
  unfold episode_init in H0. inv_bind H0.
  assert (Q : Forall calm es3).
  { eapply always_run. 2: exact H0.
    unfold calm.
    apply always_bind; [repeat always_step | intros _].
    apply always_bind.
    - apply always_for_each_invariant with (Q := fun _ => True); auto.
      intros x s _. repeat always_step.
    - intros _. apply always_bind; [repeat always_step | intros _].
      apply always_for_each_invariant with (Q := fun _ => True); auto.
      intros x s _. repeat always_step. }
  apply call_Ok in H1 as [_ ->].
  pose proof (step_loop_never_clears _ _ _ _ _ _ _ _ _ _ _ _ H) as Hloop.
  apply step_loop_run in H. destruct H as (k & -> & Hsent & _).
  subst es es0. simpl.
  exists [], (Ev (write_topic_and_expect_zero sim_ci "clear" PNone) (Returned a0)), (es3 ++ es1).
  repeat split; try constructor.
  - apply Forall_app. split; [now apply calm_no_clear | exact Hloop].
  - unfold time_reached. rewrite steps_sent_app.
    replace (steps_sent es3) with (@nil float).
    + simpl. rewrite Hsent. apply last_of_steps.
    + clear -Q. induction Q as [| e es3 [_ Hs] _ IH]; [reflexivity | ].
      unfold steps_sent in *. simpl. now rewrite Hs.
Qed.

Lemma attempt_of_bind A B (len : B -> float) (m : M A) (f : A -> M B) :
  always calm m -> (forall a, attempt_of len (f a)) -> attempt_of len (bind m f).
Proof.
  intros Hm Hf h b es H. inv_bind H. subst es.
  apply attempt_events_before; [exact (Hm _ _ _ H0) | exact (Hf _ _ _ _ H)].
Qed.

Lemma attempt_episode_events sfuel cfg agent_ci sim_ci agents log_dir attempts i spec :
  attempt_of fst
    (attempt_episode sfuel cfg agent_ci sim_ci agents log_dir attempts i spec).
Proof.
  unfold attempt_episode.
  do 10 (apply attempt_of_bind; [unfold calm; repeat always_step | intros ?]).
  intros h r es H. inv_bind H. inv_bind H. apply ret_Ok in H as [-> ->].
  apply call_Ok in H1 as [_ ->]. subst es es1. simpl fst.
  apply attempt_events_after; [ | repeat constructor].
  unfold run_episode_logged in H0.
  apply try_finally_two_calls in H0; [ | discriminate].
  destruct H0 as (o_m & es_m & Hm & [(e & _ & [=]) | (r & -> & Ho)]).
  rewrite try_except_reraise in Hm.
  destruct r as [[] | e]; [ | discriminate]. subst o_m.
  apply attempt_events_after; [ | repeat constructor].
  exact (run_episode_events _ _ _ _ _ _ _ _ _ _ Hm).
Qed.

(** One round of the episode loop that returns: the events are those of an
    attempt; a video is asked for when the length of the attempt reaches the
    minimum, from the log of this attempt and into its directory, and then
    the episode is done with. *)
Lemma episode_attempt_video sfuel cfg agent_ci sim_ci agents log_dir attempts s spec h s' es :
  episode_attempt sfuel cfg agent_ci sim_ci agents log_dir attempts s spec h = (Ok s', es) ->
  exists length_s,
    attempt_events length_s es
    /\ st_attempt_i s' = S (st_attempt_i s)
    /\ let dn := attempt_dir attempts (episode_name spec) (st_attempt_i s) in
       if float_ge length_s (min_episode_length_s cfg)
       then videos_made es = [(log_file dn, os_path_join dn "camera.mp4")]
            /\ st_episodes s' = tl (st_episodes s)
       else videos_made es = [] /\ st_episodes s' = st_episodes s.
Proof.
  intros H. unfold episode_attempt in H. inv_bind H. destruct a as [length_s stats].
  pose proof (quiet_attempt_episode_video _ _ _ _ _ _ _ _ _ _ _ _ H0) as Q.
  apply videos_made_quiet in Q.
  apply attempt_episode_events in H0. cbn [fst snd] in *.
  exists length_s. unfold settle_attempt in H.
  subst es. rewrite videos_made_app, Q. cbn zeta.
  destruct (float_ge length_s (min_episode_length_s cfg)).
  - do 2 inv_bind H. apply ret_Ok in H as [-> ->].
    apply call_Ok in H1 as [_ ->]. apply call_Ok in H2 as [_ ->]. subst.
    split; [apply attempt_events_after; [exact H0 | repeat constructor] | ].
    repeat split.
  - apply ret_Ok in H as [-> ->]. rewrite app_nil_r.
    split; [exact H0 | repeat split].
Qed.

Lemma episodes_loop_videos fuel sfuel cfg agent_ci sim_ci agents log_dir attempts :
  forall s h s' es,
    episodes_loop fuel sfuel cfg agent_ci sim_ci agents log_dir attempts s h = (Ok s', es) ->
    videos_made es
    = expected_videos cfg attempts (st_episodes s) (st_attempt_i s) (attempt_lengths es)
    /\ List.length (videos_made es) = List.length (st_episodes s)
    /\ forall t, lengths_from (Some t) es = t :: attempt_lengths es.
Proof.
  induction fuel as [| fuel IH]; intros s h s' es; simpl;
    destruct (st_episodes s) as [| spec pending] eqn:Eq.
  1, 3: intros H; apply ret_Ok in H as [_ ->]; repeat split.
  1: unfold out_of_fuel; discriminate.
  destruct (max_failures cfg <=? st_nfailures s)%Z; [unfold raise; discriminate | ].
  intros H. inv_bind H. apply IH in H as (Hv & Hn & Hl).
  apply episode_attempt_video in H0 as (length_s & Hev & Hi & Hacc).
  subst es. unfold attempt_lengths in *.
  rewrite videos_made_app, length_app.
  rewrite (lengths_from_attempt None _ _ _ Hev), Hl.
  change ([] ++ length_s :: lengths_from None es1)
    with (length_s :: lengths_from None es1).
  cbn zeta in Hacc. rewrite Eq in Hacc. cbn [tl] in Hacc.
  split; [ | split].
  - cbn [expected_videos].
    destruct (float_ge length_s (min_episode_length_s cfg));
      destruct Hacc as [-> Hep]; rewrite Hv, Hep, Hi; reflexivity.
  - destruct (float_ge length_s (min_episode_length_s cfg));
      destruct Hacc as [-> Hep]; rewrite Hn, Hep; reflexivity.
  - intros t. rewrite (lengths_from_attempt (Some t) _ _ _ Hev), Hl. reflexivity.
Qed.

(** X20.  When the episode loop returns, the videos it has asked for are
    determined by the lengths of the attempts that its events record (for
    each [clear], the time of the last [step] before the next [clear]): the
    attempts are numbered from the attempt index at the start, each is an
    attempt of the first episode still pending, and an attempt whose length
    reaches [min_episode_length_s] gets exactly one video, made from the log
    of that very attempt into [camera.mp4] in the directory of that very
    attempt, after which the next episode is attempted; an attempt that is
    shorter gets no video.  There is exactly one video for each episode that
    was pending. *)
Theorem one_video_per_episode fuel sfuel cfg agent_ci sim_ci agents log_dir attempts :
  forall s h s' es,
    episodes_loop fuel sfuel cfg agent_ci sim_ci agents log_dir attempts s h = (Ok s', es) ->
    videos_made es
    = expected_videos cfg attempts (st_episodes s) (st_attempt_i s) (attempt_lengths es)
    /\ List.length (videos_made es) = List.length (st_episodes s).
Proof.
  intros s h s' es H. apply episodes_loop_videos in H as (Hv & Hn & _). now split.
Qed.

(** *** No episode at all *)

Lemma episodes_of_scenario_none eps sc :
  (eps <= 0)%Z -> episodes_of_scenario eps sc = [].
Proof.
  intros H. unfold episodes_of_scenario, py_range.
  replace (Z.to_nat eps) with 0 by lia. reflexivity.
Qed.

Lemma main_prelude_none sfuel cfg agent_ci sim_ci sm_ci h episodes es :
  (episodes_per_scenario cfg <= 0)%Z ->
  main_prelude sfuel cfg agent_ci sim_ci sm_ci h = (Ok episodes, es) ->
  episodes = [].
Proof.
  intros Hn H. unfold main_prelude, get_episodes in H. do 3 inv_bind H.
  apply collect_episodes_Ok in H as (-> & _). simpl.
  induction (flat_map scenario_received _) as [| sc l IHl]; simpl; [reflexivity | ].
  now rewrite episodes_of_scenario_none.
Qed.

Lemma quiet_main_when_none p fuel sfuel cfg log_dir attempts :
  (episodes_per_scenario cfg <= 0)%Z ->
  blind_before_loop p ->
  (forall name v a, p (Ev (set_score name v) a) = false) ->
  quiet p (main fuel sfuel cfg log_dir attempts).
Proof.
  intros Hn Hp Hscore. unfold main.
  apply quiet_bind; [now apply quiet_main_setup | intros _].
  apply quiet_bind.
  - unfold main_guarded. apply quiet_try_finally.
    + apply quiet_try_except.
      * unfold main_try.
        apply (always_bind_post (fun e => p e = false) _ _ (fun episodes => episodes = [])).
        -- intros h a es H. exact (main_prelude_none _ _ _ _ _ _ _ _ Hn H).
        -- now apply quiet_main_prelude.
        -- intros a ->. rewrite episodes_loop_nil by reflexivity. apply quiet_ret.
      * intros e. destruct (is_InvalidSubmission e); apply quiet_raise.
    + apply quiet_bind; [ | intros _];
        apply quiet_call; intros a; apply Hp; right; reflexivity.
  - intros s. unfold report_scores, report_metric.
    apply quiet_bind; [apply quiet_call, Hscore | intros _].
    apply quiet_for_each. intros k _.
    apply quiet_bind.
    + generalize (dict_values (st_per_episode s)). intros ds.
      induction ds as [| d ds IH]; simpl; [apply quiet_ret | ].
      apply quiet_bind; [apply quiet_dict_item | intros v].
      apply quiet_bind; [exact IH | intros vs; apply quiet_ret].
    + intros values. repeat (apply quiet_bind; [apply quiet_call, Hscore | intros _]).
      apply quiet_call, Hscore.
Qed.

Lemma blind_before_loop_set_score : blind_before_loop is_set_score.
Proof. intros T r a [H | H]; destruct r; simpl in *; congruence. Qed.

Lemma scores_of_quiet es : Forall (fun e => is_set_score e = false) es -> scores_of es = [].
Proof.
  induction 1 as [| e es He _ IH]; [reflexivity | ]. simpl. rewrite IH.
  destruct e as [T r a]. destruct r; try reflexivity. discriminate.
Qed.

(** X19.  When [episodes_per_scenario] is zero or negative, [main] runs no
    episode, whatever the scenario maker sends and whatever [max_failures]
    is: it opens no log file and sends no [clear]; and when it returns, the
    only score it has set is [per-episodes], with an empty dictionary. *)
Theorem no_episode_when_none_per_scenario fuel sfuel cfg log_dir attempts h o es :
  (episodes_per_scenario cfg <= 0)%Z ->
  main fuel sfuel cfg log_dir attempts h = (o, es) ->
  count is_open_wb es = 0
  /\ count is_clear es = 0
  /\ (is_Ok o = true -> scores_of es = [("per-episodes", SPerEpisode [])]).
Proof.
  intros Hn H.
  split; [ | split].
  - apply quiet_count.
    refine (quiet_main_when_none is_open_wb _ _ _ _ _ Hn blind_before_loop_open_wb _ _ _ _ H).
    reflexivity.
  - apply quiet_count.
    refine (quiet_main_when_none is_clear _ _ _ _ _ Hn blind_before_loop_clear _ _ _ _ H).
    reflexivity.
  - intros Hok. destruct o as [[] | | ]; try discriminate.
    unfold main in H. do 2 inv_bind H. destruct a.
    pose proof (quiet_main_setup is_set_score cfg blind_before_loop_set_score _ _ _ H0) as Q0.
    assert (Hfuel : Ok a0 <> @OutOfFuel LoopState) by discriminate.
    destruct (main_guarded_run _ _ _ _ _ _ _ _ H1 Hfuel) as (o_try & es_try & Htry & Hend).
    assert (Ho : o_try = Ok a0 /\ scores_of es2 = scores_of es_try).
    { destruct Hend as [(e & _ & [=]) | (a & -> & Ho)].
      destruct a; [ | discriminate].
      split; [destruct o_try; congruence | ].
      rewrite scores_of_app. simpl. now rewrite app_nil_r. }
    destruct Ho as [-> Hs2]. unfold main_try in Htry. inv_bind Htry.
    pose proof (main_prelude_none _ _ _ _ _ _ _ _ Hn H2). subst a.
    pose proof (quiet_main_prelude is_set_score _ _ _ _ _ blind_before_loop_set_score
                  _ _ _ H2) as Q1.
    rewrite episodes_loop_nil in Htry by reflexivity.
    apply ret_Ok in Htry as [-> ->].
    apply report_scores_Ok in H as [S _]. simpl in S.
    subst es es1 es_try. rewrite !scores_of_app, Hs2, scores_of_app.
    rewrite (scores_of_quiet _ Q0), (scores_of_quiet _ Q1). simpl. exact S.
Qed.

(** *** What [main] changes in the file system *)

Lemma always_of_quiet (P : Event -> Prop) p A (m : M A) :
  (forall e, p e = false -> P e) -> quiet p m -> always P m.
Proof.
  intros Hp Hq h o es H. eapply Forall_impl; [exact Hp | exact (Hq _ _ _ H)].
Qed.

Lemma always_try_finally (P : Event -> Prop) A (m : M A) fin :
  always P m -> always P fin -> always P (try_finally m fin).
Proof.
  intros Hm Hf h o es. unfold try_finally.
  destruct (m h) as [[a | e | ] es1] eqn:Em; pose proof (Hm _ _ _ Em) as Q1.
  3: intros [= <- <-]; exact Q1.
  all: destruct (fin (h ++ es1)) as [[[] | e' | ] es2] eqn:Ef; intros [= <- <-];
    apply Forall_app; (split; [exact Q1 | exact (Hf _ _ _ Ef)]).
Qed.

Lemma not_fs_change_confined log_dir attempts names e :
  is_fs_change e = false -> confined log_dir attempts names e.
Proof. destruct e as [T r a]. destruct r; simpl; intros H; exact I || discriminate. Qed.

Lemma blind_is_fs_change : blind_to_peers is_fs_change.
Proof. intros T r a. destruct r; simpl; congruence. Qed.

Lemma blind_before_loop_fs_change : blind_before_loop is_fs_change.
Proof. intros T r a [H | H]; destruct r; simpl in *; congruence. Qed.

Ltac own_path_one :=
  first [ eexists _, 0; split; [left; reflexivity | left; reflexivity]
        | eexists _, _; split;
          [ left; reflexivity
          | solve [ right; left; reflexivity
                  | right; right; left; reflexivity
                  | right; right; right; reflexivity ] ] ].

Ltac own_path_step :=
  simpl; unfold own_path;
  first [ exact I | split; own_path_one | own_path_one ].

Lemma own_path_more log_dir attempts names names' p :
  incl names names' -> own_path log_dir attempts names p -> own_path log_dir attempts names' p.
Proof. intros Hi (name & i & Hin & Hp). exists name, i. split; [now apply Hi | exact Hp]. Qed.

Lemma confined_more log_dir attempts names names' e :
  incl names names' -> confined log_dir attempts names e -> confined log_dir attempts names' e.
Proof.
  intros Hi. destruct e as [T r a]. destruct r; simpl; try exact (fun H => H).
  all: try apply own_path_more; try exact Hi.
  intros [H1 H2]. split; eapply own_path_more; eassumption.
Qed.

Lemma always_weaken (P Q : Event -> Prop) A (m : M A) :
  (forall e, P e -> Q e) -> always P m -> always Q m.
Proof. intros HPQ Hm h o es H. eapply Forall_impl; [exact HPQ | exact (Hm _ _ _ H)]. Qed.

Lemma episode_attempt_confined sfuel cfg agent_ci sim_ci agents log_dir attempts s spec :
  always (confined log_dir attempts [episode_name spec])
         (episode_attempt sfuel cfg agent_ci sim_ci agents log_dir attempts s spec).
Proof.
  unfold episode_attempt, attempt_episode, settle_attempt, run_episode_logged.
  repeat first [ apply always_of_quiet with (p := is_fs_change);
                 [ apply not_fs_change_confined
                 | apply quiet_run_episode, blind_is_fs_change ]
               | apply always_ret | apply always_raise
               | apply always_call; intros ?; own_path_step
               | apply always_bind; [ | intros ? ]
               | apply always_try_finally
               | apply always_try_except; [ | intros ? ]
               | match goal with |- always _ (if ?b then _ else _) => destruct b end ].
Qed.

(** The episode loop changes the paths of the pending episodes only. *)
Lemma episodes_loop_confined fuel sfuel cfg agent_ci sim_ci agents log_dir attempts :
  forall s,
    always (confined log_dir attempts (map episode_name (st_episodes s)))
           (episodes_loop fuel sfuel cfg agent_ci sim_ci agents log_dir attempts s).
Proof.
  induction fuel as [| fuel IH]; intros s; simpl;
    destruct (st_episodes s) as [| spec pending] eqn:Eq;
    try apply always_ret; try apply always_out_of_fuel.
  destruct (max_failures cfg <=? st_nfailures s)%Z; [apply always_raise | ].
  apply always_bind_post with (Q := fun s' => incl (st_episodes s') (spec :: pending)).
  - intros h s' es H. apply episode_attempt_video in H as (length_s & _ & _ & Hacc).
    cbn zeta in Hacc. rewrite Eq in Hacc. cbn [tl] in Hacc.
    destruct (float_ge length_s (min_episode_length_s cfg)); destruct Hacc as [_ ->];
      [apply incl_tl | ]; apply incl_refl.
  - eapply always_weaken; [ | apply episode_attempt_confined].
    intros e. apply confined_more. intros x [<- | []]. now left.
  - intros s' Hi. eapply always_weaken; [ | apply IH].
    intros e. apply confined_more.
    change (episode_name spec :: map episode_name pending)
      with (map episode_name (spec :: pending)).
    now apply incl_map.
Qed.

Lemma main_prelude_Ok sfuel cfg agent_ci sim_ci sm_ci h episodes es :
  main_prelude sfuel cfg agent_ci sim_ci sm_ci h = (Ok episodes, es) ->
  map episode_name episodes = episode_names_received (episodes_per_scenario cfg) es.
Proof.
  intros H. unfold main_prelude, get_episodes in H. do 3 inv_bind H.
  apply collect_episodes_Ok in H as (-> & _).
  apply call_Ok in H0 as [_ ->]. apply call_Ok in H1 as [_ ->].
  apply call_Ok in H2 as [_ ->]. subst. reflexivity.
Qed.

Lemma names_received_l eps es1 es2 :
  incl (episode_names_received eps es1) (episode_names_received eps (es1 ++ es2)).
Proof.
  unfold episode_names_received. rewrite !flat_map_app, map_app. apply incl_appl, incl_refl.
Qed.

Lemma names_received_r eps es1 es2 :
  incl (episode_names_received eps es2) (episode_names_received eps (es1 ++ es2)).
Proof.
  unfold episode_names_received. rewrite !flat_map_app, map_app. apply incl_appr, incl_refl.
Qed.

Lemma quiet_confined log_dir attempts names es :
  Forall (fun e => is_fs_change e = false) es -> Forall (confined log_dir attempts names) es.
Proof.
  apply Forall_impl. intros e He.
  apply (confined_more log_dir attempts [] names); [intros x [] | ].
  destruct e as [T r a]. destruct r; simpl in *; exact I || discriminate.
Qed.

Lemma confined_l log_dir attempts eps es es2 :
  Forall (confined log_dir attempts (episode_names_received eps es)) es ->
  Forall (fun e => is_fs_change e = false) es2 ->
  Forall (confined log_dir attempts (episode_names_received eps (es ++ es2))) (es ++ es2).
Proof.
  intros H1 H2. apply Forall_app. split; [ | now apply quiet_confined].
  eapply Forall_impl; [ | exact H1]. intros e. apply confined_more, names_received_l.
Qed.

Lemma confined_r log_dir attempts eps es1 es :
  Forall (fun e => is_fs_change e = false) es1 ->
  Forall (confined log_dir attempts (episode_names_received eps es)) es ->
  Forall (confined log_dir attempts (episode_names_received eps (es1 ++ es))) (es1 ++ es).
Proof.
  intros H1 H2. apply Forall_app. split; [now apply quiet_confined | ].
  eapply Forall_impl; [ | exact H2]. intros e. apply confined_more, names_received_r.
Qed.

Lemma main_try_confined fuel sfuel cfg agent_ci sim_ci sm_ci agents log_dir attempts h o es :
  main_try fuel sfuel cfg agent_ci sim_ci sm_ci agents log_dir attempts h = (o, es) ->
  Forall (confined log_dir attempts (episode_names_received (episodes_per_scenario cfg) es)) es.
Proof.
  unfold main_try, bind.
  destruct (main_prelude sfuel cfg agent_ci sim_ci sm_ci h) as [o1 es1] eqn:E1.
  pose proof (quiet_main_prelude is_fs_change _ _ _ _ _ blind_before_loop_fs_change
                _ _ _ E1) as Q1.
  destruct o1 as [episodes | e | ];
    [ | intros [= <- <-]; now apply quiet_confined
      | intros [= <- <-]; now apply quiet_confined ].
  destruct (episodes_loop _ _ _ _ _ _ _ _ _ (h ++ es1)) as [o2 es2] eqn:E2.
  intros [= <- <-].
  apply episodes_loop_confined in E2. cbn [st_episodes] in E2.
  rewrite (main_prelude_Ok _ _ _ _ _ _ _ _ E1) in E2.
  apply Forall_app. split; [now apply quiet_confined | ].
  eapply Forall_impl; [ | exact E2]. intros e. apply confined_more, names_received_l.
Qed.

Lemma main_guarded_confined fuel sfuel cfg log_dir attempts h o es :
  main_guarded fuel sfuel cfg log_dir attempts h = (o, es) ->
  Forall (confined log_dir attempts (episode_names_received (episodes_per_scenario cfg) es)) es.
Proof.
  unfold main_guarded. intros H.
  assert (G : exists o0 es0 es',
             main_try fuel sfuel cfg (the_agent_ci cfg) (the_sim_ci cfg) (the_sm_ci cfg)
               [the_agent_ci cfg] log_dir attempts h = (o0, es0)
             /\ es = es0 ++ es' /\ Forall (fun e => is_fs_change e = false) es').
  { revert H. unfold try_finally, try_except, bind, call, raise.
    destruct (main_try _ _ _ _ _ _ _ _ _ h) as [[s | e | ] es0].
    3: intros [= <- <-]; eexists _, _, []; rewrite app_nil_r; repeat split; constructor.
    all: try destruct (is_InvalidSubmission e); simpl.
    all: destruct_world; simpl; try destruct_world; simpl.
    all: intros [= <- <-]; eexists _, _, _; (split; [reflexivity | ]).
    all: rewrite <- ?app_assoc; (split; [reflexivity | ]); repeat constructor. }
  destruct G as (o0 & es0 & es' & Htry & -> & Q).
  apply confined_l; [exact (main_try_confined _ _ _ _ _ _ _ _ _ _ _ _ Htry) | exact Q].
Qed.

Lemma append_assoc_string (a b c : string) : ((a ++ b) ++ c = a ++ (b ++ c))%string.
Proof. induction a as [| x a IH]; simpl; [reflexivity | now rewrite IH]. Qed.

Lemma is_under_join a b : starts_with_slash b = false -> is_under a (os_path_join a b).
Proof.
  intros H. unfold os_path_join. rewrite H.
  destruct (String.eqb a "" || ends_with_slash a)%bool; eexists; reflexivity.
Qed.

Lemma is_under_more a b c : is_under a b -> is_under a (b ++ c)%string.
Proof. intros [r ->]. exists (r ++ c)%string. apply append_assoc_string. Qed.

Lemma is_under_trans a b c : is_under a b -> is_under b c -> is_under a c.
Proof. intros Hab [r ->]. now apply is_under_more. Qed.

Lemma attempt_dir_under attempts name i :
  starts_with_slash name = false -> is_under attempts (attempt_dir attempts name i).
Proof.
  intros H. unfold attempt_dir. apply is_under_join.
  destruct name as [| c name]; [reflexivity | exact H].
Qed.

(** X21.  Whatever happens, the only paths that [main] removes, creates,
    opens for writing or renames are those it makes from the names of the
    episodes of the scenarios that it has received: the final directory of
    such an episode, which is [log_dir] joined with the episode's name, the
    directory of an attempt of such an episode, which is [attempts] joined
    with the name and the attempt index, and the log file of the attempt
    under its temporary and its final name.  When no episode name begins
    with a slash these paths all begin with [log_dir] or with [attempts]; an
    episode name that begins with a slash is itself the final directory,
    wherever that is. *)
Theorem main_changes_its_own_paths_only fuel sfuel cfg log_dir attempts h o es :
  main fuel sfuel cfg log_dir attempts h = (o, es) ->
  Forall (confined log_dir attempts
            (episode_names_received (episodes_per_scenario cfg) es)) es
  /\ (forall names p,
        Forall (fun name => starts_with_slash name = false) names ->
        own_path log_dir attempts names p ->
        is_under log_dir p \/ is_under attempts p)
  /\ (forall name, starts_with_slash name = true -> final_dir log_dir name = name).
Proof.
  intros H. split; [ | split].
  - revert H. unfold main, bind.
    destruct (main_setup cfg h) as [o1 es1] eqn:E1.
    pose proof (quiet_main_setup is_fs_change cfg blind_before_loop_fs_change _ _ _ E1) as Q1.
    destruct o1 as [[] | e | ];
      [ | intros [= <- <-]; now apply quiet_confined
        | intros [= <- <-]; now apply quiet_confined ].
    destruct (main_guarded _ _ _ _ _ (h ++ es1)) as [o2 es2] eqn:E2.
    apply main_guarded_confined in E2.
    destruct o2 as [s | e | ];
      [ | intros [= <- <-]; now apply confined_r
        | intros [= <- <-]; now apply confined_r ].
    destruct (report_scores _ _ _) as [o3 es3] eqn:E3.
    intros [= <- <-]. apply confined_r; [exact Q1 | ].
    apply confined_l; [exact E2 | ].
    eapply Forall_impl; [ | exact (report_scores_sets_scores _ _ _ _ _ E3)].
    intros [T r a]. destruct r; simpl; congruence.
  - intros names p Hrel (name & i & Hin & Hp).
    rewrite Forall_forall in Hrel. specialize (Hrel name Hin).
    pose proof (attempt_dir_under attempts name i Hrel) as Hdn.
    destruct Hp as [-> | [-> | [-> | ->]]].
    + left. now apply is_under_join.
    + right. exact Hdn.
    + right. eapply is_under_trans; [exact Hdn | now apply is_under_join].
    + right. apply is_under_more.
      eapply is_under_trans; [exact Hdn | now apply is_under_join].
  - intros name Hn. unfold final_dir, os_path_join. now rewrite Hn.
Qed.

(** *** Where the exceptions of [main] come from *)

Section RaisesBy.

Variable own : exn -> Prop.

Lemma raises_by_ret A (a : A) : raises_by own (ret a).
Proof. intros h e es; discriminate. Qed.

Lemma raises_by_raise A e : own e -> raises_by own (@raise A e).
Proof. intros He h e' es [= <- <-]. now left. Qed.

Lemma raises_by_call T (r : Request T) : raises_by own (call r).
Proof.
  intros h e es. unfold call. destruct (world h r); [discriminate | ].
  intros [= <- <-]. right. eexists [], _. split; reflexivity.
Qed.

Lemma raises_by_bind A B (m : M A) (f : A -> M B) :
  raises_by own m -> (forall a, raises_by own (f a)) -> raises_by own (bind m f).
Proof.
  intros Hm Hf h e es. unfold bind.
  destruct (m h) as [[a | e1 | ] es1] eqn:Em; [ | | discriminate].
  - destruct (f a (h ++ es1)) as [o' es2] eqn:Ef. intros [= -> <-].
    destruct (Hf _ _ _ _ Ef) as [Ho | (es' & ev & -> & Hr)]; [now left | right].
    exists (es1 ++ es'), ev. now rewrite app_assoc.
  - intros [= <- <-]. exact (Hm _ _ _ Em).
Qed.

Lemma raises_by_dict_item V (d : Dict V) k : own (KeyError k) -> raises_by own (dict_item d k).
Proof.
  intros Hk. unfold dict_item.
  destruct (dict_get d k); [apply raises_by_ret | now apply raises_by_raise].
Qed.

Lemma raises_by_for_each X S (body : X -> S -> M S) xs :
  (forall x s, raises_by own (body x s)) -> forall s, raises_by own (for_each xs body s).
Proof.
  intros Hb. induction xs as [| x xs IH]; intros s; simpl.
  - apply raises_by_ret.
  - apply raises_by_bind; [apply Hb | apply IH].
Qed.

End RaisesBy.

Ltac raises_by_step :=
  first [ apply raises_by_ret | apply raises_by_call
        | apply raises_by_raise; exact I
        | apply raises_by_dict_item; exact I
        | apply raises_by_bind; [ | intros ? ]
        | apply raises_by_for_each; intros ? ?
        | match goal with |- raises_by _ (if ?b then _ else _) => destruct b end
        | match goal with |- raises_by _ (match ?d with _ => _ end) => destruct d end ].

Lemma main_setup_raises cfg : raises_by raised_outside_try (main_setup cfg).
Proof.
  unfold main_setup, open_channels, check_compatibility_between_agent_and_sim,
    attr_of_protocol, attr_annotations.
  repeat raises_by_step.
Qed.

Lemma report_scores_raises per_episode stats :
  raises_by raised_outside_try (report_scores per_episode stats).
Proof.
  unfold report_scores, report_metric.
  apply raises_by_bind; [apply raises_by_call | intros _].
  apply raises_by_for_each. intros k _.
  apply raises_by_bind; [ | intros values; repeat raises_by_step].
  generalize (dict_values per_episode). intros ds.
  induction ds as [| d ds IH]; simpl; [apply raises_by_ret | ].
  apply raises_by_bind; [apply raises_by_dict_item; exact I | intros v].
  apply raises_by_bind; [exact IH | intros vs; apply raises_by_ret].
Qed.

Lemma main_setup_outside_try cfg :
  always (fun e => is_outside_try e = true) (main_setup cfg).
Proof.
  unfold main_setup, open_channels, check_compatibility_between_agent_and_sim,
    attr_of_protocol, attr_annotations.
  repeat always_step.
Qed.

Lemma last_of_all (P : Event -> Prop) es es' ev :
  Forall P es -> es = es' ++ [ev] -> P ev.
Proof.
  intros H ->. apply Forall_app in H as [_ H]. now inversion H.
Qed.

(** X7.  An exception that leaves [main] is a submission failure or an
    evaluator failure (made by the handlers of its [try]); or it was raised
    by the code of [main] outside the [try] (a missing protocol or type, a
    mismatch of types, a metric that an episode lacks); or it is the
    exception of the call that [main] made last, and that call stands outside
    the [try]: opening a channel, reading or setting a protocol, a [close] of
    the cleanup block, or setting a score.  So the exception of a call made
    inside the [try] (an aborted peer, a time-out, an I/O error) never leaves
    [main] as it is. *)
Theorem exceptions_of_main fuel sfuel cfg log_dir attempts h e es :
  main fuel sfuel cfg log_dir attempts h = (Raise e, es) ->
  (exists cause, e = InvalidSubmission cause)
  \/ (exists cause, e = InvalidEvaluator cause)
  \/ raised_outside_try e
  \/ (exists es' ev, es = es' ++ [ev] /\ raised_by e ev /\ is_outside_try ev = true).
Proof.
  unfold main, bind.
  destruct (main_setup cfg h) as [[[] | e0 | ] es0] eqn:E0; [ | | discriminate].
  2: { intros [= <- <-]. right. right.
       destruct (main_setup_raises _ _ _ _ E0) as [Ho | (es' & ev & Hes & Hr)];
         [now left | right].
       exists es', ev. repeat split; try assumption.
       exact (last_of_all _ _ _ _ (main_setup_outside_try _ _ _ _ E0) Hes). }
  destruct (main_guarded _ _ _ _ _ (h ++ es0)) as [[s | e1 | ] es1] eqn:E1;
    [ | | discriminate].
  2: { intros [= <- <-].
       assert (Hfuel : Raise e1 <> @OutOfFuel LoopState) by discriminate.
       destruct (main_guarded_run _ _ _ _ _ _ _ _ E1 Hfuel)
         as (o_try & es_try & _ & Hend).
       destruct Hend as [(e' & -> & [= ->]) | (a & -> & Ho)].
       - right. right. right.
         eexists (es0 ++ es_try), _. rewrite <- app_assoc.
         repeat split; reflexivity.
       - destruct a as [[] | e2].
         + destruct o_try as [s | e_try | ]; try discriminate.
           injection Ho as ->. unfold classified.
           destruct (is_InvalidSubmission e_try) eqn:Ei; [ | right; left; eauto].
           left. destruct e_try; try discriminate. eauto.
         + injection Ho as ->. right. right. right.
           eexists (es0 ++ es_try ++ [_]), _. rewrite <- !app_assoc.
           repeat split; reflexivity. }
  destruct (report_scores _ _ _) as [o2 es2] eqn:E2. intros [= -> <-].
  right. right.
  destruct (report_scores_raises _ _ _ _ _ E2) as [Ho | (es' & ev & Hes & Hr)];
    [now left | right].
  exists (es0 ++ es1 ++ es'), ev. rewrite Hes, <- !app_assoc.
  repeat split; try assumption.
  pose proof (report_scores_sets_scores _ _ _ _ _ E2) as Hset.
  pose proof (last_of_all _ _ _ _ Hset Hes) as Hev.
  destruct ev as [T r a]. destruct r; simpl in *; congruence.
Qed.

(** *** How [run_episode] fails *)

Section FailsWith.

Variable F : exn -> list Event -> Prop.
Hypothesis F_later : forall e es1 es, F e es -> F e (es1 ++ es).

Lemma fails_with_ret A (a : A) : fails_with F (ret a).
Proof. intros h e es; discriminate. Qed.

Lemma fails_with_call T (r : Request T) :
  (forall e, F e [Ev r (Raised e)]) -> fails_with F (call r).
Proof.
  intros Hr h e es. unfold call. destruct (world h r); [discriminate | ].
  intros [= <- <-]. apply Hr.
Qed.

Lemma fails_with_bind A B (m : M A) (f : A -> M B) :
  fails_with F m -> (forall a, fails_with F (f a)) -> fails_with F (bind m f).
Proof.
  intros Hm Hf h e es. unfold bind.
  destruct (m h) as [[a | e1 | ] es1] eqn:Em; [ | | discriminate].
  - destruct (f a (h ++ es1)) as [o' es2] eqn:Ef. intros [= -> <-].
    apply F_later. exact (Hf _ _ _ _ Ef).
  - intros [= <- <-]. exact (Hm _ _ _ Em).
Qed.

Lemma fails_with_for_each X S (body : X -> S -> M S) xs :
  (forall x s, fails_with F (body x s)) -> forall s, fails_with F (for_each xs body s).
Proof.
  intros Hb. induction xs as [| x xs IH]; intros s; simpl.
  - apply fails_with_ret.
  - apply fails_with_bind; [apply Hb | apply IH].
Qed.

End FailsWith.

Lemma episode_failure_later e es1 es : episode_failure e es -> episode_failure e (es1 ++ es).
Proof.
  intros [(es' & ev & -> & H) | [(cause & -> & [(es' & ev & -> & H) | ->]) | H]].
  - left. exists (es1 ++ es'), ev. now rewrite app_assoc.
  - right. left. exists cause. split; [reflexivity | left].
    exists (es1 ++ es'), ev. now rewrite app_assoc.
  - right. left. eexists. split; [reflexivity | now right].
  - right. right. exact H.
Qed.

Lemma episode_failure_of_call T (r : Request T) e :
  is_agent_exchange (Ev r (Raised e)) = false ->
  episode_failure e [Ev r (Raised e)].
Proof. intros H. left. exists [], (Ev r (Raised e)). repeat split. exact H. Qed.

Ltac episode_failure_step :=
  first [ apply fails_with_ret
        | apply fails_with_call; intros ?; apply episode_failure_of_call; reflexivity
        | apply fails_with_bind; [exact episode_failure_later | | intros ? ]
        | apply fails_with_for_each; [exact episode_failure_later | intros ? ? ] ].

Lemma playable_step_fails sim_ci p2a t robot_name tt0 :
  fails_with episode_failure (playable_step sim_ci p2a t robot_name tt0).
Proof.
  unfold playable_step.
  apply fails_with_bind; [exact episode_failure_later | | intros agent].
  { unfold dict_item. destruct (dict_get p2a robot_name); [apply fails_with_ret | ].
    intros h e es [= <- <-]. right. right. left. eexists. reflexivity. }
  do 3 (apply fails_with_bind; [exact episode_failure_later | episode_failure_step | intros ?]).
  apply fails_with_bind; [exact episode_failure_later | | intros r; repeat episode_failure_step].
  intros h e es. unfold try_except, bind, attr_observations, call, ret, raise.
  destruct (data a1); simpl; try (intros [= <- <-]; right; left; eexists;
                                   split; [reflexivity | now right]).
  destruct_world; simpl; try discriminate.
  all: try (destruct_world; simpl; try discriminate).
  all: intros [= <- <-]; right; left; eexists; split; [reflexivity | left].
  - eexists [_], _. repeat split.
  - eexists [], _. repeat split.
Qed.

Lemma step_loop_fails fuel sim_ci p2a playable not_playable dt len steps :
  forall t,
    fails_with episode_failure
               (step_loop fuel sim_ci p2a playable not_playable dt len steps t).
Proof.
  induction fuel as [| fuel IH]; intros t; simpl.
  - intros h e es; discriminate.
  - destruct (float_ge t len); [apply fails_with_ret | ].
    apply fails_with_bind; [exact episode_failure_later | | ].
    + unfold step_iteration, robots_phase, not_playable_step, log_timing_info.
      apply fails_with_bind; [exact episode_failure_later | | intros tt1].
      * apply fails_with_bind; [exact episode_failure_later | | intros tt1].
        -- apply fails_with_for_each; [exact episode_failure_later | ].
           intros x s. apply playable_step_fails.
        -- repeat episode_failure_step.
      * apply fails_with_bind; [exact episode_failure_later | episode_failure_step | ].
        intros recv. apply fails_with_bind; [exact episode_failure_later | | intros done].
        -- unfold attr_done. destruct (data recv); try apply fails_with_ret;
             intros h e es [= <- <-]; right; right; right; reflexivity.
        -- destruct done; repeat episode_failure_step.
    + intros [t' | ]; [apply IH | apply fails_with_ret].
Qed.

(** X10.  A failure of [run_episode] is of one of four kinds.  The
    exception of a call to the simulator, of the timing record or of the
    [episode_start] sent to an agent leaves [run_episode] as it is, that call
    being the last event.  An exception of [observations] or [get_commands],
    the exchange with an agent, leaves it as a submission failure with that
    exception as its cause, and so does a reply of the simulator that carries
    no observations.  A playable robot without an agent gives a [KeyError],
    and a reply to [get_sim_state] that is no simulation state an
    [AttributeError]. *)
Theorem failures_of_run_episode fuel sim_ci agents physics_dt episode_name scenario
    episode_length_s :
  fails_with episode_failure
             (run_episode fuel sim_ci agents physics_dt episode_name scenario
                episode_length_s).
Proof.
  unfold run_episode.
  apply fails_with_bind; [exact episode_failure_later | | intros _; apply step_loop_fails].
  unfold episode_init. repeat episode_failure_step.
Qed.

(** An exception of a collaborator that leaves [main] as it is was raised
    by the last call of [main], which stands outside its [try]. *)
Lemma main_external_failure fuel sfuel cfg log_dir attempts h w es :
  main fuel sfuel cfg log_dir attempts h = (Raise (External w), es) ->
  exists es' ev,
    es = es' ++ [ev] /\ raised_by (External w) ev /\ is_outside_try ev = true.
Proof.
  unfold main, bind.
  destruct (main_setup cfg h) as [[[] | e0 | ] es0] eqn:E0; [ | | discriminate].
  2: { intros [= -> <-].
       destruct (main_setup_raises _ _ _ _ E0) as [[] | (es' & ev & Hes & Hr)].
       exists es', ev. repeat split; try assumption.
       exact (last_of_all _ _ _ _ (main_setup_outside_try _ _ _ _ E0) Hes). }
  destruct (main_guarded _ _ _ _ _ (h ++ es0)) as [[s | e1 | ] es1] eqn:E1;
    [ | | discriminate].
  2: { intros [= -> <-].
       assert (Hfuel : Raise (External w) <> @OutOfFuel LoopState) by discriminate.
       destruct (main_guarded_run _ _ _ _ _ _ _ _ E1 Hfuel)
         as (o_try & es_try & _ & Hend).
       destruct Hend as [(e' & -> & [= <-]) | (a & -> & Ho)].
       - eexists (es0 ++ es_try), _. rewrite <- app_assoc. repeat split; reflexivity.
       - destruct a as [[] | e2].
         + destruct o_try as [s | e_try | ]; try discriminate.
           injection Ho as Ho. unfold classified in Ho.
           destruct e_try; simpl in Ho; discriminate.
         + injection Ho as <-.
           eexists (es0 ++ es_try ++ [_]), _. rewrite <- !app_assoc.
           repeat split; reflexivity. }
  destruct (report_scores _ _ _) as [o2 es2] eqn:E2. intros [= -> <-].
  destruct (report_scores_raises _ _ _ _ _ E2) as [[] | (es' & ev & Hes & Hr)].
  exists (es0 ++ es1 ++ es'), ev. rewrite Hes, <- !app_assoc.
  repeat split; try assumption.
  pose proof (report_scores_sets_scores _ _ _ _ _ E2) as Hset.
  pose proof (last_of_all _ _ _ _ Hset Hes) as Hev.
  destruct ev as [T r a]. destruct r; simpl in *; congruence.
Qed.

(** *** The log files of the attempts *)

Lemma counts_quiet p A (m : M A) : quiet p m -> counts p 0 m.
Proof. intros Hq h o es H _. apply quiet_count. exact (Hq _ _ _ H). Qed.

Lemma counts_bind p A B (m : M A) (f : A -> M B) n1 n2 :
  counts p n1 m -> (forall a, counts p n2 (f a)) -> counts p (n1 + n2) (bind m f).
Proof.
  intros Hm Hf h o es. unfold bind.
  destruct (m h) as [[a | e | ] es1] eqn:Em; try (intros [= <- <-]; discriminate).
  destruct (f a (h ++ es1)) as [o' es2] eqn:Ef. intros [= <- <-] Hok.
  rewrite count_app, (Hm _ _ _ Em eq_refl), (Hf _ _ _ _ Ef Hok). reflexivity.
Qed.

Lemma blind_is_file_close : blind_to_peers is_file_close.
Proof. intros T r a. destruct r; simpl; congruence. Qed.

Lemma run_episode_logged_closes sfuel cfg sim_ci agents spec fn_tmp fn :
  counts is_file_close 1 (run_episode_logged sfuel cfg sim_ci agents spec fn_tmp fn).
Proof.
  intros h o es H Hok. unfold run_episode_logged in H.
  apply try_finally_two_calls in H; [ | destruct o; discriminate].
  destruct H as (o_m & es_m & Hm & [(e & -> & ->) | (a & -> & ->)]); [discriminate | ].
  assert (Q : count is_file_close es_m = 0).
  { apply quiet_count. revert Hm. apply quiet_try_except.
    - apply quiet_run_episode, blind_is_file_close.
    - intros e. apply quiet_raise. }
  rewrite count_app, Q. reflexivity.
Qed.

Lemma episode_attempt_closes sfuel cfg agent_ci sim_ci agents log_dir attempts s spec :
  counts is_file_close 1
         (episode_attempt sfuel cfg agent_ci sim_ci agents log_dir attempts s spec).
Proof.
  unfold episode_attempt.
  apply counts_bind with (n1 := 1) (n2 := 0).
  - unfold attempt_episode.
    do 10 (apply counts_bind with (n1 := 0) (n2 := 1);
           [apply counts_quiet; repeat quiet_step blind_is_file_close | intros ?]).
    apply counts_bind with (n1 := 1) (n2 := 0); [apply run_episode_logged_closes | ].
    intros length_s. apply counts_quiet. repeat quiet_step blind_is_file_close.
  - intros r. apply counts_quiet, quiet_settle_attempt.
    intros T r0 a. destruct r0; exact I || reflexivity.
Qed.

(** X26.  When the episode loop returns, every log file that was opened
    for an attempt has been closed: the loop has made as many [close] calls
    on log files as it has opened log files. *)
Theorem logs_closed_when_loop_returns fuel sfuel cfg agent_ci sim_ci agents log_dir
    attempts :
  forall s h s' es,
    episodes_loop fuel sfuel cfg agent_ci sim_ci agents log_dir attempts s h = (Ok s', es) ->
    count is_file_close es = count is_open_wb es.
Proof.
  induction fuel as [| fuel IH]; intros s h s' es; simpl;
    destruct (st_episodes s) as [| spec pending] eqn:Eq.
  1, 3: intros H; apply ret_Ok in H as [_ ->]; reflexivity.
  1: unfold out_of_fuel; discriminate.
  destruct (max_failures cfg <=? st_nfailures s)%Z; [unfold raise; discriminate | ].
  intros H. inv_bind H. apply IH in H.
  pose proof (episode_attempt_closes _ _ _ _ _ _ _ _ _ _ _ _ H0 eq_refl) as Hc.
  apply episode_attempt_Ok in H0 as (Ho & _).
  subst es. rewrite !count_app, Hc, Ho, H. reflexivity.
Qed.

(** *** The phases of a timing record *)

Lemma for_each_Ok_records X (f : X -> list string) (body : X -> TimeTracker -> M TimeTracker)
    xs :
  (forall x s h s' es,
      body x s h = (Ok s', es) ->
      phases s' = phases s ++ first_occurrences (phases s) (f x)) ->
  forall s h s' es,
    for_each xs body s h = (Ok s', es) ->
    phases s' = phases s ++ first_occurrences (phases s) (flat_map f xs).
Proof.
  intros Hb. induction xs as [| x xs IH]; intros s h s' es H; simpl in H.
  - apply ret_Ok in H as [-> _]. simpl. now rewrite app_nil_r.
  - inv_bind H. apply IH in H. apply Hb in H0. rewrite H, H0.
    simpl. rewrite first_occurrences_app. now rewrite <- app_assoc.
Qed.

Lemma robots_phase_phases sim_ci p2a playable not_playable t tt0 h tt1 es :
  robots_phase sim_ci p2a playable not_playable t tt0 h = (Ok tt1, es) ->
  phases tt1
  = phases tt0
    ++ first_occurrences (phases tt0)
         (flat_map exchange_phases playable ++ map state_phase not_playable).
Proof.
  unfold robots_phase. intros H. inv_bind H.
  apply (for_each_Ok_records _ exchange_phases) in H0.
  2: { intros x s h' s' es' H'. unfold playable_step in H'.
       do 6 inv_bind H'. apply ret_Ok in H' as [-> _].
       exact (phases_measured s (exchange_phases x)). }
  apply (for_each_Ok_records _ (fun n => [state_phase n])) in H.
  2: { intros x s h' s' es' H'. unfold not_playable_step in H'.
       inv_bind H'. apply ret_Ok in H' as [-> _].
       exact (phases_measured s [state_phase x]). }
  rewrite H, H0, flat_map_singleton, first_occurrences_app, <- app_assoc. reflexivity.
Qed.

(** X27.  The timing record that a whole iteration logs lists the phases
    that were measured, each once, in the order in which they were measured
    first: the five phases of the exchange about each playable robot (of
    which [set_robot_commands], which has the same name for every robot, is
    listed once, where the first robot put it), the state query of each
    robot that is not playable, then [sim_compute_sim_state] and
    [sim_physics]. *)
Theorem timing_record_lists_the_phases sim_ci p2a playable not_playable dt steps t h
    t' es :
  step_iteration sim_ci p2a playable not_playable dt steps t h = (Ok (Some t'), es) ->
  exists es' record j,
    es = es' ++ [ Ev (ci_serialize sim_ci record) (Returned j);
                  Ev (cc_write sim_ci j) (Returned tt);
                  Ev (cc_flush sim_ci) (Returned tt) ]
    /\ phases record
       = first_occurrences [] (iteration_phases playable not_playable).
Proof.
  intros H. apply step_iteration_run in H.
  destruct H as (_ & _ & _ & es' & record & j & -> & _ & _ & tt1 & es1 & Hr & ->).
  eexists es', _, j. split; [reflexivity | ].
  apply robots_phase_phases in Hr. cbn [phases app] in Hr.
  etransitivity;
    [exact (phases_measured tt1 ["sim_compute_sim_state"; "sim_physics"]) | ].
  rewrite Hr. unfold iteration_phases. rewrite app_assoc. symmetry.
  exact (first_occurrences_app _ [] _).
Qed.

End Properties.

(* ------------------------------------------------------------------ *)
(** ** Properties of the script around the driver *)

Section ScriptProperties.

Context {host : Host}.

Lemma hcount_app p es1 es2 : hcount p (es1 ++ es2) = hcount p es1 + hcount p es2.
Proof. unfold hcount. now rewrite filter_app, length_app. Qed.

Lemma hcount_driver p es :
  (forall e, p (in_host e) = false) -> hcount p (map in_host es) = 0.
Proof.
  intros Hp. unfold hcount. induction es as [| e es IH]; simpl; [reflexivity | ].
  now rewrite Hp.
Qed.

Ltac destruct_host :=
  repeat match goal with
         | |- context [host_world ?h ?r] => destruct (host_world h r)
         end.

(** *** [env_as_yaml] and the start of [main] *)

(** How [main] ends, from its first line: on the way to the driver, or as
    the driver does. *)
Lemma main_from_environment_run fuel sfuel log_dir attempts hh o es :
  main_from_environment fuel sfuel log_dir attempts hh = (o, es) ->
  hcount is_wait es = 0
  /\ hcount is_passed es = 0
  /\ match o with
     | HRaise (Inner (External w)) =>
         exists es' ev,
           es = es' ++ [ev] /\ hraised_by (External w) ev
           /\ match ev with
              | HEv (driver_call r) a => is_outside_try (Ev r a) = true
              | _ => True
              end
     | _ => True
     end.
Proof.
  unfold main_from_environment, env_as_yaml, htry_except, hbind, hcall, hraise,
    run_driver, is_Exception.
  destruct (host_world hh os_environ_copy) as [environment | e0].
  2: { intros [= <- <-]. repeat split. destruct e0; try exact I.
       eexists [], _. repeat split. }
  destruct (dict_get environment "experiment_manager_parameters") as [v | ].
  2: { intros [= <- <-]. repeat split. }
  destruct (host_world _ (yaml_load v)) as [config_ | e1].
  2: { intros [= <- <-]. repeat split. }
  destruct (host_world _ (object_from_ipce config_)) as [config | e2].
  2: { intros [= <- <-]. repeat split. destruct e2; try exact I.
       eexists [_; _], _. repeat split. }
  match goal with
  | |- context [@main ?env fuel sfuel config log_dir attempts []] =>
      destruct (@main env fuel sfuel config log_dir attempts []) as [o_d es_d] eqn:Ed
  end.
  intros [= <- <-].
  split; [ | split].
  - change (hcount is_wait (map in_host es_d) = 0).
    apply hcount_driver. now intros [T r a].
  - change (hcount is_passed (map in_host es_d) = 0).
    apply hcount_driver. now intros [T r a].
  - destruct o_d as [[] | e | ]; try exact I. destruct e; try exact I.
    apply main_external_failure in Ed as (es' & ev & -> & Hr & Hout).
    exists ([HEv os_environ_copy (Returned environment);
             HEv (yaml_load v) (Returned config_);
             HEv (object_from_ipce config_) (Returned config)] ++ map in_host es'),
           (in_host ev).
    rewrite map_app. split; [reflexivity | ].
    destruct ev as [T r a]. simpl. split; [ | exact Hout].
    destruct a; [contradiction | exact Hr].
Qed.


(** *** [wrap] *)

(** X23.  The [finally] block of [wrap] runs whatever [main] did: after
    the events of [main] (and of [set_score('simulation-passed', 1)], which is
    called exactly when [main] returned), [wrap] announces that it saves the
    files and, when that call returned, hands over the directory of the
    episodes; the outcome is then that of [main] (of the score, when [main]
    returned), unless handing over raised. *)
Theorem wrap_hands_over_the_episodes fuel sfuel logdir attempts hh o es :
  wrap_guarded fuel sfuel logdir attempts hh = (o, es) ->
  o <> HOutOfFuel ->
  exists o_main es_main o_body es_passed,
    main_from_environment fuel sfuel logdir attempts hh = (o_main, es_main)
    /\ ((exists e, o_main = HRaise e /\ o_body = HRaise e /\ es_passed = [])
        \/ (exists a,
              o_main = HOk tt
              /\ es_passed = [HEv (set_score_int "simulation-passed" 1) a]
              /\ o_body = match a with
                          | Returned _ => HOk tt
                          | Raised e => HRaise (Inner e)
                          end))
    /\ hcount is_passed es = List.length es_passed
    /\ ((exists e,
           es = es_main ++ es_passed ++ [HEv (cie_info "saving files") (Raised e)]
           /\ o = HRaise (Inner e))
        \/ (exists a,
              es = es_main ++ es_passed
                   ++ [ HEv (cie_info "saving files") (Returned tt);
                        HEv (set_evaluation_dir "episodes" logdir) a ]
              /\ o = match a with
                     | Returned _ => o_body
                     | Raised e => HRaise (Inner e)
                     end)).
Proof.
  unfold wrap_guarded, htry_finally, hbind at 1.
  destruct (main_from_environment fuel sfuel logdir attempts hh) as [o_main es_main] eqn:Em.
  pose proof (main_from_environment_run _ _ _ _ _ _ _ Em) as (_ & Hp & _).
  intros H Hfuel. exists o_main, es_main.
  destruct o_main as [[] | e | ].
  - unfold hbind, hcall in H.
    destruct (host_world (hh ++ es_main) (set_score_int "simulation-passed" 1))
      as [[] | e1];
      (destruct (host_world _ (cie_info "saving files")) as [[] | e2];
       [destruct (host_world _ (set_evaluation_dir "episodes" logdir)) as [[] | e3] | ]);
      injection H as <- <-;
      eexists _, [_]; (split; [reflexivity | ]);
      (split; [right; eexists; repeat split | ]);
      (split; [rewrite !hcount_app, Hp; reflexivity | ]);
      rewrite <- ?app_assoc;
      first [ left; eexists; split; reflexivity
            | right; eexists; split; reflexivity ].
  - unfold hbind, hcall in H.
    destruct (host_world _ (cie_info "saving files")) as [[] | e2];
      [destruct (host_world _ (set_evaluation_dir "episodes" logdir)) as [[] | e3] | ];
      injection H as <- <-;
      exists (HRaise e), []; (split; [reflexivity | ]);
      (split; [left; eexists; repeat split | ]);
      (split; [rewrite !hcount_app, Hp; reflexivity | ]);
      first [ left; eexists; split; reflexivity
            | right; eexists; split; reflexivity ].
  - injection H as <- _. congruence.
Qed.

(** *** The [__main__] block *)

Lemma wrap_prepare_run hh o es :
  wrap_prepare hh = (o, es) ->
  hcount is_wait es = 0 /\ hcount is_main_entered es = 0
  /\ match o with
     | HOk _ => True
     | HRaise e =>
         exists e0 es' ev, e = Inner e0 /\ es = es' ++ [ev] /\ hraised_by e0 ev
     | HOutOfFuel => False
     end.
Proof.
  unfold wrap_prepare, hbind, hcall, hret.
  repeat (destruct_host; simpl;
          try match goal with
              | |- context [if negb ?b then _ else _] => is_var b; destruct b; simpl
              end).
  all: intros [= <- <-]; split; [reflexivity | split; [reflexivity | ]]; try exact I.
  all: match goal with
       | |- exists e0 es' ev, _ /\ ?l = _ /\ _ =>
           eexists _, (removelast l), _; repeat split
       end.
Qed.

Lemma wrap_guarded_run fuel sfuel logdir attempts hh o es :
  wrap_guarded fuel sfuel logdir attempts hh = (o, es) ->
  hcount is_wait es = 0
  /\ forall w,
      o = HRaise (Inner (External w)) ->
      exists es1 ev es2,
        es = es1 ++ ev :: es2 /\ hraised_by (External w) ev
        /\ match ev with
           | HEv (driver_call r) a => is_outside_try (Ev r a) = true
           | _ => True
           end.
Proof.
  unfold wrap_guarded, htry_finally, hbind at 1.
  destruct (main_from_environment fuel sfuel logdir attempts hh) as [o_main es_main] eqn:Em.
  pose proof (main_from_environment_run _ _ _ _ _ _ _ Em) as (Hw & _ & Hext).
  destruct o_main as [[] | e | ].
  - unfold hbind, hcall.
    destruct (host_world (hh ++ es_main) (set_score_int "simulation-passed" 1))
      as [[] | e1];
      (destruct (host_world _ (cie_info "saving files")) as [[] | e2];
       [destruct (host_world _ (set_evaluation_dir "episodes" logdir)) as [[] | e3] | ]);
      intros [= <- <-];
      (split; [rewrite !hcount_app, Hw; reflexivity | ]);
      intros w [= Ew]; subst.
    + eexists (es_main ++ [_; _]), _, []. rewrite <- !app_assoc. repeat split.
    + eexists (es_main ++ [_]), _, []. rewrite <- !app_assoc. repeat split.
    + eexists es_main, _, [_; _]. rewrite <- !app_assoc. repeat split.
    + eexists (es_main ++ [_; _]), _, []. rewrite <- !app_assoc. repeat split.
    + eexists (es_main ++ [_]), _, []. rewrite <- !app_assoc. repeat split.
  - unfold hbind, hcall.
    destruct (host_world _ (cie_info "saving files")) as [[] | e2];
      [destruct (host_world _ (set_evaluation_dir "episodes" logdir)) as [[] | e3] | ];
      intros [= <- <-];
      (split; [rewrite !hcount_app, Hw; reflexivity | ]);
      intros w [= Ew]; subst.
    + destruct Hext as (es' & ev & -> & Hr & Hout).
      exists es', ev, [HEv (cie_info "saving files") (Returned tt);
                       HEv (set_evaluation_dir "episodes" logdir) (Returned tt)].
      rewrite <- app_assoc. repeat split; assumption.
    + eexists (es_main ++ [_]), _, []. rewrite <- !app_assoc. repeat split.
    + eexists es_main, _, []. repeat split.
  - intros [= <- <-]. split; [exact Hw | discriminate].
Qed.

(** X24.  The script waits ten seconds only for a [RemoteNodeAborted] that
    was raised outside the [try] of [main]: when [time.sleep] is called, some
    call before it raised [RemoteNodeAborted], and that call is one of the
    script itself (of [wrap] or of the first lines of [main]) or one that the
    driver makes outside its [try] (opening a channel, reading or setting a
    protocol, a [close] of the cleanup block, setting a score).  A peer that
    aborts while the episodes are run is reported as a submission or an
    evaluator failure, and the script does not wait for it. *)
Theorem wait_only_for_failures_outside_the_try fuel sfuel hh o es :
  script_main fuel sfuel hh = (o, es) ->
  0 < hcount is_wait es ->
  exists es1 ev es2,
    es = es1 ++ ev :: es2
    /\ hraised_by (External "RemoteNodeAborted") ev
    /\ outside_the_try es1 ev.
Proof.
  unfold script_main, htry_except.
  destruct (wrap fuel sfuel hh) as [o_w es_w] eqn:Ew.
  assert (Hwrap : hcount is_wait es_w = 0
                  /\ forall w,
                      o_w = HRaise (Inner (External w)) ->
                      exists es1 ev es2,
                        es_w = es1 ++ ev :: es2 /\ hraised_by (External w) ev
                        /\ outside_the_try es1 ev).
  { revert Ew. unfold wrap, hbind at 1.
    destruct (wrap_prepare hh) as [o_p es_p] eqn:Ep.
    apply wrap_prepare_run in Ep as (Hw & Hn & Hp).
    destruct o_p as [[logdir attempts] | e | ]; [ | | contradiction].
    2: { intros [= <- <-]. split; [exact Hw | ]. intros w [= ->].
         destruct Hp as (e0 & es' & ev & [= <-] & -> & Hr).
         exists es', ev, []. repeat split; [exact Hr | ].
         rewrite hcount_app in Hn. destruct ev as [T r a]. destruct r; try exact I.
         right. lia. }
    unfold hbind. cbn [fst snd].
    destruct (wrap_guarded fuel sfuel logdir attempts (hh ++ es_p)) as [o_g es_g] eqn:Eg.
    apply wrap_guarded_run in Eg as (Hwg & Hg).
    assert (Hlift : forall w es_after,
               o_g = HRaise (Inner (External w)) ->
               exists es1 ev es2,
                 es_p ++ es_g ++ es_after = es1 ++ ev :: es2
                 /\ hraised_by (External w) ev /\ outside_the_try es1 ev).
    { intros w es_after Hw'. destruct (Hg w Hw') as (es1 & ev & es2 & -> & Hr & Hout).
      exists (es_p ++ es1), ev, (es2 ++ es_after).
      rewrite <- !app_assoc. repeat split; [exact Hr | ].
      destruct ev as [T r a]. destruct r; try exact I. left. exact Hout. }
    destruct o_g as [[] | e | ].
    - unfold hcall.
      destruct (host_world _ (cie_info "score() terminated gracefully.")) as [[] | e1];
        intros [= <- <-];
        (split; [rewrite !hcount_app, Hw, Hwg; reflexivity | ]); intros w [= Hw'].
      subst e1. eexists (es_p ++ es_g), _, []. rewrite <- app_assoc. repeat split.
    - intros [= <- <-]. split; [rewrite hcount_app, Hw, Hwg; reflexivity | ].
      intros w Hw'. destruct (Hlift w [] Hw') as (es1 & ev & es2 & E & Hr & Hout).
      rewrite app_nil_r in E. exists es1, ev, es2. auto.
    - intros [= <- <-]. split; [rewrite hcount_app, Hw, Hwg; reflexivity | discriminate]. }
  destruct Hwrap as (Hquiet & Hraise).
  destruct o_w as [[] | e | ]; try (intros [= <- <-] Hpos; lia).
  destruct (is_RemoteNodeAborted e) eqn:Ea; [ | intros [= <- <-] Hpos; lia].
  destruct e as [[w | | | | | ] | | ]; try discriminate.
  simpl in Ea. apply String.eqb_eq in Ea. subst w.
  destruct (Hraise _ eq_refl) as (es1 & ev & es2 & -> & Hr & Hout).
  destruct (hbind _ _ _) as [o' es'].
  intros [= <- <-] _. exists es1, ev, (es2 ++ es').
  rewrite <- app_assoc. repeat split; assumption.
Qed.

End ScriptProperties.

(* ------------------------------------------------------------------ *)
(** ** Runs in the scripted worlds *)

(** The stand-ins on the values 0.2 and 0.4: in binary64 the mean and the
    median are the double next above 0.3. *)
Example aggregates_of_two_values :
  mean_of [0.2; 0.4]%float = 0.30000000000000004%float
  /\ median_of [0.2; 0.4]%float = 0.30000000000000004%float
  /\ min_of [0.2; 0.4]%float = 0.2%float
  /\ max_of [0.2; 0.4]%float = 0.4%float
  /\ PrimFloat.eqb (mean_of [0.2; 0.4]%float) 0.3%float = false.
Proof. vm_compute. repeat split; reflexivity. Qed.

(** One NaN among the values makes the least and the greatest value NaN. *)
Example aggregates_with_nan :
  PrimFloat.is_nan (min_of [0.2; nan; 0.4]%float) = true
  /\ PrimFloat.is_nan (max_of [0.2; nan; 0.4]%float) = true
  /\ PrimFloat.is_nan (min_of [nan; 0.2]%float) = true.
Proof. vm_compute. repeat split; reflexivity. Qed.

(** A whole iteration for the scenario [loop]: the playable robot [ego], then
    the scripted robot [npc], then the global state, the step and the timing
    record. *)
Example messages_of_a_whole_iteration :
  map wire_of (snd (iteration_in happy_script))
  = [ wire sim0 "get_robot_state" (Some "ego");
      wire sim0 "get_robot_performance" (Some "ego");
      wire sim0 "get_robot_observations" (Some "ego");
      wire agent0 "observations" None;
      wire agent0 "get_commands" None;
      wire sim0 "set_robot_commands" (Some "ego");
      wire sim0 "get_robot_state" (Some "npc");
      wire sim0 "get_sim_state" None;
      wire sim0 "step" None;
      not_a_message; not_a_message; not_a_message ]
  /\ map wire_of (snd (iteration_in happy_script))
     = iteration_messages sim0 [agent0] loop_scenario.
Proof. vm_compute. split; reflexivity. Qed.

(** The episode [loop-0] of the scenario [loop], whose robots [ego] and [npc]
    have distinct names: after the six events of the initialisation, the
    messages of the loop are two whole iterations. *)
Lemma step_ordering_invariant_witness :
  NoDup (dict_keys (robots loop_scenario))
  /\ map wire_of (skipn 6 (snd (run_episode_in happy_script)))
     = iteration_messages sim0 [agent0] loop_scenario
       ++ iteration_messages sim0 [agent0] loop_scenario
  /\ exists es_loop,
      snd (run_episode_in happy_script)
      = snd (@episode_init (scripted_env happy_script) sim0 [agent0] "loop-0"
               loop_scenario [])
        ++ es_loop
      /\ step_loop_messages (iteration_messages sim0 [agent0] loop_scenario)
           (map wire_of es_loop)
      /\ (List.length [agent0] < List.length (playable_entries loop_scenario) ->
          is_prefix (map wire_of es_loop)
            (exchanges sim0 (playable_entries loop_scenario) [agent0])).
Proof.
  assert (Hnd : NoDup (dict_keys (robots loop_scenario))).
  { repeat (constructor; [simpl; intuition discriminate | ]). constructor. }
  split; [exact Hnd | ]. split; [vm_compute; reflexivity | ].
  exact (@step_ordering_invariant (scripted_env happy_script) 10 sim0 [agent0]
           (physics_dt cfg0) "loop-0" loop_scenario (episode_length_s cfg0) [] Hnd).
Defined.

(** With the two playable robots of [twin] and one agent, the robot [ego2]
    has no agent: the lookup raises [KeyError] in the first iteration, after
    the exchange about [ego]. *)
Example second_robot_without_agent :
  exists es,
    @run_episode (scripted_env happy_script) 10 sim0 [agent0] (physics_dt cfg0) "twin-0"
      twin_scenario (episode_length_s cfg0) []
    = (Raise (KeyError "ego2"), es)
    /\ map wire_of (skipn 6 es) = exchanges sim0 (playable_entries twin_scenario) [agent0]
    /\ exchanges sim0 (playable_entries twin_scenario) [agent0]
       = robot_exchange sim0 agent0 "ego".
Proof. eexists. split; [vm_compute; reflexivity | ]. vm_compute. split; reflexivity. Qed.

(** The step loop of [loop-0] with a simulator that never reports [done]:
    two steps of 0.5 s reach the episode length of 1 s. *)
Lemma termination_invariant_witness :
  fst (run_episode_in happy_script) = Ok 1%float
  /\ exists es_init es_loop,
      snd (run_episode_in happy_script) = es_init ++ es_loop
      /\ stopped_at_first (physics_dt cfg0) (episode_length_s cfg0) 0%float 1%float es_loop.
Proof.
  split; [vm_compute; reflexivity | ].
  destruct (@termination_invariant (scripted_env happy_script) 10 sim0 [agent0]
              (physics_dt cfg0) "loop-0" loop_scenario (episode_length_s cfg0) []
              1%float (snd (run_episode_in happy_script)))
    as [(es_init & es_loop & _ & E & S) _].
  - vm_compute. reflexivity.
  - exists es_init, es_loop. split; assumption.
Defined.

(** With a simulator that reports [done] at once, every attempt of [loop-0]
    is rejected; with [max_failures = 2] the loop stops after two attempts. *)
Lemma retry_bound_witness :
  exists es,
    @episodes_loop (scripted_env done_script) 10 10 cfg0 agent0 sim0 [agent0]
      "/tmp/episodes" "/tmp/attempts" state0 []
    = (Raise (PyException (TooManyFailures 2)), es)
    /\ count is_open_wb es = 2.
Proof.
  destruct (@retry_bound (scripted_env done_script) 10 10 cfg0 agent0 sim0 [agent0]
              "/tmp/episodes" "/tmp/attempts" state0 loop_0 [loop_1] [])
    as (es & E & C & _).
  - reflexivity.
  - intros i h. eexists _, _, _. split; [vm_compute; reflexivity | reflexivity].
  - reflexivity.
  - vm_compute. lia.
  - exists es. split; [exact E | exact C].
Defined.

(** An agent that wants lidar scans cannot be fed the simulator's images:
    [main] stops at the compatibility check. *)
Lemma compatibility_gate_witness :
  exists e,
    fst (main_in mismatch_script cfg0) = Raise e
    /\ is_mismatch e = true
    /\ count is_open_wb (snd (main_in mismatch_script cfg0)) = 0
    /\ count is_clear (snd (main_in mismatch_script cfg0)) = 0.
Proof.
  destruct (@compatibility_gate (scripted_env mismatch_script) 10 10 cfg0
              "/tmp/episodes" "/tmp/attempts" []
              (sim_protocol_of JPGImage PWMCommands)
              (agent_protocol_of LidarScan PWMCommands)
              (snd (@open_channels (scripted_env mismatch_script) cfg0 []))
              JPGImage PWMCommands LidarScan PWMCommands)
    as (e & E & Hm & Ho & Hc & _).
  - vm_compute. reflexivity.
  - reflexivity.
  - reflexivity.
  - left. reflexivity.
  - exists e. unfold main_in. rewrite E. simpl. auto.
Defined.



(** An iteration that runs to its end: its last three events log the timing
    record of step 0. *)
Lemma timing_record_after_whole_iteration_witness :
  fst (iteration_in happy_script) = Ok (Some 0.5%float)
  /\ exists es' record j,
      snd (iteration_in happy_script)
      = es' ++ [ Ev (ci_serialize sim0 record) (Returned j);
                 Ev (cc_write sim0 j) (Returned tt);
                 Ev (cc_flush sim0) (Returned tt) ]
      /\ tt_steps record = 0
      /\ count is_timing es' = 0.
Proof.
  split; [vm_compute; reflexivity | ].
  destruct (@timing_record_after_whole_iteration (scripted_env happy_script) sim0
              [("ego", agent0)] ["ego"] ["npc"] (physics_dt cfg0) 0 0%float []
              (Ok (Some 0.5%float)) (snd (iteration_in happy_script)))
    as [Hwhole _].
  - vm_compute. reflexivity.
  - destruct (Hwhole 0.5%float eq_refl) as (es' & record & j & E & Hs & Ht & _).
    exists es', record, j. auto.
Defined.


(** The agent does not answer: [main] fails with a submission failure, after
    the cleanup block has closed the agent and the simulator channels. *)
Lemma cleanup_on_failure_witness :
  fst (main_in silent_agent_script cfg0) = Raise (InvalidSubmission (External "timeout"))
  /\ exists es_before,
      snd (main_in silent_agent_script cfg0)
      = es_before ++ [ Ev (ci_close agent0) (Returned tt);
                       Ev (ci_close sim0) (Returned tt) ].
Proof.
  split; [vm_compute; reflexivity | ].
  destruct (@cleanup_on_failure (scripted_env silent_agent_script) 10 10 cfg0
              "/tmp/episodes" "/tmp/attempts" []
              (snd (@main_setup (scripted_env silent_agent_script) cfg0 []))
              (InvalidSubmission (External "timeout"))
              (snd (main_in silent_agent_script cfg0)))
    as (o_try & es_try & Htry & Hend).
  - vm_compute. reflexivity.
  - vm_compute. reflexivity.
  - exists (snd (@main_setup (scripted_env silent_agent_script) cfg0 []) ++ es_try).
    vm_compute in Htry. injection Htry as _ <-. vm_compute. reflexivity.
Defined.

(** With [max_failures = 0], [main] fails before the first attempt. *)
Lemma no_attempt_when_max_failures_not_positive_witness :
  fst (main_in happy_script (a_config 0 2))
  = Raise (InvalidEvaluator (PyException (TooManyFailures 0)))
  /\ count is_open_wb (snd (main_in happy_script (a_config 0 2))) = 0
  /\ count is_clear (snd (main_in happy_script (a_config 0 2))) = 0.
Proof.
  destruct (@no_attempt_when_max_failures_not_positive (scripted_env happy_script) 10 10
              (a_config 0 2) "/tmp/episodes" "/tmp/attempts" []
              (snd (@main_setup (scripted_env happy_script) (a_config 0 2) []))
              [loop_0; loop_1]
              (snd (@main_prelude (scripted_env happy_script) 10 (a_config 0 2)
                      (the_agent_ci (a_config 0 2)) (the_sim_ci (a_config 0 2))
                      (the_sm_ci (a_config 0 2))
                      (snd (@main_setup (scripted_env happy_script) (a_config 0 2) [])))))
    as (_ & o & es_close & Hmain & Ho & Hc & _).
  - vm_compute. discriminate.
  - lia.
  - vm_compute. reflexivity.
  - vm_compute. reflexivity.
  - discriminate.
  - unfold main_in. rewrite Hmain. simpl fst; simpl snd.
    split; [ | split; assumption].
    vm_compute in Hmain. injection Hmain as <- _. reflexivity.
Defined.

(** *** Where the claims fail *)


(** C7.  The simulator reports [done] in the first iteration: the robots
    were queried, the global state was queried, [run_episode] returns 0, and
    no timing record was serialised, written or flushed. *)
Lemma no_timing_record_for_the_done_iteration :
  fst (run_episode_in done_script) = Ok 0%float
  /\ count (topic_is "get_robot_state") (snd (run_episode_in done_script)) = 2
  /\ count reports_done (snd (run_episode_in done_script)) = 1
  /\ count is_timing (snd (run_episode_in done_script)) = 0.
Proof. vm_compute. repeat split; reflexivity. Qed.


(** C9.  The compatibility check fails: [main] raises the configuration
    error with the three channels open, and closes none of them. *)
Lemma configuration_error_closes_nothing :
  fst (main_in mismatch_script cfg0)
  = Raise (PyException (ObservationsMismatch {| result := false; truth := false |}))
  /\ count is_new_channel (snd (main_in mismatch_script cfg0)) = 3
  /\ count is_any_close (snd (main_in mismatch_script cfg0)) = 0.
Proof. vm_compute. repeat split; reflexivity. Qed.

(* ------------------------------------------------------------------ *)
(** ** More runs in the scripted worlds *)

(** One scenario, two episodes per scenario: [loop-0] and [loop-1], and the
    channel of the scenario maker closed at the end. *)
Lemma get_episodes_returns_witness :
  fst (get_episodes_in happy_script) = Ok [loop_0; loop_1]
  /\ flat_map scenario_received (snd (get_episodes_in happy_script)) = [loop_scenario]
  /\ exists es' m,
      snd (get_episodes_in happy_script)
      = es' ++ [ Ev (write_topic_and_expect sm0 "next_scenario" PNone None) (Returned m);
                 Ev (ci_close sm0) (Returned tt) ]
      /\ topic m = "finished".
Proof.
  split; [vm_compute; reflexivity | ].
  split; [vm_compute; reflexivity | ].
  destruct (@get_episodes_returns (scripted_env happy_script) 10 sm0 2 42 []
              [loop_0; loop_1] (snd (get_episodes_in happy_script)))
    as (_ & _ & es' & m & E & Hm & _).
  - vm_compute. reflexivity.
  - exists es', m. split; assumption.
Defined.

(** Two playable robots and one agent: the first robot talks to the agent,
    the second has none. *)
Lemma agents_assigned_by_position_witness :
  dict_get (dict_of_pairs (combine ["ego"; "ego2"] [agent0])) "ego" = Some agent0
  /\ dict_get (dict_of_pairs (combine ["ego"; "ego2"] [agent0])) "ego2" = None.
Proof.
  assert (Hnd : NoDup ["ego"; "ego2"]).
  { constructor; [intros [H | []]; discriminate | ].
    constructor; [intros [] | constructor]. }
  split.
  - exact (agents_assigned_by_position ["ego"; "ego2"] [agent0] 0 "ego" Hnd eq_refl).
  - exact (agents_assigned_by_position ["ego"; "ego2"] [agent0] 1 "ego2" Hnd eq_refl).
Defined.

(** Images against lidar scans: the check raises the mismatch of the
    observations; with the same types on both sides it returns. *)
Lemma compatibility_check_decides_witness :
  @check_compatibility_between_agent_and_sim (scripted_env mismatch_script) agent0
    (Some (agent_protocol_of LidarScan PWMCommands))
    (Some (sim_protocol_of JPGImage PWMCommands)) []
  = (Raise (PyException (ObservationsMismatch (same_name JPGImage LidarScan))), [])
  /\ @check_compatibility_between_agent_and_sim (scripted_env happy_script) agent0
       (Some (agent_protocol_of JPGImage PWMCommands))
       (Some (sim_protocol_of JPGImage PWMCommands)) []
     = (Ok tt, []).
Proof.
  split.
  - exact (@compatibility_check_decides (scripted_env mismatch_script) agent0
             (sim_protocol_of JPGImage PWMCommands)
             (agent_protocol_of LidarScan PWMCommands) []
             JPGImage PWMCommands LidarScan PWMCommands eq_refl).
  - exact (@compatibility_check_decides (scripted_env happy_script) agent0
             (sim_protocol_of JPGImage PWMCommands)
             (agent_protocol_of JPGImage PWMCommands) []
             JPGImage PWMCommands JPGImage PWMCommands eq_refl).
Defined.

(** An agent without a protocol is given the simulator's types. *)
Lemma agent_without_reflection_adopts_witness :
  fst (blind_check_in happy_script) = Ok tt
  /\ ((exists e,
         snd (blind_check_in happy_script)
         = [Ev (set_expect_protocol agent0 true "commands" PWMCommands) (Raised e)]
         /\ fst (blind_check_in happy_script) = Raise e)
      \/ (exists a2,
            snd (blind_check_in happy_script)
            = [ Ev (set_expect_protocol agent0 true "commands" PWMCommands) (Returned tt);
                Ev (set_expect_protocol agent0 false "observations" JPGImage) a2 ]
            /\ fst (blind_check_in happy_script)
               = match a2 with Returned _ => Ok tt | Raised e => Raise e end)).
Proof.
  split; [vm_compute; reflexivity | ].
  apply (@agent_without_reflection_adopts (scripted_env happy_script) agent0
           (sim_protocol_of JPGImage PWMCommands) JPGImage PWMCommands []).
  - reflexivity.
  - vm_compute. reflexivity.
Defined.

(** A simulator without a protocol; a simulator whose type of observations
    is a built-in type, without [__annotations__]. *)
Lemma compatibility_check_missing_type_witness :
  @check_compatibility_between_agent_and_sim (scripted_env happy_script) agent0
    (Some (agent_protocol_of JPGImage PWMCommands)) None []
  = (Raise (AttributeError "outputs"), [])
  /\ exists e,
      @check_compatibility_between_agent_and_sim (scripted_env happy_script) agent0
        (Some (agent_protocol_of JPGImage PWMCommands))
        (Some {| inputs := []; outputs := [("robot_observations", PyPlain "bytes")] |}) []
      = (Raise e, [])
      /\ e = AttributeError "__annotations__".
Proof.
  destruct (@compatibility_check_missing_type (scripted_env happy_script) agent0
              (Some (agent_protocol_of JPGImage PWMCommands))
              {| inputs := []; outputs := [("robot_observations", PyPlain "bytes")] |} [])
    as [H1 H2].
  split; [exact H1 | ].
  destruct (H2 (agent_protocol_of JPGImage PWMCommands) eq_refl eq_refl)
    as (e & He & _).
  exists e. split; [exact He | ].
  vm_compute in He. now injection He as <-.
Defined.

(** The exchange about [ego] in the first iteration: the camera image goes
    to the agent, its commands go to the simulator. *)
Lemma robot_exchange_forwards_witness :
  In (Ev (write_topic_and_expect_zero agent0 "observations" (PObservations "camera"))
         (Returned tt))
     (snd (exchange_in happy_script))
  /\ In (Ev (write_topic_and_expect_zero sim0 "set_robot_commands"
               (PSetRobotCommands "ego" (DValue "pwm") 0%float)) (Returned tt))
        (snd (exchange_in happy_script))
  /\ exists agent m1 m2 tp obs r,
      dict_get [("ego", agent0)] "ego" = Some agent
      /\ snd (exchange_in happy_script)
         = [ Ev (write_topic_and_expect sim0 "get_robot_state"
                   (PGetRobotState "ego" 0%float) (Some "robot_state")) (Returned m1);
             Ev (write_topic_and_expect sim0 "get_robot_performance"
                   (PRobotName "ego") (Some "robot_performance")) (Returned m2);
             Ev (write_topic_and_expect sim0 "get_robot_observations"
                   (PGetRobotObservations "ego" 0%float) (Some "robot_observations"))
                (Returned {| topic := tp; data := DRobotObservations obs |});
             Ev (write_topic_and_expect_zero agent "observations" (PObservations obs))
                (Returned tt);
             Ev (write_topic_and_expect agent "get_commands" PNone (Some "commands"))
                (Returned r);
             Ev (write_topic_and_expect_zero sim0 "set_robot_commands"
                   (PSetRobotCommands "ego" (data r) 0%float)) (Returned tt) ].
Proof.
  split; [vm_compute; tauto | ]. split; [vm_compute; tauto | ].
  destruct (@robot_exchange_forwards (scripted_env happy_script) sim0 [("ego", agent0)]
              0%float "ego" {| tt_steps := 0; phases := [] |} []
              (match fst (exchange_in happy_script) with
               | Ok tt1 => tt1
               | _ => {| tt_steps := 0; phases := [] |}
               end)
              (snd (exchange_in happy_script)))
    as (agent & m1 & m2 & tp & obs & r & Ha & E & _).
  - vm_compute. reflexivity.
  - exists agent, m1, m2, tp, obs, r. split; assumption.
Defined.

(** The first query of the second iteration carries 0.5, the time of the
    step sent before it. *)
Lemma messages_tagged_with_time_reached_witness :
  exists es1 e es2,
    snd (run_episode_in happy_script) = es1 ++ e :: es2
    /\ effective_time e = Some 0.5%float
    /\ time_reached 0%float es1 = 0.5%float.
Proof.
  exists (firstn 18 (snd (run_episode_in happy_script))),
         (nth 18 (snd (run_episode_in happy_script)) (Ev (ci_close sim0) (Returned tt))),
         (skipn 19 (snd (run_episode_in happy_script))).
  split; [vm_compute; reflexivity | ].
  split; [vm_compute; reflexivity | ].
  symmetry.
  assert (Hrun : @run_episode (scripted_env happy_script) 10 sim0 [agent0]
                   (physics_dt cfg0) "loop-0" loop_scenario (episode_length_s cfg0) []
                 = (fst (run_episode_in happy_script), snd (run_episode_in happy_script)))
    by (vm_compute; reflexivity).
  apply (@messages_tagged_with_time_reached (scripted_env happy_script) 10 sim0 [agent0]
           (physics_dt cfg0) "loop-0" loop_scenario (episode_length_s cfg0) []
           (fst (run_episode_in happy_script)) (snd (run_episode_in happy_script)) Hrun
           (firstn 18 (snd (run_episode_in happy_script)))
           (nth 18 (snd (run_episode_in happy_script)) (Ev (ci_close sim0) (Returned tt)))
           (skipn 19 (snd (run_episode_in happy_script)))).
  - vm_compute. reflexivity.
  - vm_compute. reflexivity.
Defined.

(** The first attempt of [loop-0] is rejected, the next two attempts are
    accepted: three attempts for two episodes and one failure. *)
Lemma attempts_accounted_witness :
  count is_open_wb (snd (loop_in retry_script)) = 3
  /\ st_episodes (state_after (loop_in retry_script)) = []
  /\ st_attempt_i (state_after (loop_in retry_script)) = 3
  /\ st_nfailures (state_after (loop_in retry_script)) = 1%Z.
Proof.
  destruct (@attempts_accounted (scripted_env retry_script) 10 10 cfg0 agent0 sim0 [agent0]
              "/tmp/episodes" "/tmp/attempts" state0 []
              (state_after (loop_in retry_script)) (snd (loop_in retry_script)))
    as (He & Hc & Hi & _ & _).
  - vm_compute. reflexivity.
  - assert (Hn : st_nfailures (state_after (loop_in retry_script)) = 1%Z)
      by (vm_compute; reflexivity).
    rewrite Hn in Hc. rewrite Hc in Hi.
    split; [exact Hc | ]. split; [exact He | ]. split; [exact Hi | exact Hn].
Defined.

(** Two steps of 0.5 s reach the limit of 1 s, and two episodes with two
    failures allowed need at most four attempts: the loop ends with a fuel
    of ten. *)
Lemma episodes_loop_ends_witness :
  limit_within 10 cfg0
  /\ attempts_left cfg0 state0 = 4
  /\ fst (loop_in done_script) <> OutOfFuel.
Proof.
  assert (Hlim : limit_within 10 cfg0).
  { exists 2. split; [lia | vm_compute; reflexivity]. }
  split; [exact Hlim | ]. split; [reflexivity | ].
  apply (@episodes_loop_ends (scripted_env done_script) 10 10 cfg0 agent0 sim0 [agent0]
           "/tmp/episodes" "/tmp/attempts" Hlim state0 []).
  vm_compute. lia.
Defined.

(** Two playable robots and one agent: the attempt fails with the log file
    open, before anything is sent to the simulator. *)
Lemma robots_mismatch_stops_attempt_witness :
  fst (twin_attempt_in happy_script) = Raise (PyException (RobotsMismatch 2 1))
  /\ count is_open_wb (snd (twin_attempt_in happy_script)) = 1
  /\ count is_clear (snd (twin_attempt_in happy_script)) = 0
  /\ count is_file_close (snd (twin_attempt_in happy_script)) = 0
  /\ count is_any_rename (snd (twin_attempt_in happy_script)) = 0.
Proof.
  destruct (@robots_mismatch_stops_attempt (scripted_env happy_script) 10 cfg0 agent0 sim0
              [agent0] "/tmp/episodes" "/tmp/attempts" 0 twin_0 []
              (fst (twin_attempt_in happy_script)) (snd (twin_attempt_in happy_script)))
    as (Hc & Hf & Hr & _).
  - vm_compute. lia.
  - vm_compute. reflexivity.
  - split; [vm_compute; reflexivity | ]. split; [vm_compute; reflexivity | ].
    split; [exact Hc | ]. split; [exact Hf | exact Hr].
Defined.

(** [loop-0] has no value for the path of [loop-1]: the report fails with
    the [KeyError] of that path, after [per-episodes] was set. *)
Lemma missing_metric_fails_report_witness :
  fst (report_in happy_script) = Raise (KeyError "lane_following/deviation")
  /\ List.length (snd (report_in happy_script)) = 1.
Proof.
  destruct (@missing_metric_fails_report (scripted_env happy_script)
              [("loop-0", []); ("loop-1", [("lane_following/deviation", 0.4%float)])]
              [("lane_following/deviation", 0.4%float)]
              "lane_following/deviation" []
              (fst (report_in happy_script)) (snd (report_in happy_script)))
    as (e & He & _).
  - left. reflexivity.
  - exists []. split; [left; reflexivity | reflexivity].
  - vm_compute. reflexivity.
  - split; [ | vm_compute; reflexivity].
    rewrite He. vm_compute in He. injection He as <-. reflexivity.
Defined.

(** With no episode per scenario [main] returns at once, also when no
    failure is allowed. *)
Lemma no_episode_when_none_per_scenario_witness :
  fst (main_in happy_script (a_config 0 0)) = Ok tt
  /\ count is_open_wb (snd (main_in happy_script (a_config 0 0))) = 0
  /\ count is_clear (snd (main_in happy_script (a_config 0 0))) = 0
  /\ scores_of (snd (main_in happy_script (a_config 0 0)))
     = [("per-episodes", SPerEpisode [])].
Proof.
  destruct (@no_episode_when_none_per_scenario (scripted_env happy_script) 10 10
              (a_config 0 0) "/tmp/episodes" "/tmp/attempts" []
              (fst (main_in happy_script (a_config 0 0)))
              (snd (main_in happy_script (a_config 0 0))))
    as (Ho & Hc & Hs).
  - vm_compute. discriminate.
  - vm_compute. reflexivity.
  - split; [vm_compute; reflexivity | ]. split; [exact Ho | ]. split; [exact Hc | ].
    apply Hs. vm_compute. reflexivity.
Defined.

(** One rejected and two accepted attempts: the first attempt of [loop-0]
    has length 0.0 and gets no video; [loop-0] gets its video from its second
    attempt (index 1) and [loop-1] from the third (index 2). *)
Lemma one_video_per_episode_witness :
  attempt_lengths (snd (loop_in retry_script)) = [0; 1; 1]%float
  /\ videos_made (snd (loop_in retry_script))
     = [ ("/tmp/attempts/loop-0.attempt1/log.gs2.cbor",
          "/tmp/attempts/loop-0.attempt1/camera.mp4");
         ("/tmp/attempts/loop-1.attempt2/log.gs2.cbor",
          "/tmp/attempts/loop-1.attempt2/camera.mp4") ]
  /\ videos_made (snd (loop_in retry_script))
     = expected_videos cfg0 "/tmp/attempts" [loop_0; loop_1] 0
         (attempt_lengths (snd (loop_in retry_script)))
  /\ List.length (videos_made (snd (loop_in retry_script))) = 2.
Proof.
  split; [vm_compute; reflexivity | ]. split; [vm_compute; reflexivity | ].
  apply (@one_video_per_episode (scripted_env retry_script) 10 10 cfg0 agent0 sim0 [agent0]
           "/tmp/episodes" "/tmp/attempts" state0 []
           (state_after (loop_in retry_script)) (snd (loop_in retry_script))).
  vm_compute. reflexivity.
Defined.

(** The agent does not answer: the time-out leaves [main] as a submission
    failure; the mismatch of types leaves it as it is. *)
Lemma exceptions_of_main_witness :
  fst (main_in silent_agent_script cfg0) = Raise (InvalidSubmission (External "timeout"))
  /\ ((exists cause, InvalidSubmission (External "timeout") = InvalidSubmission cause)
      \/ (exists cause, InvalidSubmission (External "timeout") = InvalidEvaluator cause)
      \/ raised_outside_try (InvalidSubmission (External "timeout"))
      \/ (exists es' ev,
            snd (main_in silent_agent_script cfg0) = es' ++ [ev]
            /\ raised_by (InvalidSubmission (External "timeout")) ev
            /\ is_outside_try ev = true)).
Proof.
  split; [vm_compute; reflexivity | ].
  apply (@exceptions_of_main (scripted_env silent_agent_script) 10 10 cfg0
           "/tmp/episodes" "/tmp/attempts" []).
  vm_compute. reflexivity.
Defined.

(** The scenario [loop] has one playable robot, [ego], and there is one
    agent: [ego] talks to it. *)
Lemma every_playable_robot_has_an_agent_witness :
  exists i agent,
    nth_error (playable_robots loop_scenario) i = Some "ego"
    /\ nth_error [agent0] i = Some agent
    /\ dict_get (dict_of_pairs (combine (playable_robots loop_scenario) [agent0])) "ego"
       = Some agent.
Proof.
  apply (every_playable_robot_has_an_agent loop_scenario [agent0] "ego").
  - constructor; [intros [H | []]; discriminate | ].
    constructor; [intros [] | constructor].
  - reflexivity.
  - left. reflexivity.
Defined.

(** Three attempts, three log files opened, three closed. *)
Lemma logs_closed_when_loop_returns_witness :
  count is_open_wb (snd (loop_in retry_script)) = 3
  /\ count is_file_close (snd (loop_in retry_script))
     = count is_open_wb (snd (loop_in retry_script)).
Proof.
  split; [vm_compute; reflexivity | ].
  apply (@logs_closed_when_loop_returns (scripted_env retry_script) 10 10 cfg0 agent0 sim0
           [agent0] "/tmp/episodes" "/tmp/attempts" state0 []
           (state_after (loop_in retry_script))).
  vm_compute. reflexivity.
Defined.

(** The timing record of an iteration with two playable robots: eleven
    phases, [set_robot_commands] once, where the first robot put it. *)
Lemma timing_record_lists_the_phases_witness :
  exists es' record j,
    snd (twin_iteration_in happy_script)
    = es' ++ [ Ev (ci_serialize sim0 record) (Returned j);
               Ev (cc_write sim0 j) (Returned tt);
               Ev (cc_flush sim0) (Returned tt) ]
    /\ phases record
       = [ "sim_compute_robot_state-ego"; "sim_compute_performance-ego";
           "sim_render-ego"; "agent_compute-ego"; "set_robot_commands";
           "sim_compute_robot_state-ego2"; "sim_compute_performance-ego2";
           "sim_render-ego2"; "agent_compute-ego2";
           "sim_compute_sim_state"; "sim_physics" ].
Proof.
  apply (@timing_record_lists_the_phases (scripted_env happy_script) sim0
           [("ego", agent0); ("ego2", agent0)] ["ego"; "ego2"] [] (physics_dt cfg0)
           0 0%float [] 0.5%float).
  vm_compute. reflexivity.
Defined.

(** A whole run of [main] on the scenario [loop], two episodes: what it
    creates and renames are the paths of [loop-0] and [loop-1]. *)
Lemma main_changes_its_own_paths_only_witness :
  episode_names_received 2 (snd (main_in happy_script cfg0)) = ["loop-0"; "loop-1"]
  /\ directories_changed (snd (main_in happy_script cfg0))
     = ["/tmp/attempts/loop-0.attempt0"; "/tmp/attempts/loop-1.attempt1"]
  /\ renames_made (snd (main_in happy_script cfg0))
     = [ ("/tmp/attempts/loop-0.attempt0/log.gs2.cbor.tmp",
          "/tmp/attempts/loop-0.attempt0/log.gs2.cbor");
         ("/tmp/attempts/loop-0.attempt0", "/tmp/episodes/loop-0");
         ("/tmp/attempts/loop-1.attempt1/log.gs2.cbor.tmp",
          "/tmp/attempts/loop-1.attempt1/log.gs2.cbor");
         ("/tmp/attempts/loop-1.attempt1", "/tmp/episodes/loop-1") ]
  /\ Forall (confined "/tmp/episodes" "/tmp/attempts"
               (episode_names_received 2 (snd (main_in happy_script cfg0))))
            (snd (main_in happy_script cfg0)).
Proof.
  split; [vm_compute; reflexivity | ]. split; [vm_compute; reflexivity | ].
  split; [vm_compute; reflexivity | ].
  apply (@main_changes_its_own_paths_only (scripted_env happy_script) 10 10 cfg0
           "/tmp/episodes" "/tmp/attempts" []
           (fst (main_in happy_script cfg0)) (snd (main_in happy_script cfg0))).
  unfold main_in. apply surjective_pairing.
Defined.

(** The scenario maker sends a scenario whose name is an absolute path: the
    directories of the attempts and the final directories of its episodes
    are under neither [attempts] nor [log_dir]. *)
Example absolute_scenario_name_leaves_log_dir :
  fst (main_in stray_script cfg0) = Ok tt
  /\ episode_names_received 2 (snd (main_in stray_script cfg0))
     = ["/srv/maps/loop-0"; "/srv/maps/loop-1"]
  /\ directories_changed (snd (main_in stray_script cfg0))
     = ["/srv/maps/loop-0.attempt0"; "/srv/maps/loop-1.attempt1"]
  /\ renames_made (snd (main_in stray_script cfg0))
     = [ ("/srv/maps/loop-0.attempt0/log.gs2.cbor.tmp",
          "/srv/maps/loop-0.attempt0/log.gs2.cbor");
         ("/srv/maps/loop-0.attempt0", "/srv/maps/loop-0");
         ("/srv/maps/loop-1.attempt1/log.gs2.cbor.tmp",
          "/srv/maps/loop-1.attempt1/log.gs2.cbor");
         ("/srv/maps/loop-1.attempt1", "/srv/maps/loop-1") ].
Proof. vm_compute. repeat split; reflexivity. Qed.

(* ------------------------------------------------------------------ *)
(** ** Runs of the script *)


(** The agent does not answer: [main] fails with a submission failure,
    [simulation-passed] is not set, and the episodes are handed over. *)
Lemma wrap_hands_over_the_episodes_witness :
  fst (wrap_guarded_in silent_agent_host)
  = HRaise (Inner (InvalidSubmission (External "timeout")))
  /\ hcount is_passed (snd (wrap_guarded_in silent_agent_host)) = 0
  /\ hcount is_handed_over (snd (wrap_guarded_in silent_agent_host)) = 1.
Proof.
  split; [vm_compute; reflexivity | ].
  destruct (@wrap_hands_over_the_episodes (scripted_host silent_agent_host) 10 10
              "/tmp/episodes" "/tmp/attempts" []
              (fst (wrap_guarded_in silent_agent_host))
              (snd (wrap_guarded_in silent_agent_host)))
    as (o_main & es_main & o_body & es_passed & Hm & Hb & Hp & _).
  - vm_compute. reflexivity.
  - vm_compute. discriminate.
  - split; [ | vm_compute; reflexivity].
    vm_compute in Hm. injection Hm as Ho _.
    destruct Hb as [(e & _ & _ & ->) | (a & Hok & _)]; [exact Hp | congruence].
Defined.

(** A node has aborted before its channel is opened: [RemoteNodeAborted]
    leaves [main] as it is, and the script waits. *)
Lemma wait_only_for_failures_outside_the_try_witness :
  fst (script_main_in aborted_host) = HRaise (Inner (External "RemoteNodeAborted"))
  /\ hcount is_wait (snd (script_main_in aborted_host)) = 1
  /\ exists es1 ev es2,
      snd (script_main_in aborted_host) = es1 ++ ev :: es2
      /\ hraised_by (External "RemoteNodeAborted") ev
      /\ outside_the_try es1 ev.
Proof.
  split; [vm_compute; reflexivity | ]. split; [vm_compute; reflexivity | ].
  apply (@wait_only_for_failures_outside_the_try (scripted_host aborted_host) 10 10 []
           (fst (script_main_in aborted_host))).
  - vm_compute. reflexivity.
  - vm_compute. lia.
Defined.

(** The agent does not answer during the first episode: the script does not
    wait; all goes well: [simulation-passed] is set and the script returns. *)
Example no_wait_for_a_failure_inside_the_try :
  fst (script_main_in silent_agent_host)
  = HRaise (Inner (InvalidSubmission (External "timeout")))
  /\ hcount is_wait (snd (script_main_in silent_agent_host)) = 0
  /\ fst (script_main_in happy_host) = HOk tt
  /\ hcount is_passed (snd (script_main_in happy_host)) = 1
  /\ hcount is_handed_over (snd (script_main_in happy_host)) = 1.
Proof. vm_compute. repeat split; reflexivity. Qed.
